(** * Parallel Machine Scheduling: the A* search engine of [Code.cpp]

    A shallow embedding of [Parallel Machine Scheduling/Code.cpp]:
    the state model, the transition [asignarTarea], the cost
    [calcularCoste], the heuristic [calcularHeuristica2], the successor
    generator [generarSucesores] and the search loop [A_estrella].

    Conventions of the embedding.
    - A C++ [int] is a [Z].  Signed overflow is undefined in C++ and is not
      modelled: a statement that depends on a sum of [int]s has, among its
      hypotheses, the range in which that sum is the one the program
      computes ([es_int], [suma_en_rango], [suma_absoluta]).
    - A C++ [double] is an IEEE-754 binary64 number, a [spec_float] of the
      standard library, with its operations rounded to nearest-even.
    - A [std::vector] is a [list]; an iterator is a position in it, and
      [end()] is the length.
    - [std::priority_queue] is an interface ([ColaPrioridad]) with laws
      ([ColaLegal]): which of several nodes of equal [f_cost] is on top is
      left to the implementation, and the theorems about the search hold
      for every lawful implementation.
    - [std::map<Estado,int>] is an association list read through the
      equivalence that [Estado::operator<] induces. *)

From Stdlib Require Import ZArith List Bool Lia Permutation Arith FinFun.
From Stdlib Require Import SpecFloat.
From Stdlib Require QArith Qpower Qround Lqa.
Import ListNotations.
Local Open Scope Z_scope.

(** * The program *)

(** ** Estructuras básicas *)

Record Maquina : Type := mkMaquina {
  Maquina_id : Z;
  tiempo_ocupado : Z
}.

Record Tarea : Type := mkTarea {
  Tarea_id : Z;
  tiempo : Z
}.

Record Asignacion : Type := mkAsignacion {
  tarea_id : Z;
  maquina_id : Z;
  posicion : Z
}.

Record Estado : Type := mkEstado {
  M : list Maquina;
  T : list Tarea;
  Asignaciones : list Asignacion
}.

(** [Maquina::operator<]: [std::tie(id, tiempo_ocupado) < std::tie(...)]. *)
Definition Maquina_lt (a b : Maquina) : bool :=
  (Maquina_id a <? Maquina_id b)
  || ((Maquina_id a =? Maquina_id b) && (tiempo_ocupado a <? tiempo_ocupado b)).

Definition Maquina_eq (a b : Maquina) : bool :=
  (Maquina_id a =? Maquina_id b) && (tiempo_ocupado a =? tiempo_ocupado b).

(** [Tarea::operator<] and [operator==] look at the id only. *)
Definition Tarea_lt (a b : Tarea) : bool := Tarea_id a <? Tarea_id b.
Definition Tarea_eq (a b : Tarea) : bool := Tarea_id a =? Tarea_id b.

(** [operator==] and [operator<] of [std::vector]: same size and equal
    elements; lexicographic comparison with the elements' [operator<]. *)
Fixpoint vector_eq {A : Type} (eq : A -> A -> bool) (u v : list A) : bool :=
  match u, v with
  | [], [] => true
  | a :: u', b :: v' => eq a b && vector_eq eq u' v'
  | _, _ => false
  end.

Fixpoint vector_lt {A : Type} (lt : A -> A -> bool) (u v : list A) : bool :=
  match u, v with
  | _, [] => false
  | [], _ :: _ => true
  | a :: u', b :: v' =>
      if lt a b then true
      else if lt b a then false
      else vector_lt lt u' v'
  end.

(** [Estado::operator<]: the pending tasks first, then the machines. *)
Definition Estado_lt (a b : Estado) : bool :=
  if negb (vector_eq Tarea_eq (T a) (T b))
  then vector_lt Tarea_lt (T a) (T b)
  else vector_lt Maquina_lt (M a) (M b).

Definition Estado_eq (a b : Estado) : bool :=
  vector_eq Tarea_eq (T a) (T b) && vector_eq Maquina_eq (M a) (M b).

(** ** Función de asignación *)

(** [std::find_if]: the position of the first element that satisfies [p],
    the length of the vector ([end()]) when there is none. *)
Fixpoint find_if {A : Type} (p : A -> bool) (v : list A) : nat :=
  match v with
  | [] => O
  | a :: v' => if p a then O else S (find_if p v')
  end.

(** [vector::erase(it)]. *)
Fixpoint erase {A : Type} (v : list A) (it : nat) : list A :=
  match v, it with
  | [], _ => []
  | _ :: v', O => v'
  | a :: v', S it' => a :: erase v' it'
  end.

(** Writing through a reference to the element at position [it]. *)
Fixpoint modificar {A : Type} (f : A -> A) (v : list A) (it : nat) : list A :=
  match v, it with
  | [], _ => []
  | a :: v', O => f a :: v'
  | a :: v', S it' => a :: modificar f v' it'
  end.

(** [nuevo] is the copy of [estado] that the function works on; dereferencing
    an iterator is [nth_error], which is [None] exactly at [end()].  The
    load is updated with the sum on [Z]: it is the sum of the code while
    that sum is within [int], which the statements about loads require. *)
Definition asignarTarea (estado : Estado) (tarea_id maquina_id : Z) : Estado :=
  let nuevo := estado in
  let it_tarea := find_if (fun t => Tarea_id t =? tarea_id) (T nuevo) in
  match nth_error (T nuevo) it_tarea with
  | None => nuevo
  | Some tarea =>
      let it_maquina := find_if (fun m => Maquina_id m =? maquina_id) (M nuevo) in
      match nth_error (M nuevo) it_maquina with
      | None => nuevo
      | Some maquina =>
          {| M := modificar
                    (fun m => {| Maquina_id := Maquina_id m;
                                 tiempo_ocupado := tiempo_ocupado m + tiempo tarea |})
                    (M nuevo) it_maquina;
             T := erase (T nuevo) it_tarea;
             Asignaciones :=
               Asignaciones nuevo
               ++ [ {| tarea_id := Tarea_id tarea;
                       maquina_id := Maquina_id maquina;
                       posicion := 0 |} ] |}
      end
  end.

(** ** Coste g(n) *)

(** One step of the loop of [calcularCoste]: [std::max(max_tiempo, m.tiempo_ocupado)]. *)
Definition mayor (max_tiempo : Z) (m : Maquina) : Z :=
  Z.max max_tiempo (tiempo_ocupado m).

Definition calcularCoste (estado : Estado) : Z :=
  fold_left mayor (M estado) 0.

(** ** Aritmética [double] *)

Module Double.

Definition prec : Z := 53.
Definition emax : Z := 1024.

Definition t : Type := spec_float.

Definition cero : t := S754_zero false.

(** Conversion of an [int] to [double]. *)
Definition de_int (z : Z) : t := binary_normalize prec emax z 0 false.

Definition add : t -> t -> t := SFadd prec emax.
Definition sub : t -> t -> t := SFsub prec emax.
Definition div : t -> t -> t := SFdiv prec emax.
Definition ltb : t -> t -> bool := SFltb.

(** Integer part of the magnitude [m * 2^e] of a finite number, and whether
    its fraction is one half or more. *)
Definition parte_entera (m : positive) (e : Z) : Z :=
  match e with
  | Zneg k => Z.shiftr (Zpos m) (Zpos k)
  | _ => Z.shiftl (Zpos m) e
  end.

Definition medio_o_mas (m : positive) (e : Z) : bool :=
  match e with
  | Zneg k => Z.testbit (Zpos m) (Zpos k - 1)
  | _ => false
  end.

(** [std::round]: nearest integer, halfway cases away from zero; zeros,
    infinities and NaN are returned as they are. *)
Definition round (x : t) : t :=
  match x with
  | S754_finite s m e =>
      let q := parte_entera m e + (if medio_o_mas m e then 1 else 0) in
      binary_normalize prec emax (if s then - q else q) 0 s
  | _ => x
  end.

(** The integer obtained by discarding the fraction of a finite number. *)
Definition truncar (x : t) : option Z :=
  match x with
  | S754_zero _ => Some 0
  | S754_finite s m e => Some (if s then - parte_entera m e else parte_entera m e)
  | _ => None
  end.

Definition INT_MIN : Z := - 2 ^ 31.
Definition INT_MAX : Z := 2 ^ 31 - 1.

(** [static_cast<int>] where C++ defines it: the truncated value fits an [int]. *)
Definition a_int_definido (x : t) : option Z :=
  match truncar x with
  | Some z => if (INT_MIN <=? z) && (z <=? INT_MAX) then Some z else None
  | None => None
  end.

End Double.

(** The conversion of a NaN, an infinity or an out-of-range value to [int]
    has no defined result in C++.  The model leaves that result open: it is
    whatever value the platform yields, and every statement below holds for
    each such value. *)
Class Plataforma : Type := {
  conversion_indefinida : Z
}.

Definition static_cast_int `{Plataforma} (x : Double.t) : Z :=
  match Double.a_int_definido x with
  | Some z => z
  | None => conversion_indefinida
  end.

(** ** Heurística h(n) *)

(** The integers of the function ([M], [suma_t_restantes], [tiempo_max] and
    each [tiempo_max - m.tiempo_ocupado]) are computed on [Z]: they are
    those of the code while they are within [int], which the statements
    about the value of the heuristic require.  From the accumulation of
    [suma_espacio_libre] on, the operations are those of [double]. *)
Definition calcularHeuristica2 `{Plataforma} (estado : Estado) : Z :=
  let M_ := Z.of_nat (length (M estado)) in
  let suma_t_restantes :=
    fold_left (fun suma t => suma + tiempo t) (T estado) 0 in
  let tiempo_max :=
    fold_left (fun tiempo_max m => Z.max tiempo_max (tiempo_ocupado m)) (M estado) 0 in
  let suma_espacio_libre :=
    fold_left (fun suma m => Double.add suma (Double.de_int (tiempo_max - tiempo_ocupado m)))
              (M estado) Double.cero in
  let espacio_libre_promedio := Double.div suma_espacio_libre (Double.de_int M_) in
  let heuristica :=
    Double.sub (Double.div (Double.de_int suma_t_restantes) (Double.de_int M_))
               espacio_libre_promedio in
  let heuristica :=
    if Double.ltb heuristica (Double.de_int 0) then Double.de_int 0 else heuristica in
  static_cast_int (Double.round heuristica).

(** ** Generar sucesores *)

Definition generarSucesores (estado : Estado) : list Estado :=
  fold_left
    (fun sucesores tarea =>
       fold_left
         (fun sucesores maquina =>
            sucesores ++ [asignarTarea estado (Tarea_id tarea) (Maquina_id maquina)])
         (M estado) sucesores)
    (T estado) [].

(** ** Nodos y cola de prioridad *)

Record Nodo : Type := mkNodo {
  estado : Estado;
  g_cost : Z;
  f_cost : Z
}.

(** [Nodo::operator>], the comparison handed to [std::greater<Nodo>]. *)
Definition Nodo_gt (a b : Nodo) : bool := f_cost b <? f_cost a.

(** The operations of
    [std::priority_queue<Nodo, std::vector<Nodo>, std::greater<Nodo>>].
    [contenido] is the multiset of nodes held; [cola_top] is [None] on an
    empty queue, where [top()] has no defined result. *)
Class ColaPrioridad : Type := {
  Cola : Type;
  contenido : Cola -> list Nodo;
  cola_nueva : Cola;
  cola_push : Nodo -> Cola -> Cola;
  cola_empty : Cola -> bool;
  cola_top : Cola -> option Nodo;
  cola_pop : Cola -> Cola
}.

(** ** Lista cerrada: [std::map<Estado, int>] *)

Definition closed_list : Type := list (Estado * Z).

(** Two keys are the same key of the map when neither is less than the other. *)
Definition equivalentes (a b : Estado) : bool :=
  negb (Estado_lt a b) && negb (Estado_lt b a).

(** [closed_list.find(k)]: [None] is [closed_list.end()]. *)
Fixpoint map_find (c : closed_list) (k : Estado) : option Z :=
  match c with
  | [] => None
  | (k', v) :: c' => if equivalentes k' k then Some v else map_find c' k
  end.

(** [closed_list[k] = v]. *)
Fixpoint map_asignar (c : closed_list) (k : Estado) (v : Z) : closed_list :=
  match c with
  | [] => [(k, v)]
  | (k', v') :: c' =>
      if equivalentes k' k then (k', v) :: c' else (k', v') :: map_asignar c' k v
  end.

(** ** Algoritmo de búsqueda: A* *)

Section Busqueda.
Context `{Plataforma} `{ColaPrioridad}.

(** The node pushed for a state: [{e, g, g + h}], the sum being taken on
    [Z]. *)
Definition nodo_de (e : Estado) : Nodo :=
  let g := calcularCoste e in
  let h := calcularHeuristica2 e in
  {| estado := e; g_cost := g; f_cost := g + h |}.

Definition encolar_sucesores (cola : Cola) (sucesores : list Estado) : Cola :=
  fold_left (fun cola sucesor => cola_push (nodo_de sucesor) cola) sucesores cola.

(** The [while (!cola.empty())] loop; [combustible] bounds the number of
    iterations, and [None] means that it ran out. *)
Fixpoint A_estrella_bucle (combustible : nat) (cola : Cola) (closed : closed_list)
         (estado_inicial : Estado) : option Estado :=
  match combustible with
  | O => None
  | S combustible' =>
      if cola_empty cola then Some estado_inicial
      else
        match cola_top cola with
        | None => None
        | Some actual =>
            let cola := cola_pop cola in
            match T (estado actual) with
            | [] => Some (estado actual)
            | _ :: _ =>
                let expandir :=
                  match map_find closed (estado actual) with
                  | None => true
                  | Some g_closed => g_cost actual <? g_closed
                  end in
                if expandir then
                  let closed := map_asignar closed (estado actual) (g_cost actual) in
                  let cola := encolar_sucesores cola (generarSucesores (estado actual)) in
                  A_estrella_bucle combustible' cola closed estado_inicial
                else
                  A_estrella_bucle combustible' cola closed estado_inicial
            end
        end
  end.

Definition A_estrella (combustible : nat) (estado_inicial : Estado) : option Estado :=
  A_estrella_bucle combustible (cola_push (nodo_de estado_inicial) cola_nueva) []
                   estado_inicial.

End Busqueda.

(** ** Programa principal: the initial state *)

(** The state that [main] builds: machines [1..N] with no load, tasks
    [1..] with the durations [tiempos] in their order, no assignment. *)
Definition maquinas_iniciales (N : nat) : list Maquina :=
  map (fun i => {| Maquina_id := Z.of_nat i; tiempo_ocupado := 0 |}) (seq 1 N).

Fixpoint tareas_desde (i : Z) (tiempos : list Z) : list Tarea :=
  match tiempos with
  | [] => []
  | d :: resto => {| Tarea_id := i + 1; tiempo := d |} :: tareas_desde (i + 1) resto
  end.

Definition estado_de_main (N : nat) (tiempos : list Z) : Estado :=
  {| M := maquinas_iniciales N; T := tareas_desde 0 tiempos; Asignaciones := [] |}.

(** * Notions used to state the properties *)

(** ** Laws of a priority queue *)

(** What [std::priority_queue] promises: [push] adds a node, [empty] tells
    whether a node is held, [top] is a held node that no held node precedes
    in the order of [std::greater<Nodo>], and [pop] removes it. *)
Class ColaLegal (Q : ColaPrioridad) : Prop := {
  contenido_nueva : contenido cola_nueva = [];
  contenido_push : forall n q, Permutation (contenido (cola_push n q)) (n :: contenido q);
  cola_empty_spec : forall q, cola_empty q = true <-> contenido q = [];
  cola_top_some : forall q, cola_empty q = false -> exists n, cola_top q = Some n;
  cola_top_spec : forall q n, cola_top q = Some n ->
      In n (contenido q) /\ forall m, In m (contenido q) -> Nodo_gt n m = false;
  cola_pop_spec : forall q n, cola_top q = Some n ->
      Permutation (contenido q) (n :: contenido (cola_pop q))
}.

(** ** A priority queue: a list scanned for its first node of least [f_cost] *)

Module ColaLista.

(** Least [f_cost] among [f] and those of the nodes of [q]. *)
Fixpoint f_minimo (f : Z) (q : list Nodo) : Z :=
  match q with
  | [] => f
  | m :: q' => f_minimo (Z.min f (f_cost m)) q'
  end.

Definition top (q : list Nodo) : option Nodo :=
  match q with
  | [] => None
  | n :: q' => find (fun m => f_cost m =? f_minimo (f_cost n) q') q
  end.

(** Removes the first node whose [f_cost] is [f]. *)
Fixpoint quitar (f : Z) (q : list Nodo) : list Nodo :=
  match q with
  | [] => []
  | m :: q' => if f_cost m =? f then q' else m :: quitar f q'
  end.

Definition pop (q : list Nodo) : list Nodo :=
  match top q with
  | None => q
  | Some n => quitar (f_cost n) q
  end.

Definition empty (q : list Nodo) : bool :=
  match q with [] => true | _ => false end.

Definition cola : ColaPrioridad :=
  {| Cola := list Nodo;
     contenido := fun q => q;
     cola_nueva := [];
     cola_push := cons;
     cola_empty := empty;
     cola_top := top;
     cola_pop := pop |}.

End ColaLista.

(** A platform on which an undefined conversion to [int] yields [INT_MIN]. *)
Definition plataforma_int_min : Plataforma :=
  {| conversion_indefinida := Double.INT_MIN |}.

(** ** States the search can visit *)

(** [alcanzable inicial e]: [e] is obtained from [inicial] by a chain of
    successor generations, which is how every state enters the frontier. *)
Inductive alcanzable (inicial : Estado) : Estado -> Prop :=
| alcanzable_inicial : alcanzable inicial inicial
| alcanzable_sucesor : forall e e',
    alcanzable inicial e -> In e' (generarSucesores e) -> alcanzable inicial e'.

(** The states [k] successor generations away from [inicial], and all the
    reachable states: a generation removes one pending task, so there are
    at most as many generations as tasks. *)
Fixpoint nivel (inicial : Estado) (k : nat) : list Estado :=
  match k with
  | O => [inicial]
  | S k' => flat_map generarSucesores (nivel inicial k')
  end.

Definition todos_alcanzables (inicial : Estado) : list Estado :=
  flat_map (nivel inicial) (seq 0 (S (length (T inicial)))).

(** ** Tasks and loads recorded in a history *)

(** The ids of the pending tasks followed by those of the assigned ones. *)
Definition ids_repartidos (e : Estado) : list Z :=
  map Tarea_id (T e) ++ map tarea_id (Asignaciones e).

(** Duration of the task [t] in the task list the search started from. *)
Definition duracion (inicial : Estado) (t : Z) : Z :=
  match find (fun x => Tarea_id x =? t) (T inicial) with
  | Some x => tiempo x
  | None => 0
  end.

(** Sum of the durations of the tasks that the history [h] gives to machine [m]. *)
Definition carga_asignada (inicial : Estado) (h : list Asignacion) (m : Z) : Z :=
  fold_right Z.add 0
    (map (fun a => duracion inicial (tarea_id a))
         (filter (fun a => maquina_id a =? m) h)).

(** What a reachable state inherits from an initial state whose ids are
    unique, whose machines are idle and whose history is empty. *)
Record coherente (inicial e : Estado) : Prop := {
  coh_maquinas : map Maquina_id (M e) = map Maquina_id (M inicial);
  coh_pendientes : incl (T e) (T inicial);
  coh_pendientes_unicos : NoDup (map Tarea_id (T e));
  coh_cargas : forall m, In m (M e) ->
      tiempo_ocupado m = carga_asignada inicial (Asignaciones e) (Maquina_id m)
}.

(** ** The heuristic in the words of its description *)

(** [R]: total duration of the pending tasks. *)
Definition carga_restante (e : Estado) : Z :=
  fold_right Z.add 0 (map tiempo (T e)).

(** [S]: the sum over the machines of [C - busyTime], where
    [C = calcularCoste e] is the current makespan. *)
Definition holgura_total (e : Estado) : Z :=
  fold_right Z.add 0 (map (fun m => calcularCoste e - tiempo_ocupado m) (M e)).

(** [averageRemainingLoad - averageSlack], with [averageSlack = S / M] and
    [averageRemainingLoad = R / M]; the two quotients and the difference
    are operations on [double]. *)
Definition exceso_promedio (e : Estado) : Double.t :=
  let M_ := Double.de_int (Z.of_nat (length (M e))) in
  let averageSlack := Double.div (Double.de_int (holgura_total e)) M_ in
  let averageRemainingLoad := Double.div (Double.de_int (carga_restante e)) M_ in
  Double.sub averageRemainingLoad averageSlack.

(** [por2 m k] is [m * 2^k], the mantissa [m] followed by [k] zero bits. *)
Definition por2 (m : positive) (k : nat) : positive := Nat.iter k xO m.

(** ** Keys of the closed list *)

(** What [Estado::operator<] looks at: the ids of the pending tasks, in
    order, and the machines. *)
Definition clave (e : Estado) : list Z * list Maquina :=
  (map Tarea_id (T e), M e).

(** [en_cerrada c k]: [c.find(k) != c.end()]. *)
Definition en_cerrada (c : closed_list) (k : Estado) : Prop := map_find c k <> None.

(** ** A measure of the frontier *)

(** An upper bound of the number of nodes that a node with [k] pending
    tasks can bring into the frontier, itself included, with [m] machines. *)
Fixpoint peso (m k : nat) : nat :=
  match k with
  | O => 1
  | S k' => 1 + (S k' * m) * peso m k'
  end.

Definition potencial (m : nat) (l : list Nodo) : nat :=
  list_sum (map (fun n => peso m (length (T (estado n)))) l).

(** ** Promising states *)

(** [alcanza_meta cota k e]: within [k] generations [e] leads to a state
    without pending tasks whose cost is at most [cota]. *)
Fixpoint alcanza_meta (cota : Z) (k : nat) (e : Estado) : bool :=
  match T e with
  | [] => calcularCoste e <=? cota
  | _ :: _ =>
      match k with
      | O => false
      | S k' => existsb (alcanza_meta cota k') (generarSucesores e)
      end
  end.

Definition prometedor (cota : Z) (e : Estado) : bool :=
  alcanza_meta cota (length (T e)) e.

(** ** Invariant of the search loop *)

Section Invariante.
Context `{Plataforma} `{ColaPrioridad}.
Variable inicial : Estado.
Variable bueno : Estado -> bool.

(** Every node of the frontier holds a reachable state together with its
    own costs. *)
Definition frontera_alcanzable (q : Cola) : Prop :=
  forall n, In n (contenido q) ->
            alcanzable inicial (estado n) /\ n = nodo_de (estado n).

(** A node marked by [bueno] with fewer than [d] pending tasks waits in
    the frontier, and it is a goal or has not been expanded. *)
Definition testigo (q : Cola) (closed : closed_list) (d : nat) : Prop :=
  exists n, In n (contenido q) /\ bueno (estado n) = true
            /\ (length (T (estado n)) < d)%nat
            /\ (T (estado n) = [] \/ map_find closed (estado n) = None).

Record inv (q : Cola) (closed : closed_list) : Prop := {
  inv_frontera : frontera_alcanzable q;
  inv_cerrada : forall k v, In (k, v) closed -> alcanzable inicial k;
  inv_testigo : testigo q closed (S (length (T inicial)));
  inv_cerrados : forall k v, In (k, v) closed -> bueno k = true ->
                             testigo q closed (length (T k))
}.

End Invariante.

(** ** Values of type [int]

    The sums of the program are sums of [int]s.  A statement about such a
    sum says for which states it stays within the range of [int], where
    the sum on [Z] is the one that the program computes. *)

Definition es_int (z : Z) : Prop := Double.INT_MIN <= z <= Double.INT_MAX.

(** The load that [asignarTarea estado t m] writes,
    [maquina.tiempo_ocupado += tarea.tiempo], is within [int]. *)
Definition suma_en_rango (estado : Estado) (t m : Z) : Prop :=
  forall tarea maquina,
    In tarea (T estado) -> In maquina (M estado) ->
    Tarea_id tarea = t -> Maquina_id maquina = m ->
    es_int (tiempo_ocupado maquina + tiempo tarea).

(** The sum of the absolute values, which bounds the sum of any of the
    elements. *)
Definition suma_absoluta (l : list Z) : Z := fold_right Z.add 0 (map Z.abs l).

(** ** Example states *)

(** A state with everything assigned: task 1, of duration 4, on machine 1. *)
Definition ejemplo_resuelto : Estado :=
  {| M := [ {| Maquina_id := 1; tiempo_ocupado := 4 |} ];
     T := [];
     Asignaciones := [ {| tarea_id := 1; maquina_id := 1; posicion := 0 |} ] |}.

(** ** Reference scenario A *)

Definition inicial_A : Estado := estado_de_main 2 [5; 5; 3].

(** On a state of scenario A: a promising node has [f_cost] at most 8, and
    a goal whose node has [f_cost] at most 8 costs exactly 8. *)
Definition revisado_A `{Plataforma} (e : Estado) : bool :=
  implb (prometedor 8 e) (f_cost (nodo_de e) <=? 8)
  && implb (match T e with [] => f_cost (nodo_de e) <=? 8 | _ => false end)
           (calcularCoste e =? 8).

(** * More of the program *)

(** ** Programa principal: the report *)

(** A [std::map<int, std::vector<int>>] read and written through
    [operator[]]: a key that was never written holds the empty vector. *)
Definition mapa_vectores : Type := Z -> list Z.

Definition mapa_vacio : mapa_vectores := fun _ => [].

(** [mapa[k].push_back(v)]. *)
Definition push_back_en (mapa : mapa_vectores) (k v : Z) : mapa_vectores :=
  fun k' => if k' =? k then mapa k' ++ [v] else mapa k'.

(** [tiempos[i]] for an [int] index: [None] outside the vector, where the
    access has no defined result. *)
Definition indexar (tiempos : list Z) (i : Z) : option Z :=
  if i <? 0 then None else nth_error tiempos (Z.to_nat i).

(** The loop of [main] that groups the assignments of the solution by
    machine: the task ids in [tareas_por_maquina], their durations, read
    from [tiempos], in [tiempos_por_maquina]. *)
Definition agrupar_por_maquina (tiempos : list Z) (asignaciones : list Asignacion)
  : option (mapa_vectores * mapa_vectores) :=
  fold_left
    (fun acc a =>
       match acc with
       | None => None
       | Some (tareas_por_maquina, tiempos_por_maquina) =>
           match indexar tiempos (tarea_id a - 1) with
           | None => None
           | Some tiempo =>
               Some (push_back_en tareas_por_maquina (maquina_id a) (tarea_id a),
                     push_back_en tiempos_por_maquina (maquina_id a) tiempo)
           end
       end)
    asignaciones (Some (mapa_vacio, mapa_vacio)).

(** * More notions *)

(** Total load of the machines. *)
Definition suma_cargas (e : Estado) : Z :=
  fold_right Z.add 0 (map tiempo_ocupado (M e)).

(** The machine [maq] after [d] more units of work go to the machine id [m]. *)
Definition cargar (m d : Z) (maq : Maquina) : Maquina :=
  if Maquina_id maq =? m
  then {| Maquina_id := Maquina_id maq; tiempo_ocupado := tiempo_ocupado maq + d |}
  else maq.

(** The largest [f_cost] among the nodes of the reachable states. *)
Definition mayor_f `{Plataforma} (inicial : Estado) : Z :=
  fold_right Z.max 0 (map (fun e => f_cost (nodo_de e)) (todos_alcanzables inicial)).

(** ** The search without the comparison of costs

    The loop of [A_estrella] with one change: a popped state is expanded
    exactly when the closed list does not hold its key, and the recorded
    cost is not looked at. *)
Section Busqueda_sin_reabrir.
Context `{Plataforma} `{ColaPrioridad}.

Fixpoint A_estrella_bucle_sin_reabrir (combustible : nat) (cola : Cola)
         (closed : closed_list) (estado_inicial : Estado) : option Estado :=
  match combustible with
  | O => None
  | S combustible' =>
      if cola_empty cola then Some estado_inicial
      else
        match cola_top cola with
        | None => None
        | Some actual =>
            let cola := cola_pop cola in
            match T (estado actual) with
            | [] => Some (estado actual)
            | _ :: _ =>
                match map_find closed (estado actual) with
                | None =>
                    let closed := map_asignar closed (estado actual) (g_cost actual) in
                    let cola := encolar_sucesores cola (generarSucesores (estado actual)) in
                    A_estrella_bucle_sin_reabrir combustible' cola closed estado_inicial
                | Some _ =>
                    A_estrella_bucle_sin_reabrir combustible' cola closed estado_inicial
                end
            end
        end
  end.

Definition A_estrella_sin_reabrir (combustible : nat) (estado_inicial : Estado)
  : option Estado :=
  A_estrella_bucle_sin_reabrir combustible
    (cola_push (nodo_de estado_inicial) cola_nueva) [] estado_inicial.

End Busqueda_sin_reabrir.

(** Every entry of the closed list records the cost of its key, and every
    node of the frontier carries the cost of its state. *)
Definition cerrada_exacta (closed : closed_list) : Prop :=
  forall k v, In (k, v) closed -> v = calcularCoste k.

Definition frontera_con_coste `{ColaPrioridad} (q : Cola) : Prop :=
  forall n, In n (contenido q) -> g_cost n = calcularCoste (estado n).

(** ** The value of a [double]

    The numbers that the operations on [double] stand for, as rationals:
    they are what the bounds on the rounding errors speak about. *)

(** The exponent of the format for a number whose leading bit has the
    given position. *)
Definition fexp64 : Z -> Z := fexp Double.prec Double.emax.

Module Valor.
Import QArith Qpower Qround.
Local Open Scope Q_scope.

(** [2^e], for an exponent of either sign. *)
Definition dos (e : Z) : Q := 2 ^ e.

(** [m * 2^e]. *)
Definition valor (m e : Z) : Q := inject_Z m * dos e.

(** [encierra mrs e x]: the mantissa, round bit and sticky bit of [mrs],
    at exponent [e], locate the number [x]: on [m * 2^e], below, at or
    above the midpoint to [(m + 1) * 2^e]. *)
Definition encierra (mrs : shr_record) (e : Z) (x : Q) : Prop :=
  match shr_r mrs, shr_s mrs with
  | false, false => x == valor (shr_m mrs) e
  | false, true => valor (shr_m mrs) e < x /\ x < valor (shr_m mrs) e + (1 # 2) * dos e
  | true, false => x == valor (shr_m mrs) e + (1 # 2) * dos e
  | true, true => valor (shr_m mrs) e + (1 # 2) * dos e < x /\ x < valor (shr_m mrs) e + dos e
  end.

(** The magnitude of a finite number, 0 for the others. *)
Definition magnitud (x : spec_float) : Q :=
  match x with
  | S754_finite _ m e => valor (Z.pos m) e
  | _ => 0
  end.

(** [bajo r d]: the number [r] is a zero, or negative, or below [d + 1/2]. *)
Definition bajo (r : spec_float) (d : Z) : Prop :=
  match r with
  | S754_zero _ => True
  | S754_infinity s => s = true
  | S754_nan => False
  | S754_finite s m e => s = true \/ valor (Z.pos m) e < inject_Z d + (1 # 2)
  end.

(** [round] on an exact number: the nearest integer, halfway cases away
    from zero. *)
Definition redondear (x : Q) : Z :=
  if Qle_bool 0 x then Qfloor (x + (1 # 2)) else Qceiling (x - (1 # 2)).

(** The heuristic as its description reads in exact arithmetic:
    [h = max(0, round(averageRemainingLoad - averageSlack))], with
    [averageSlack = S / M] and [averageRemainingLoad = R / M]. *)
Definition heuristica_exacta (e : Estado) : Z :=
  let M_ := inject_Z (Z.of_nat (length (M e))) in
  let averageSlack := inject_Z (holgura_total e) / M_ in
  let averageRemainingLoad := inject_Z (carga_restante e) / M_ in
  Z.max 0 (redondear (averageRemainingLoad - averageSlack)).

End Valor.

(** Six machines, task 1 of duration 1 on machine 1, task 2 of duration 8
    pending: [R = 8], [S = 5], and [(R - S) / 6] is one half. *)
Definition ejemplo_empate : Estado := asignarTarea (estado_de_main 6 [1; 8]) 1 1.

(** ** Schedules *)

(** A schedule given as the list of the machine ids chosen for the tasks
    [1..n], in their order, and what it puts on machine [j]. *)
Definition carga_de_reparto (tiempos reparto : list Z) (j : Z) : Z :=
  fold_right Z.add 0 (map fst (filter (fun p => snd p =? j) (combine tiempos reparto))).

Definition makespan_de_reparto (N : nat) (tiempos reparto : list Z) : Z :=
  fold_right Z.max 0
    (map (carga_de_reparto tiempos reparto) (map Z.of_nat (seq 1 N))).

(** The history that assigns the tasks [i+1, i+2, ...] to the machines of
    [reparto]. *)
Fixpoint historia_de_reparto (i : Z) (reparto : list Z) : list Asignacion :=
  match reparto with
  | [] => []
  | j :: resto =>
      {| tarea_id := i + 1; maquina_id := j; posicion := 0 |}
      :: historia_de_reparto (i + 1) resto
  end.

(** * Properties *)

(** ** Vectors: [find_if], [erase], [modificar] *)

Lemma find_if_casos {A : Type} (p : A -> bool) (v : list A) :
  (exists v1 a v2, v = v1 ++ a :: v2 /\ p a = true
                   /\ Forall (fun b => p b = false) v1
                   /\ find_if p v = length v1)
  \/ (Forall (fun b => p b = false) v /\ find_if p v = length v).
Proof.
  induction v as [|x v IH]; simpl.
  - right. split; [constructor | reflexivity].
  - destruct (p x) eqn:Hx.
    + left. exists [], x, v. repeat split; auto.
    + destruct IH as [(v1 & a & v2 & -> & Ha & Hv1 & Hi) | [Hall Hi]].
      * left. exists (x :: v1), a, v2. simpl. rewrite Hi. repeat split; auto.
      * right. split; [constructor; assumption | now rewrite Hi].
Qed.

Lemma nth_error_medio {A : Type} (v1 : list A) a v2 :
  nth_error (v1 ++ a :: v2) (length v1) = Some a.
Proof. induction v1; simpl; auto. Qed.

Lemma nth_error_final {A : Type} (v : list A) : nth_error v (length v) = None.
Proof. induction v; simpl; auto. Qed.

Lemma erase_medio {A : Type} (v1 : list A) a v2 :
  erase (v1 ++ a :: v2) (length v1) = v1 ++ v2.
Proof. induction v1; simpl; congruence. Qed.

Lemma modificar_medio {A : Type} (f : A -> A) (v1 : list A) a v2 :
  modificar f (v1 ++ a :: v2) (length v1) = v1 ++ f a :: v2.
Proof. induction v1; simpl; congruence. Qed.

Lemma ninguno_id {A : Type} (id : A -> Z) (x : Z) (v : list A) :
  Forall (fun b => (id b =? x) = false) v <-> ~ In x (map id v).
Proof.
  induction v as [|a v IH]; simpl.
  - split; [tauto | constructor].
  - split.
    + intros Hall [Heq | Hin]; inversion Hall; subst.
      * rewrite Z.eqb_refl in *. discriminate.
      * tauto.
    + intros Hno. constructor.
      * apply Z.eqb_neq. tauto.
      * apply IH. tauto.
Qed.

(** ** The transition [asignarTarea] *)

(** The shape of the result when both ids are found. *)
Lemma asignarTarea_forma (estado : Estado) (t m : Z) :
  In t (map Tarea_id (T estado)) ->
  In m (map Maquina_id (M estado)) ->
  exists T1 tarea T2 M1 maquina M2,
    T estado = T1 ++ tarea :: T2
    /\ Tarea_id tarea = t /\ ~ In t (map Tarea_id T1)
    /\ M estado = M1 ++ maquina :: M2
    /\ Maquina_id maquina = m /\ ~ In m (map Maquina_id M1)
    /\ asignarTarea estado t m =
       {| M := M1 ++ {| Maquina_id := m;
                        tiempo_ocupado := tiempo_ocupado maquina + tiempo tarea |} :: M2;
          T := T1 ++ T2;
          Asignaciones := Asignaciones estado
                          ++ [ {| tarea_id := t; maquina_id := m; posicion := 0 |} ] |}.
Proof.
  intros Ht Hm. unfold asignarTarea.
  destruct (find_if_casos (fun x => Tarea_id x =? t) (T estado))
    as [(T1 & tarea & T2 & HT & Hta & HT1 & Hit) | [Hall _]].
  2:{ apply ninguno_id in Hall. contradiction. }
  destruct (find_if_casos (fun x => Maquina_id x =? m) (M estado))
    as [(M1 & maquina & M2 & HM & Hma & HM1 & Him) | [Hall _]].
  2:{ apply ninguno_id in Hall. contradiction. }
  apply Z.eqb_eq in Hta, Hma. apply ninguno_id in HT1, HM1.
  exists T1, tarea, T2, M1, maquina, M2.
  rewrite Hit, Him, HT, HM.
  rewrite !nth_error_medio, erase_medio, modificar_medio. simpl.
  subst t m. repeat split; auto.
Qed.

(** C4.  For a task id [t] among the pending tasks and a machine id [m]
    among the machines, the new load being within [int],
    [asignarTarea estado t m] is the state in which the (first) pending
    task of id [t] is removed, the record [(t, m)] is appended to the
    history, and the (first) machine of id [m] has its [tiempo_ocupado]
    increased by the duration of that task, every other machine and
    pending task staying as it was.  The result is a function of the three
    arguments alone, and [estado] itself is a value that the function
    cannot change. *)
Theorem asignarTarea_asigna (estado : Estado) (t m : Z) :
  In t (map Tarea_id (T estado)) ->
  In m (map Maquina_id (M estado)) ->
  suma_en_rango estado t m ->
  exists T1 tarea T2 M1 maquina M2,
    T estado = T1 ++ tarea :: T2
    /\ Tarea_id tarea = t /\ ~ In t (map Tarea_id T1)
    /\ M estado = M1 ++ maquina :: M2
    /\ Maquina_id maquina = m /\ ~ In m (map Maquina_id M1)
    /\ T (asignarTarea estado t m) = T1 ++ T2
    /\ Asignaciones (asignarTarea estado t m)
       = Asignaciones estado ++ [ {| tarea_id := t; maquina_id := m; posicion := 0 |} ]
    /\ M (asignarTarea estado t m)
       = M1 ++ {| Maquina_id := m;
                  tiempo_ocupado := tiempo_ocupado maquina + tiempo tarea |} :: M2
    /\ es_int (tiempo_ocupado maquina + tiempo tarea).
Proof.
  intros Ht Hm Hrango.
  destruct (asignarTarea_forma estado t m Ht Hm)
    as (T1 & tarea & T2 & M1 & maquina & M2 & HT & Hit & HT1 & HM & Him & HM1 & Heq).
  exists T1, tarea, T2, M1, maquina, M2. rewrite Heq. simpl. repeat split; auto;
    apply (Hrango tarea maquina); auto.
  - rewrite HT. apply in_or_app. right. now left.
  - rewrite HM. apply in_or_app. right. now left.
  - rewrite HT. apply in_or_app. right. now left.
  - rewrite HM. apply in_or_app. right. now left.
Qed.

Lemma asignarTarea_asigna_testigo :
  In 3 (map Tarea_id (T (estado_de_main 2 [5; 5; 3])))
  /\ In 2 (map Maquina_id (M (estado_de_main 2 [5; 5; 3])))
  /\ suma_en_rango (estado_de_main 2 [5; 5; 3]) 3 2
  /\ exists T1 tarea T2 M1 maquina M2,
      T (estado_de_main 2 [5; 5; 3]) = T1 ++ tarea :: T2
      /\ Tarea_id tarea = 3 /\ ~ In 3 (map Tarea_id T1)
      /\ M (estado_de_main 2 [5; 5; 3]) = M1 ++ maquina :: M2
      /\ Maquina_id maquina = 2 /\ ~ In 2 (map Maquina_id M1)
      /\ T (asignarTarea (estado_de_main 2 [5; 5; 3]) 3 2) = T1 ++ T2
      /\ Asignaciones (asignarTarea (estado_de_main 2 [5; 5; 3]) 3 2)
         = Asignaciones (estado_de_main 2 [5; 5; 3])
           ++ [ {| tarea_id := 3; maquina_id := 2; posicion := 0 |} ]
      /\ M (asignarTarea (estado_de_main 2 [5; 5; 3]) 3 2)
         = M1 ++ {| Maquina_id := 2;
                    tiempo_ocupado := tiempo_ocupado maquina + tiempo tarea |} :: M2
      /\ es_int (tiempo_ocupado maquina + tiempo tarea).
Proof.
  assert (Ht : In 3 (map Tarea_id (T (estado_de_main 2 [5; 5; 3])))).
  { simpl. auto. }
  assert (Hm : In 2 (map Maquina_id (M (estado_de_main 2 [5; 5; 3])))).
  { simpl. auto. }
  assert (Hr : suma_en_rango (estado_de_main 2 [5; 5; 3]) 3 2).
  { intros tarea maquina [<- | [<- | [<- | []]]] [<- | [<- | []]] _ _;
      unfold es_int, Double.INT_MIN, Double.INT_MAX; simpl; lia. }
  split; [exact Ht | split; [exact Hm | split; [exact Hr |]]].
  exact (asignarTarea_asigna (estado_de_main 2 [5; 5; 3]) 3 2 Ht Hm Hr).
Defined.

(** The transition on the initial state of scenario A, task 3 to machine 2. *)
Example asignarTarea_ejemplo :
  asignarTarea (estado_de_main 2 [5; 5; 3]) 3 2
  = {| M := [ {| Maquina_id := 1; tiempo_ocupado := 0 |};
              {| Maquina_id := 2; tiempo_ocupado := 3 |} ];
       T := [ {| Tarea_id := 1; tiempo := 5 |}; {| Tarea_id := 2; tiempo := 5 |} ];
       Asignaciones := [ {| tarea_id := 3; maquina_id := 2; posicion := 0 |} ] |}.
Proof. reflexivity. Qed.

(** C2, as the code has it.  When the task id is not among the pending
    tasks, or the machine id is not among the machines, [asignarTarea]
    returns the input state unchanged: [find_if] stops at [end()] and the
    guard returns the copy.  The result type is [Estado], so no error is
    signalled. *)
Theorem asignarTarea_referencia_invalida (estado : Estado) (t m : Z) :
  ~ In t (map Tarea_id (T estado)) \/ ~ In m (map Maquina_id (M estado)) ->
  asignarTarea estado t m = estado.
Proof.
  intros Hno. unfold asignarTarea.
  destruct (find_if_casos (fun x => Tarea_id x =? t) (T estado))
    as [(T1 & tarea & T2 & HT & Hta & HT1 & Hit) | [Hall Hit]].
  2:{ now rewrite Hit, nth_error_final. }
  rewrite Hit, HT, nth_error_medio.
  destruct (find_if_casos (fun x => Maquina_id x =? m) (M estado))
    as [(M1 & maquina & M2 & HM & Hma & HM1 & Him) | [Hall Him]].
  2:{ now rewrite Him, nth_error_final. }
  exfalso. apply Z.eqb_eq in Hta, Hma. destruct Hno as [Hno | Hno]; apply Hno.
  - rewrite HT, map_app. apply in_or_app. right. left. assumption.
  - rewrite HM, map_app. apply in_or_app. right. left. assumption.
Qed.

Lemma asignarTarea_referencia_invalida_testigo :
  (~ In 4 (map Tarea_id (T (estado_de_main 2 [5; 5; 3])))
   \/ ~ In 1 (map Maquina_id (M (estado_de_main 2 [5; 5; 3]))))
  /\ asignarTarea (estado_de_main 2 [5; 5; 3]) 4 1 = estado_de_main 2 [5; 5; 3].
Proof.
  assert (Hno : ~ In 4 (map Tarea_id (T (estado_de_main 2 [5; 5; 3])))
                \/ ~ In 1 (map Maquina_id (M (estado_de_main 2 [5; 5; 3])))).
  { left. simpl. intros [Hx | [Hx | [Hx | []]]]; discriminate. }
  split; [exact Hno |].
  exact (asignarTarea_referencia_invalida (estado_de_main 2 [5; 5; 3]) 4 1 Hno).
Defined.

(** C2, as stated, fails: task 4 is not pending in the initial state of
    scenario A, machine 7 does not exist, and both requests are answered
    with the unmodified input state. *)
Lemma asignarTarea_sin_error :
  ~ In 4 (map Tarea_id (T (estado_de_main 2 [5; 5; 3])))
  /\ asignarTarea (estado_de_main 2 [5; 5; 3]) 4 1 = estado_de_main 2 [5; 5; 3]
  /\ ~ In 7 (map Maquina_id (M (estado_de_main 2 [5; 5; 3])))
  /\ asignarTarea (estado_de_main 2 [5; 5; 3]) 1 7 = estado_de_main 2 [5; 5; 3].
Proof.
  repeat split.
  - simpl. intros [Hx | [Hx | [Hx | []]]]; discriminate.
  - simpl. intros [Hx | [Hx | []]]; discriminate.
Qed.

(** ** The cost [calcularCoste] *)

Lemma mayor_desde (v : list Maquina) (x : Z) : x <= fold_left mayor v x.
Proof.
  revert x. induction v as [|a v IH]; intros x; simpl; [lia|].
  specialize (IH (mayor x a)). unfold mayor in *. lia.
Qed.

Lemma mayor_creciente (v : list Maquina) (x y : Z) :
  x <= y -> fold_left mayor v x <= fold_left mayor v y.
Proof.
  revert x y. induction v as [|a v IH]; intros x y Hxy; simpl; [lia|].
  apply IH. unfold mayor. lia.
Qed.

Lemma mayor_miembro (v : list Maquina) (x : Z) (m : Maquina) :
  In m v -> tiempo_ocupado m <= fold_left mayor v x.
Proof.
  revert x. induction v as [|a v IH]; intros x Hin; simpl; [contradiction|].
  destruct Hin as [-> | Hin].
  - pose proof (mayor_desde v (mayor x m)). unfold mayor in *. lia.
  - now apply IH.
Qed.

(** The cost is the largest load, and 0 when there is no machine. *)
Lemma calcularCoste_no_negativo (e : Estado) : 0 <= calcularCoste e.
Proof. apply mayor_desde. Qed.

Lemma calcularCoste_miembro (e : Estado) (m : Maquina) :
  In m (M e) -> tiempo_ocupado m <= calcularCoste e.
Proof. apply mayor_miembro. Qed.

(** Raising one load does not lower the largest load. *)
Lemma coste_tras_modificar (f : Maquina -> Maquina) (v : list Maquina) (it : nat) (x : Z) :
  (forall m, tiempo_ocupado m <= tiempo_ocupado (f m)) ->
  fold_left mayor v x <= fold_left mayor (modificar f v it) x.
Proof.
  intros Hf. revert it x. induction v as [|a v IH]; intros it x; simpl.
  - destruct it; simpl; lia.
  - destruct it as [|it]; simpl.
    + apply mayor_creciente. unfold mayor. specialize (Hf a). lia.
    + apply IH.
Qed.

(** C6.  In a state whose pending tasks have durations that are not
    negative (the data model has them positive), one transition whose new
    load is within [int] never lowers the cost:
    [g (asignarTarea estado t m) >= g estado], for the pairs that the
    successor generator uses and for any other pair. *)
Theorem calcularCoste_monotono (estado : Estado) (t m : Z) :
  (forall x, In x (T estado) -> 0 <= tiempo x) ->
  suma_en_rango estado t m ->
  calcularCoste (asignarTarea estado t m) >= calcularCoste estado.
Proof.
  intros Hdur _. apply Z.le_ge. unfold asignarTarea.
  destruct (nth_error (T estado) (find_if (fun x => Tarea_id x =? t) (T estado)))
    as [tarea|] eqn:Htarea; [|lia].
  destruct (nth_error (M estado) (find_if (fun x => Maquina_id x =? m) (M estado)))
    as [maquina|]; [|lia].
  unfold calcularCoste. simpl. apply coste_tras_modificar.
  intros x. simpl. apply nth_error_In in Htarea. specialize (Hdur tarea Htarea). lia.
Qed.

Lemma calcularCoste_monotono_testigo :
  (forall x, In x (T (estado_de_main 2 [5; 5; 3])) -> 0 <= tiempo x)
  /\ suma_en_rango (estado_de_main 2 [5; 5; 3]) 1 2
  /\ calcularCoste (asignarTarea (estado_de_main 2 [5; 5; 3]) 1 2)
     >= calcularCoste (estado_de_main 2 [5; 5; 3]).
Proof.
  assert (Hdur : forall x, In x (T (estado_de_main 2 [5; 5; 3])) -> 0 <= tiempo x).
  { simpl. intros x [<- | [<- | [<- | []]]]; simpl; lia. }
  assert (Hr : suma_en_rango (estado_de_main 2 [5; 5; 3]) 1 2).
  { intros tarea maquina [<- | [<- | [<- | []]]] [<- | [<- | []]] _ _;
      unfold es_int, Double.INT_MIN, Double.INT_MAX; simpl; lia. }
  split; [exact Hdur | split; [exact Hr |]].
  exact (calcularCoste_monotono (estado_de_main 2 [5; 5; 3]) 1 2 Hdur Hr).
Defined.

(** With a task of negative duration, which the type [int] admits and the
    data model excludes, the cost does go down. *)
Example calcularCoste_duracion_negativa :
  let e := {| M := [ {| Maquina_id := 1; tiempo_ocupado := 5 |} ];
              T := [ {| Tarea_id := 1; tiempo := -3 |} ];
              Asignaciones := [] |} in
  calcularCoste e = 5 /\ calcularCoste (asignarTarea e 1 1) = 2.
Proof. split; reflexivity. Qed.

(** ** The successor generator *)

Lemma push_back_todos {A B : Type} (f : A -> B) (v : list A) (acc : list B) :
  fold_left (fun acc a => acc ++ [f a]) v acc = acc ++ map f v.
Proof.
  revert acc. induction v as [|a v IH]; intros acc; simpl.
  - now rewrite app_nil_r.
  - rewrite IH, <- app_assoc. reflexivity.
Qed.

Lemma bucles_anidados {A B C : Type} (f : A -> B -> C) (u : list A) (v : list B)
      (acc : list C) :
  fold_left (fun acc a => fold_left (fun acc b => acc ++ [f a b]) v acc) u acc
  = acc ++ map (fun p => f (fst p) (snd p)) (list_prod u v).
Proof.
  revert acc. induction u as [|a u IH]; intros acc; simpl.
  - now rewrite app_nil_r.
  - rewrite IH, push_back_todos, map_app, map_map, <- app_assoc. reflexivity.
Qed.

Lemma generarSucesores_producto (estado : Estado) :
  generarSucesores estado
  = map (fun p => asignarTarea estado (Tarea_id (fst p)) (Maquina_id (snd p)))
        (list_prod (T estado) (M estado)).
Proof.
  unfold generarSucesores.
  exact (bucles_anidados
           (fun tarea maquina => asignarTarea estado (Tarea_id tarea) (Maquina_id maquina))
           (T estado) (M estado) []).
Qed.

Lemma generarSucesores_length (estado : Estado) :
  length (generarSucesores estado) = (length (T estado) * length (M estado))%nat.
Proof. now rewrite generarSucesores_producto, length_map, length_prod. Qed.

(** C7.  The successors of a state are the results of the transition on
    the pairs of the Cartesian product of its pending tasks and its
    machines, one per pair and in the order of the product, so that their
    number is [|pendingTasks| * |machines|]. *)
Theorem generarSucesores_cartesiano (estado : Estado) :
  generarSucesores estado
  = map (fun p => asignarTarea estado (Tarea_id (fst p)) (Maquina_id (snd p)))
        (list_prod (T estado) (M estado))
  /\ length (generarSucesores estado) = (length (T estado) * length (M estado))%nat.
Proof.
  split; [apply generarSucesores_producto | apply generarSucesores_length].
Qed.

Lemma generarSucesores_In (estado e' : Estado) :
  In e' (generarSucesores estado) <->
  exists tarea maquina,
    In tarea (T estado) /\ In maquina (M estado)
    /\ e' = asignarTarea estado (Tarea_id tarea) (Maquina_id maquina).
Proof.
  rewrite generarSucesores_producto, in_map_iff. split.
  - intros ([tarea maquina] & <- & Hin). apply in_prod_iff in Hin.
    exists tarea, maquina. simpl. tauto.
  - intros (tarea & maquina & Ht & Hm & ->).
    exists (tarea, maquina). split; [reflexivity | now apply in_prod_iff].
Qed.

(** Every generated successor has one pending task less, the same machines
    but for one load, and one more assignment. *)
Lemma sucesor_forma (estado e' : Estado) :
  In e' (generarSucesores estado) ->
  exists T1 tarea T2 M1 maquina M2,
    T estado = T1 ++ tarea :: T2
    /\ ~ In (Tarea_id tarea) (map Tarea_id T1)
    /\ M estado = M1 ++ maquina :: M2
    /\ ~ In (Maquina_id maquina) (map Maquina_id M1)
    /\ e' = {| M := M1 ++ {| Maquina_id := Maquina_id maquina;
                             tiempo_ocupado := tiempo_ocupado maquina + tiempo tarea |} :: M2;
               T := T1 ++ T2;
               Asignaciones := Asignaciones estado
                               ++ [ {| tarea_id := Tarea_id tarea;
                                       maquina_id := Maquina_id maquina;
                                       posicion := 0 |} ] |}.
Proof.
  intros Hin. apply generarSucesores_In in Hin.
  destruct Hin as (ta & ma & Hta & Hma & ->).
  destruct (asignarTarea_forma estado (Tarea_id ta) (Maquina_id ma))
    as (T1 & tarea & T2 & M1 & maquina & M2 & HT & Hit & HT1 & HM & Him & HM1 & ->).
  { now apply in_map. }
  { now apply in_map. }
  exists T1, tarea, T2, M1, maquina, M2.
  rewrite Hit, Him. repeat split; auto.
Qed.

Lemma sucesor_pendientes (e e' : Estado) :
  In e' (generarSucesores e) -> S (length (T e')) = length (T e).
Proof.
  intros Hin.
  destruct (sucesor_forma e e' Hin) as (T1 & tarea & T2 & M1 & maquina & M2 & HT & _ & _ & _ & ->).
  simpl. rewrite HT, !length_app. simpl. lia.
Qed.

Lemma sucesor_maquinas (e e' : Estado) :
  In e' (generarSucesores e) -> length (M e') = length (M e).
Proof.
  intros Hin.
  destruct (sucesor_forma e e' Hin) as (T1 & tarea & T2 & M1 & maquina & M2 & _ & _ & HM & _ & ->).
  simpl. rewrite HM, !length_app. reflexivity.
Qed.

(** ** Invariants of the reachable states *)

Lemma conservacion_paso (e e' : Estado) :
  In e' (generarSucesores e) ->
  Permutation (ids_repartidos e') (ids_repartidos e).
Proof.
  intros Hin.
  destruct (sucesor_forma e e' Hin)
    as (T1 & tarea & T2 & M1 & maquina & M2 & HT & _ & _ & _ & ->).
  unfold ids_repartidos. simpl. rewrite HT, !map_app. simpl.
  rewrite <- !app_assoc. apply Permutation_app_head. simpl.
  rewrite app_assoc.
  apply Permutation_trans with (Tarea_id tarea :: map Tarea_id T2 ++ map tarea_id (Asignaciones e)).
  - apply Permutation_sym, Permutation_cons_append.
  - reflexivity.
Qed.

Lemma conservacion (inicial e : Estado) :
  alcanzable inicial e ->
  Permutation (ids_repartidos e) (ids_repartidos inicial).
Proof.
  induction 1 as [|e e' _ IH Hin]; [reflexivity|].
  apply Permutation_trans with (ids_repartidos e); auto using conservacion_paso.
Qed.

Lemma suma_app (u v : list Z) :
  fold_right Z.add 0 (u ++ v) = fold_right Z.add 0 u + fold_right Z.add 0 v.
Proof. induction u as [|a u IH]; simpl; lia. Qed.

Lemma carga_asignada_push_back (inicial : Estado) (h : list Asignacion) (a : Asignacion)
      (m : Z) :
  carga_asignada inicial (h ++ [a]) m
  = carga_asignada inicial h m
    + (if maquina_id a =? m then duracion inicial (tarea_id a) else 0).
Proof.
  unfold carga_asignada. rewrite filter_app, map_app, suma_app. simpl.
  destruct (maquina_id a =? m); simpl; lia.
Qed.

Lemma duracion_de_pendiente (inicial : Estado) (tarea : Tarea) :
  NoDup (map Tarea_id (T inicial)) ->
  In tarea (T inicial) ->
  duracion inicial (Tarea_id tarea) = tiempo tarea.
Proof.
  unfold duracion. induction (T inicial) as [|a v IH]; simpl; intros Hnd Hin.
  - contradiction.
  - inversion Hnd as [|? ? Hno Hnd']; subst.
    destruct (Tarea_id a =? Tarea_id tarea) eqn:Heq.
    + destruct Hin as [-> | Hin]; [reflexivity|].
      apply Z.eqb_eq in Heq. exfalso. apply Hno. rewrite Heq. now apply in_map.
    + destruct Hin as [-> | Hin]; [now rewrite Z.eqb_refl in Heq|]. now apply IH.
Qed.

Lemma coherente_inicial (inicial : Estado) :
  NoDup (map Tarea_id (T inicial)) ->
  Forall (fun m => tiempo_ocupado m = 0) (M inicial) ->
  Asignaciones inicial = [] ->
  coherente inicial inicial.
Proof.
  intros Hnd Hcero Hvacia. split; auto.
  - apply incl_refl.
  - intros m Hin. rewrite Hvacia. unfold carga_asignada. simpl.
    rewrite Forall_forall in Hcero. now apply Hcero.
Qed.

Lemma coherente_paso (inicial e e' : Estado) :
  NoDup (map Tarea_id (T inicial)) ->
  NoDup (map Maquina_id (M inicial)) ->
  coherente inicial e ->
  In e' (generarSucesores e) ->
  coherente inicial e'.
Proof.
  intros HndT HndM [Hmaq Hincl Hunicos Hcargas] Hin.
  destruct (sucesor_forma e e' Hin)
    as (T1 & tarea & T2 & M1 & maquina & M2 & HT & HT1 & HM & HM1 & ->).
  assert (Hdur : duracion inicial (Tarea_id tarea) = tiempo tarea).
  { apply duracion_de_pendiente; auto. apply Hincl. rewrite HT.
    apply in_or_app. right. now left. }
  assert (HndMe : NoDup (map Maquina_id (M1 ++ maquina :: M2))).
  { rewrite <- HM, Hmaq. assumption. }
  split; simpl.
  - rewrite <- Hmaq, HM, !map_app. reflexivity.
  - intros x Hx. apply Hincl. rewrite HT. apply in_app_or in Hx.
    apply in_or_app. destruct Hx; [now left | right; now right].
  - rewrite HT, map_app in Hunicos. simpl in Hunicos.
    apply NoDup_remove_1 in Hunicos. now rewrite map_app.
  - intros m Hm. rewrite carga_asignada_push_back. simpl. rewrite Hdur.
    rewrite map_app in HndMe. simpl in HndMe.
    pose proof (NoDup_remove_2 _ _ _ HndMe) as Hfuera.
    apply in_app_or in Hm. destruct Hm as [Hm | [<- | Hm]].
    + assert (Hne : Maquina_id maquina <> Maquina_id m).
      { intros Heq. apply Hfuera. apply in_or_app. left. rewrite Heq. now apply in_map. }
      apply Z.eqb_neq in Hne. rewrite Hne, Z.add_0_r.
      apply Hcargas. rewrite HM. apply in_or_app. now left.
    + simpl. rewrite Z.eqb_refl. f_equal.
      apply (Hcargas maquina). rewrite HM. apply in_or_app. right. now left.
    + assert (Hne : Maquina_id maquina <> Maquina_id m).
      { intros Heq. apply Hfuera. apply in_or_app. right. rewrite Heq. now apply in_map. }
      apply Z.eqb_neq in Hne. rewrite Hne, Z.add_0_r.
      apply Hcargas. rewrite HM. apply in_or_app. right. now right.
Qed.

(** The invariants hold of every state reachable from an initial state
    with unique task ids, unique machine ids, idle machines and an empty
    history. *)
Lemma coherente_alcanzable (inicial e : Estado) :
  NoDup (map Tarea_id (T inicial)) ->
  NoDup (map Maquina_id (M inicial)) ->
  Forall (fun m => tiempo_ocupado m = 0) (M inicial) ->
  Asignaciones inicial = [] ->
  alcanzable inicial e ->
  coherente inicial e.
Proof.
  intros HndT HndM Hcero Hvacia Halc.
  induction Halc as [|e e' _ IH Hin].
  - now apply coherente_inicial.
  - now apply (coherente_paso inicial e e').
Qed.

(** *** The initial state of [main] *)

Lemma tareas_desde_ids_mayores (tiempos : list Z) (i t : Z) :
  In t (map Tarea_id (tareas_desde i tiempos)) -> i < t.
Proof.
  revert i. induction tiempos as [|d l IH]; simpl; intros i Hin; [contradiction|].
  destruct Hin as [<- | Hin]; [lia|]. apply IH in Hin. lia.
Qed.

Lemma tareas_desde_ids_unicos (tiempos : list Z) (i : Z) :
  NoDup (map Tarea_id (tareas_desde i tiempos)).
Proof.
  revert i. induction tiempos as [|d l IH]; simpl; intros i; constructor.
  - intros Hin. apply tareas_desde_ids_mayores in Hin. lia.
  - apply IH.
Qed.

Lemma maquinas_iniciales_ids_unicos (N : nat) :
  NoDup (map Maquina_id (maquinas_iniciales N)).
Proof.
  unfold maquinas_iniciales. rewrite map_map. simpl.
  apply Injective_map_NoDup; [exact Nat2Z.inj | apply seq_NoDup].
Qed.

Lemma maquinas_iniciales_libres (N : nat) :
  Forall (fun m => tiempo_ocupado m = 0) (maquinas_iniciales N).
Proof.
  unfold maquinas_iniciales. apply Forall_forall. intros m Hm.
  apply in_map_iff in Hm. destruct Hm as (i & <- & _). reflexivity.
Qed.

Lemma coherente_desde_main (N : nat) (tiempos : list Z) (e : Estado) :
  alcanzable (estado_de_main N tiempos) e ->
  coherente (estado_de_main N tiempos) e.
Proof.
  apply coherente_alcanzable; simpl.
  - apply tareas_desde_ids_unicos.
  - apply maquinas_iniciales_ids_unicos.
  - apply maquinas_iniciales_libres.
  - reflexivity.
Qed.

(** C8.  From the initial state that [main] builds for any number of
    machines and any list of durations, every reachable state keeps the
    task ids: the ids of its pending tasks together with the ids in its
    history are a rearrangement of the original ids, none of them occurs
    twice, and so each original id is pending or assigned but not both. *)
Theorem conservacion_de_tareas (N : nat) (tiempos : list Z) (e : Estado) :
  alcanzable (estado_de_main N tiempos) e ->
  Permutation (map Tarea_id (T e) ++ map tarea_id (Asignaciones e))
              (map Tarea_id (T (estado_de_main N tiempos)))
  /\ NoDup (map Tarea_id (T e) ++ map tarea_id (Asignaciones e))
  /\ forall t, In t (map Tarea_id (T (estado_de_main N tiempos))) ->
               (In t (map Tarea_id (T e)) /\ ~ In t (map tarea_id (Asignaciones e)))
               \/ (~ In t (map Tarea_id (T e)) /\ In t (map tarea_id (Asignaciones e))).
Proof.
  intros Halc. pose proof (conservacion _ _ Halc) as Hperm.
  unfold ids_repartidos in Hperm. simpl in Hperm. rewrite app_nil_r in Hperm.
  assert (Hnd : NoDup (map Tarea_id (T e) ++ map tarea_id (Asignaciones e))).
  { apply (Permutation_NoDup (Permutation_sym Hperm)). apply tareas_desde_ids_unicos. }
  split; [exact Hperm | split; [exact Hnd |]].
  intros t Ht. apply (Permutation_in _ (Permutation_sym Hperm)) in Ht.
  apply in_app_or in Ht. destruct Ht as [Ht | Ht]; [left | right]; split; auto.
  - intros Hh. revert Hnd Ht Hh. generalize (map Tarea_id (T e)) as u.
    induction u as [|a u IH]; simpl; intros Hnd Hin Hh; [contradiction|].
    inversion Hnd as [|? ? Hno Hnd']; subst. destruct Hin as [-> | Hin].
    + apply Hno. apply in_or_app. now right.
    + now apply IH.
  - intros Hp. revert Hnd Hp Ht. generalize (map Tarea_id (T e)) as u.
    induction u as [|a u IH]; simpl; intros Hnd Hin Hh; [contradiction|].
    inversion Hnd as [|? ? Hno Hnd']; subst. destruct Hin as [-> | Hin].
    + apply Hno. apply in_or_app. now right.
    + now apply IH.
Qed.

Lemma conservacion_de_tareas_testigo :
  alcanzable (estado_de_main 2 [5; 5; 3]) (asignarTarea (estado_de_main 2 [5; 5; 3]) 3 2)
  /\ Permutation [1; 2; 3] [1; 2; 3]
  /\ NoDup [1; 2; 3]
  /\ forall t, In t [1; 2; 3] ->
               (In t [1; 2] /\ ~ In t [3]) \/ (~ In t [1; 2] /\ In t [3]).
Proof.
  assert (Halc : alcanzable (estado_de_main 2 [5; 5; 3])
                            (asignarTarea (estado_de_main 2 [5; 5; 3]) 3 2)).
  { apply alcanzable_sucesor with (estado_de_main 2 [5; 5; 3]); [constructor|].
    simpl. auto 10. }
  split; [exact Halc |].
  exact (conservacion_de_tareas 2 [5; 5; 3] _ Halc).
Defined.

Lemma tiempos_de_tareas_desde (tiempos : list Z) (i : Z) :
  map tiempo (tareas_desde i tiempos) = tiempos.
Proof.
  revert i. induction tiempos as [|d l IH]; intros i; simpl; [reflexivity|].
  now rewrite IH.
Qed.

(** *** Loads within [int]

    Each transition moves the absolute value of a duration from the
    pending tasks to a load, or less: the absolute values of the loads
    and of the pending durations never add up to more than they did. *)

Lemma suma_absoluta_app (u v : list Z) :
  suma_absoluta (u ++ v) = suma_absoluta u + suma_absoluta v.
Proof.
  unfold suma_absoluta. induction u as [|x u IH]; simpl; [reflexivity|].
  rewrite IH. lia.
Qed.

Lemma suma_absoluta_no_negativa (l : list Z) : 0 <= suma_absoluta l.
Proof. unfold suma_absoluta. induction l as [|x l IH]; simpl; lia. Qed.

Lemma elemento_absoluto (x : Z) (l : list Z) : In x l -> Z.abs x <= suma_absoluta l.
Proof.
  induction l as [|y l IH]; intros Hin; [contradiction|].
  pose proof (suma_absoluta_no_negativa l). unfold suma_absoluta in *. simpl.
  destruct Hin as [-> | Hin]; [lia | apply IH in Hin; lia].
Qed.

Lemma trabajo_absoluto_alcanzable (inicial e : Estado) :
  alcanzable inicial e ->
  suma_absoluta (map tiempo_ocupado (M e)) + suma_absoluta (map tiempo (T e))
  <= suma_absoluta (map tiempo_ocupado (M inicial)) + suma_absoluta (map tiempo (T inicial)).
Proof.
  induction 1 as [|e e' _ IH Hin]; [lia|].
  destruct (sucesor_forma e e' Hin)
    as (T1 & tarea & T2 & M1 & maquina & M2 & HT & _ & HM & _ & ->).
  rewrite HT, HM in IH. cbn [M T]. rewrite !map_app, !suma_absoluta_app in *.
  cbn [map] in *. unfold suma_absoluta in *. cbn [map fold_right tiempo_ocupado] in *. lia.
Qed.

(** From the initial state of [main], with durations whose absolute values
    add up to an [int], every load of every reachable state is an [int]:
    no addition of [asignarTarea] leaves the range. *)
Lemma cargas_en_rango (N : nat) (tiempos : list Z) (e : Estado) (m : Maquina) :
  suma_absoluta tiempos <= Double.INT_MAX ->
  alcanzable (estado_de_main N tiempos) e ->
  In m (M e) ->
  es_int (tiempo_ocupado m).
Proof.
  intros Hsum Halc Hm.
  pose proof (trabajo_absoluto_alcanzable _ _ Halc) as Hcota.
  cbn [M T estado_de_main] in Hcota. rewrite tiempos_de_tareas_desde in Hcota.
  assert (H0 : suma_absoluta (map tiempo_ocupado (maquinas_iniciales N)) = 0).
  { unfold maquinas_iniciales. rewrite map_map. cbn [tiempo_ocupado].
    unfold suma_absoluta. induction (seq 1 N) as [|i l IH]; simpl; [reflexivity | exact IH]. }
  rewrite H0 in Hcota.
  pose proof (elemento_absoluto (tiempo_ocupado m) _ (in_map tiempo_ocupado _ _ Hm)) as Habs.
  pose proof (suma_absoluta_no_negativa (map tiempo (T e))).
  unfold es_int, Double.INT_MIN, Double.INT_MAX in *. lia.
Qed.

(** C9.  From the initial state that [main] builds, with durations whose
    absolute values add up to an [int], every reachable state has
    consistent loads: the [tiempo_ocupado] of each of its machines is an
    [int], and it is the sum of the durations of the tasks that its
    history assigns to that machine. *)
Theorem carga_coherente (N : nat) (tiempos : list Z) (e : Estado) (m : Maquina) :
  suma_absoluta tiempos <= Double.INT_MAX ->
  alcanzable (estado_de_main N tiempos) e ->
  In m (M e) ->
  es_int (tiempo_ocupado m)
  /\ tiempo_ocupado m
     = carga_asignada (estado_de_main N tiempos) (Asignaciones e) (Maquina_id m).
Proof.
  intros Hsum Halc Hm. split.
  - now apply (cargas_en_rango N tiempos e).
  - now apply (coh_cargas _ _ (coherente_desde_main N tiempos e Halc)).
Qed.

Lemma carga_coherente_testigo :
  suma_absoluta [5; 5; 3] <= Double.INT_MAX
  /\ alcanzable (estado_de_main 2 [5; 5; 3]) (asignarTarea (estado_de_main 2 [5; 5; 3]) 3 2)
  /\ In {| Maquina_id := 2; tiempo_ocupado := 3 |}
        (M (asignarTarea (estado_de_main 2 [5; 5; 3]) 3 2))
  /\ es_int 3
  /\ 3 = carga_asignada (estado_de_main 2 [5; 5; 3])
                        [ {| tarea_id := 3; maquina_id := 2; posicion := 0 |} ] 2.
Proof.
  assert (Hsum : suma_absoluta [5; 5; 3] <= Double.INT_MAX).
  { vm_compute. discriminate. }
  assert (Halc : alcanzable (estado_de_main 2 [5; 5; 3])
                            (asignarTarea (estado_de_main 2 [5; 5; 3]) 3 2)).
  { apply alcanzable_sucesor with (estado_de_main 2 [5; 5; 3]); [constructor|].
    simpl. auto 10. }
  assert (Hin : In {| Maquina_id := 2; tiempo_ocupado := 3 |}
                   (M (asignarTarea (estado_de_main 2 [5; 5; 3]) 3 2))).
  { simpl. auto. }
  split; [exact Hsum | split; [exact Halc | split; [exact Hin |]]].
  exact (carga_coherente 2 [5; 5; 3] _ _ Hsum Halc Hin).
Defined.

(** ** Keys of the closed list *)

Lemma vector_eq_ids (u v : list Tarea) :
  vector_eq Tarea_eq u v = true <-> map Tarea_id u = map Tarea_id v.
Proof.
  revert v. induction u as [|a u IH]; intros [|b v]; simpl; try easy.
  unfold Tarea_eq at 1. rewrite andb_true_iff, IH, Z.eqb_eq. split.
  - intros [-> ->]. reflexivity.
  - intros Heq. injection Heq. auto.
Qed.

Lemma vector_lt_ids (u v : list Tarea) :
  vector_lt Tarea_lt u v = false -> vector_lt Tarea_lt v u = false ->
  map Tarea_id u = map Tarea_id v.
Proof.
  revert v. induction u as [|a u IH]; intros [|b v]; simpl; try easy.
  destruct (Tarea_lt a b) eqn:Hab; [discriminate|].
  destruct (Tarea_lt b a) eqn:Hba; [intros _ ?; discriminate|].
  intros H1 H2. unfold Tarea_lt in Hab, Hba. apply Z.ltb_ge in Hab, Hba.
  f_equal; [lia | now apply IH].
Qed.

Lemma Maquina_lt_irreflexiva (a : Maquina) : Maquina_lt a a = false.
Proof. unfold Maquina_lt. rewrite !Z.ltb_irrefl, andb_false_r. reflexivity. Qed.

Lemma Maquina_lt_total (a b : Maquina) :
  Maquina_lt a b = false -> Maquina_lt b a = false -> a = b.
Proof.
  destruct a as [i x], b as [j y]. unfold Maquina_lt. simpl.
  rewrite !orb_false_iff, !andb_false_iff, !Z.ltb_ge, !Z.eqb_neq.
  intros [H1 H2] [H3 H4]. assert (i = j) by lia. subst j. f_equal. lia.
Qed.

Lemma vector_lt_maquinas (u v : list Maquina) :
  vector_lt Maquina_lt u v = false /\ vector_lt Maquina_lt v u = false <-> u = v.
Proof.
  split.
  - revert v. induction u as [|a u IH]; intros [|b v]; simpl; try easy.
    destruct (Maquina_lt a b) eqn:Hab; [intros [? _]; discriminate|].
    destruct (Maquina_lt b a) eqn:Hba; [intros [_ ?]; discriminate|].
    intros Hlt. f_equal; [now apply Maquina_lt_total | now apply IH].
  - intros <-. induction u as [|a u IH]; simpl; [easy|].
    now rewrite Maquina_lt_irreflexiva.
Qed.

(** Two states are one key of [std::map<Estado,int>] exactly when they
    have the same pending ids in the same order and the same machines. *)
Lemma equivalentes_clave (a b : Estado) :
  equivalentes a b = true <-> clave a = clave b.
Proof.
  unfold equivalentes, Estado_lt, clave.
  destruct (vector_eq Tarea_eq (T a) (T b)) eqn:Hab.
  - assert (Hba : vector_eq Tarea_eq (T b) (T a) = true).
    { apply vector_eq_ids. symmetry. now apply vector_eq_ids. }
    rewrite Hba. simpl. apply vector_eq_ids in Hab.
    rewrite andb_true_iff, !negb_true_iff, vector_lt_maquinas. split.
    + intros ->. now rewrite Hab.
    + intros Heq. now injection Heq.
  - assert (Hba : vector_eq Tarea_eq (T b) (T a) = false).
    { destruct (vector_eq Tarea_eq (T b) (T a)) eqn:Hba; [|reflexivity].
      apply vector_eq_ids in Hba. symmetry in Hba. apply vector_eq_ids in Hba. congruence. }
    rewrite Hba. simpl. rewrite andb_true_iff, !negb_true_iff. split.
    + intros [H1 H2]. pose proof (vector_lt_ids _ _ H1 H2) as Hids.
      apply vector_eq_ids in Hids. congruence.
    + intros Heq. injection Heq as Hids _. apply vector_eq_ids in Hids. congruence.
Qed.

(** [Estado::operator==] agrees with the keys of the map. *)
Lemma Estado_eq_clave (a b : Estado) :
  Estado_eq a b = true <-> clave a = clave b.
Proof.
  unfold Estado_eq, clave. rewrite andb_true_iff, vector_eq_ids.
  assert (Hm : forall u v, vector_eq Maquina_eq u v = true <-> u = v).
  { induction u as [|[i x] u IH]; intros [|[j y] v]; simpl; try easy.
    unfold Maquina_eq at 1. simpl.
    rewrite !andb_true_iff, IH, !Z.eqb_eq. split.
    - intros [[-> ->] ->]. reflexivity.
    - intros Heq. injection Heq. auto. }
  rewrite Hm. split.
  - intros [-> ->]. reflexivity.
  - intros Heq. now injection Heq.
Qed.

Lemma clave_pendientes (a b : Estado) :
  clave a = clave b -> length (T a) = length (T b).
Proof.
  unfold clave. intros Heq. injection Heq as Hids _.
  apply (f_equal (@length Z)) in Hids. now rewrite !length_map in Hids.
Qed.

Lemma map_find_entrada (c : closed_list) (k : Estado) :
  en_cerrada c k -> exists k' v, In (k', v) c /\ clave k' = clave k.
Proof.
  unfold en_cerrada. induction c as [|[k' v] c IH]; simpl; [congruence|].
  destruct (equivalentes k' k) eqn:Heq.
  - intros _. exists k', v. split; [now left | now apply equivalentes_clave].
  - intros Hf. destruct (IH Hf) as (k'' & v' & Hin & Hc). exists k'', v'. auto.
Qed.

Lemma map_find_ninguno (c : closed_list) (k : Estado) :
  map_find c k = None <-> forall k' v, In (k', v) c -> clave k' <> clave k.
Proof.
  induction c as [|[k' v] c IH]; simpl.
  - split; [intros _ ? ? [] | reflexivity].
  - destruct (equivalentes k' k) eqn:Heq.
    + split; [discriminate|]. intros Hall. exfalso.
      apply (Hall k' v); [now left | now apply equivalentes_clave].
    + rewrite IH. split.
      * intros Hall k'' v' [Hin | Hin]; [|now apply (Hall k'' v')].
        injection Hin as <- <-. intros Hc. apply equivalentes_clave in Hc. congruence.
      * intros Hall k'' v' Hin. apply (Hall k'' v'). now right.
Qed.

Lemma map_asignar_entradas (c : closed_list) (k : Estado) (v : Z) (k' : Estado) (v' : Z) :
  In (k', v') (map_asignar c k v) ->
  (exists w, In (k', w) c) \/ k' = k.
Proof.
  induction c as [|[k0 v0] c IH]; simpl.
  - intros [Hin | []]. injection Hin as <- <-. now right.
  - destruct (equivalentes k0 k).
    + intros [Hin | Hin].
      * injection Hin as <- <-. left. exists v0. now left.
      * left. exists v'. now right.
    + intros [Hin | Hin].
      * injection Hin as <- <-. left. exists v0. now left.
      * destruct (IH Hin) as [[w Hw] | ->]; [left; exists w; now right | now right].
Qed.

Lemma map_asignar_ninguno (c : closed_list) (k : Estado) (v : Z) (k' : Estado) :
  map_find c k' = None -> clave k <> clave k' ->
  map_find (map_asignar c k v) k' = None.
Proof.
  intros Hnone Hne. apply map_find_ninguno. intros k0 v0 Hin.
  destruct (map_asignar_entradas _ _ _ _ _ Hin) as [[w Hw] | ->]; [|assumption].
  rewrite map_find_ninguno in Hnone. now apply (Hnone k0 w).
Qed.

(** ** The list queue is a priority queue *)

Module ColaListaLegal.
Import ColaLista.

Lemma f_minimo_menor (q : list Nodo) (f : Z) :
  f_minimo f q <= f /\ forall m, In m q -> f_minimo f q <= f_cost m.
Proof.
  revert f. induction q as [|a q IH]; intros f; simpl.
  - split; [lia | intros m []].
  - destruct (IH (Z.min f (f_cost a))) as [H1 H2]. split; [lia|].
    intros m [<- | Hm]; [lia | now apply H2].
Qed.

Lemma f_minimo_esta (q : list Nodo) (f : Z) :
  f_minimo f q = f \/ exists m, In m q /\ f_cost m = f_minimo f q.
Proof.
  revert f. induction q as [|a q IH]; intros f; simpl; [now left|].
  destruct (IH (Z.min f (f_cost a))) as [Heq | (m & Hm & Hf)].
  - destruct (Z.min_spec f (f_cost a)) as [[_ Hmin] | [_ Hmin]].
    + left. congruence.
    + right. exists a. split; [now left | congruence].
  - right. exists m. split; [now right | assumption].
Qed.

Lemma top_some (q : list Nodo) : empty q = false -> exists n, top q = Some n.
Proof.
  destruct q as [|n q]; [discriminate|]. intros _. unfold top.
  set (f := f_minimo (f_cost n) q).
  assert (Hex : exists m, In m (n :: q) /\ f_cost m = f).
  { destruct (f_minimo_esta q (f_cost n)) as [Heq | (m & Hm & Hf)].
    - exists n. split; [now left | now symmetry].
    - exists m. split; [now right | assumption]. }
  destruct Hex as (m & Hm & Hf).
  destruct (find (fun m => f_cost m =? f) (n :: q)) as [x|] eqn:Hfind; [eauto|].
  apply (find_none _ _ Hfind) in Hm. apply Z.eqb_neq in Hm. contradiction.
Qed.

Lemma top_spec (q : list Nodo) (n : Nodo) :
  top q = Some n ->
  In n q /\ forall m, In m q -> Nodo_gt n m = false.
Proof.
  destruct q as [|a q]; [discriminate|]. unfold top. intros Hfind.
  apply find_some in Hfind. destruct Hfind as [Hin Hf]. apply Z.eqb_eq in Hf.
  split; [assumption|]. intros m Hm. unfold Nodo_gt. apply Z.ltb_ge. rewrite Hf.
  destruct (f_minimo_menor q (f_cost a)) as [H1 H2].
  destruct Hm as [<- | Hm]; [assumption | now apply H2].
Qed.

Lemma quitar_hallado (f : Z) (q : list Nodo) (n : Nodo) :
  find (fun m => f_cost m =? f) q = Some n ->
  Permutation q (n :: quitar (f_cost n) q).
Proof.
  induction q as [|a q IH]; simpl; [discriminate|].
  destruct (f_cost a =? f) eqn:Ha.
  - intros [= <-]. now rewrite Z.eqb_refl.
  - intros Hfind. pose proof (find_some _ _ Hfind) as [_ Hn]. apply Z.eqb_eq in Hn.
    rewrite Hn, Ha. rewrite <- Hn. rewrite perm_swap. apply perm_skip. now apply IH.
Qed.

Lemma pop_spec (q : list Nodo) (n : Nodo) :
  top q = Some n -> Permutation q (n :: pop q).
Proof.
  intros Htop. unfold pop. rewrite Htop.
  destruct q as [|a q]; [discriminate|]. unfold top in Htop.
  now apply quitar_hallado with (f := f_minimo (f_cost a) q).
Qed.

Lemma empty_spec (q : list Nodo) : empty q = true <-> q = [].
Proof. destruct q; simpl; split; congruence. Qed.

Lemma legal : ColaLegal ColaLista.cola.
Proof.
  split; simpl.
  - reflexivity.
  - intros n q. apply Permutation_refl.
  - apply empty_spec.
  - apply top_some.
  - apply top_spec.
  - apply pop_spec.
Qed.

End ColaListaLegal.

(** ** The search loop: what the frontier holds *)

Section Frontera.
Context `{Plataforma} {Q : ColaPrioridad} {QL : ColaLegal Q}.

Lemma contenido_encolar (sucesores : list Estado) (q : Cola) :
  Permutation (contenido (encolar_sucesores q sucesores))
              (map nodo_de sucesores ++ contenido q).
Proof.
  unfold encolar_sucesores. revert q.
  induction sucesores as [|s l IH]; intros q; simpl; [reflexivity|].
  rewrite IH. rewrite contenido_push. symmetry. apply Permutation_middle.
Qed.

Lemma contenido_inicial (n : Nodo) : contenido (cola_push n cola_nueva) = [n].
Proof.
  pose proof (contenido_push n cola_nueva) as Hp. rewrite contenido_nueva in Hp.
  apply Permutation_sym, Permutation_length_1_inv in Hp. exact Hp.
Qed.

Lemma cola_no_vacia (q : Cola) (n : Nodo) :
  In n (contenido q) -> cola_empty q = false.
Proof.
  intros Hin. destruct (cola_empty q) eqn:He; [|reflexivity].
  apply cola_empty_spec in He. rewrite He in Hin. contradiction.
Qed.

(** The node on top has the least [f_cost] of the frontier. *)
Lemma cola_top_minimo (q : Cola) (n m : Nodo) :
  cola_top q = Some n -> In m (contenido q) -> f_cost n <= f_cost m.
Proof.
  intros Htop Hin. destruct (cola_top_spec q n Htop) as [_ Hmin].
  specialize (Hmin m Hin). unfold Nodo_gt in Hmin. now apply Z.ltb_ge in Hmin.
Qed.

Lemma tras_pop (q : Cola) (n m : Nodo) :
  cola_top q = Some n -> In m (contenido q) -> m = n \/ In m (contenido (cola_pop q)).
Proof.
  intros Htop Hin. pose proof (cola_pop_spec q n Htop) as Hp.
  apply (Permutation_in _ Hp) in Hin. destruct Hin; auto.
Qed.

Lemma antes_de_pop (q : Cola) (n m : Nodo) :
  cola_top q = Some n -> In m (contenido (cola_pop q)) -> In m (contenido q).
Proof.
  intros Htop Hin. pose proof (cola_pop_spec q n Htop) as Hp.
  apply (Permutation_in _ (Permutation_sym Hp)). now right.
Qed.

Lemma en_cola_expandida (q : Cola) (sucesores : list Estado) (n : Nodo) :
  In n (contenido (encolar_sucesores q sucesores))
  <-> In n (map nodo_de sucesores) \/ In n (contenido q).
Proof.
  split.
  - intros Hin. apply (Permutation_in _ (contenido_encolar sucesores q)) in Hin.
    now apply in_app_or.
  - intros Hin. apply (Permutation_in _ (Permutation_sym (contenido_encolar sucesores q))).
    now apply in_or_app.
Qed.

End Frontera.

(** ** The search loop always returns *)

Lemma potencial_perm (m : nat) (l l' : list Nodo) :
  Permutation l l' -> potencial m l = potencial m l'.
Proof.
  unfold potencial. induction 1; simpl; lia.
Qed.

Lemma potencial_app (m : nat) (l l' : list Nodo) :
  potencial m (l ++ l') = (potencial m l + potencial m l')%nat.
Proof. unfold potencial. now rewrite map_app, list_sum_app. Qed.

Lemma list_sum_constante (c : nat) (l : list nat) :
  Forall (fun x => x = c) l -> list_sum l = (length l * c)%nat.
Proof. induction 1; simpl; subst; lia. Qed.

Section Terminacion.
Context `{Plataforma} {Q : ColaPrioridad} {QL : ColaLegal Q}.

Lemma potencial_sucesores (e : Estado) (k : nat) :
  length (T e) = S k ->
  potencial (length (M e)) (map nodo_de (generarSucesores e))
  = (S k * length (M e) * peso (length (M e)) k)%nat.
Proof.
  intros Hk. unfold potencial. rewrite map_map.
  rewrite (list_sum_constante (peso (length (M e)) k)).
  - rewrite length_map, generarSucesores_length, Hk. reflexivity.
  - apply Forall_forall. intros x Hx. apply in_map_iff in Hx.
    destruct Hx as (s & <- & Hs). simpl.
    apply sucesor_pendientes in Hs. rewrite Hk in Hs. now injection Hs as ->.
Qed.

(** Each iteration lowers the potential of the frontier: a popped node
    leaves, and the successors of a node weigh less than the node. *)
Lemma A_estrella_bucle_termina (m : nat) (combustible : nat) :
  forall (q : Cola) (closed : closed_list) (estado_inicial : Estado),
    Forall (fun n => length (M (estado n)) = m) (contenido q) ->
    (potencial m (contenido q) < combustible)%nat ->
    exists r, A_estrella_bucle combustible q closed estado_inicial = Some r.
Proof.
  induction combustible as [|c IH]; intros q closed e0 Hm Hpot; [lia|].
  simpl. destruct (cola_empty q) eqn:Hvacia; [eauto|].
  destruct (cola_top_some q Hvacia) as [actual Htop]. rewrite Htop.
  pose proof (cola_pop_spec q actual Htop) as Hpop.
  rewrite (potencial_perm m _ _ Hpop) in Hpot.
  assert (Hm' : Forall (fun n => length (M (estado n)) = m) (actual :: contenido (cola_pop q))).
  { rewrite Forall_forall in *. intros n Hn. apply Hm.
    apply (Permutation_in _ (Permutation_sym Hpop)). exact Hn. }
  inversion Hm' as [|? ? Hactual Hresto]; subst.
  change (actual :: contenido (cola_pop q)) with ([actual] ++ contenido (cola_pop q)) in Hpot.
  rewrite potencial_app in Hpot. unfold potencial at 1 in Hpot. simpl in Hpot.
  destruct (T (estado actual)) as [|t0 T0] eqn:HT; [eauto|].
  assert (Hexp : exists r,
             A_estrella_bucle c
               (encolar_sucesores (cola_pop q) (generarSucesores (estado actual)))
               (map_asignar closed (estado actual) (g_cost actual)) e0 = Some r).
  { apply IH.
    - rewrite Forall_forall in *. intros n Hn. apply en_cola_expandida in Hn.
      destruct Hn as [Hn | Hn]; [|now apply Hresto].
      apply in_map_iff in Hn. destruct Hn as (s & <- & Hs). simpl.
      now apply sucesor_maquinas in Hs.
    - rewrite (potencial_perm _ _ _ (contenido_encolar _ _)), potencial_app.
      rewrite (potencial_sucesores (estado actual) (length T0)) by now rewrite HT.
      simpl in Hpot. lia. }
  assert (Hdesc : exists r, A_estrella_bucle c (cola_pop q) closed e0 = Some r).
  { apply IH; [assumption|]. simpl in Hpot. lia. }
  destruct (map_find closed (estado actual)) as [g_closed|];
    [destruct (g_cost actual <? g_closed)|]; assumption.
Qed.

(** The search returns a state whenever it is given more iterations than
    [peso] counts for the initial state. *)
Lemma A_estrella_termina (combustible : nat) (estado_inicial : Estado) :
  (peso (length (M estado_inicial)) (length (T estado_inicial)) < combustible)%nat ->
  exists r, A_estrella combustible estado_inicial = Some r.
Proof.
  intros Hc. unfold A_estrella.
  apply (A_estrella_bucle_termina (length (M estado_inicial))).
  - rewrite contenido_inicial. now constructor.
  - rewrite contenido_inicial. unfold potencial. simpl. lia.
Qed.

End Terminacion.

(** ** The search loop: what it returns *)

Section Busqueda_alcanzable.
Context `{Plataforma} {Q : ColaPrioridad} {QL : ColaLegal Q}.
Variable inicial : Estado.

Lemma frontera_alcanzable_inicial :
  frontera_alcanzable inicial (cola_push (nodo_de inicial) cola_nueva).
Proof.
  intros n Hn. rewrite contenido_inicial in Hn. destruct Hn as [<- | []].
  split; [constructor | reflexivity].
Qed.

Lemma frontera_alcanzable_pop (q : Cola) (p : Nodo) :
  frontera_alcanzable inicial q -> cola_top q = Some p ->
  frontera_alcanzable inicial (cola_pop q).
Proof. intros Hq Htop n Hn. apply Hq. now apply (antes_de_pop q p). Qed.

Lemma frontera_alcanzable_expandir (q : Cola) (p : Nodo) :
  frontera_alcanzable inicial q -> cola_top q = Some p ->
  frontera_alcanzable inicial
    (encolar_sucesores (cola_pop q) (generarSucesores (estado p))).
Proof.
  intros Hq Htop n Hn. apply en_cola_expandida in Hn. destruct Hn as [Hn | Hn].
  - apply in_map_iff in Hn. destruct Hn as (s & <- & Hs). split; [|reflexivity].
    apply alcanzable_sucesor with (estado p); [|exact Hs].
    apply Hq. now apply cola_top_spec.
  - apply Hq. now apply (antes_de_pop q p).
Qed.

Lemma A_estrella_bucle_alcanzable (combustible : nat) :
  forall (q : Cola) (closed : closed_list) (r : Estado),
    frontera_alcanzable inicial q ->
    A_estrella_bucle combustible q closed inicial = Some r ->
    alcanzable inicial r.
Proof.
  induction combustible as [|c IH]; intros q closed r Hq; simpl; [discriminate|].
  destruct (cola_empty q); [intros [= <-]; constructor|].
  destruct (cola_top q) as [p|] eqn:Htop; [|discriminate].
  destruct (T (estado p)) eqn:HT.
  - intros [= <-]. apply Hq. now apply cola_top_spec.
  - pose proof (frontera_alcanzable_pop q p Hq Htop).
    pose proof (frontera_alcanzable_expandir q p Hq Htop).
    destruct (map_find closed (estado p)) as [g|]; [destruct (g_cost p <? g)|]; eauto.
Qed.

(** Every state that [A_estrella] returns is reachable from the state it
    was given: the invariants of the reachable states hold of it. *)
Lemma A_estrella_alcanzable (combustible : nat) (r : Estado) :
  A_estrella combustible inicial = Some r -> alcanzable inicial r.
Proof.
  apply A_estrella_bucle_alcanzable. apply frontera_alcanzable_inicial.
Qed.

End Busqueda_alcanzable.

(** *** Best-first order

    [bueno] marks states from which the search can still do well, and
    [cota] bounds the [f_cost] of their nodes.  When a marked state that
    has pending tasks always has a marked successor, the search returns a
    state without pending tasks whose [f_cost] is at most [cota],
    whichever node the queue puts on top among those of least [f_cost]. *)
Section Mejor_primero.
Context `{Plataforma} {Q : ColaPrioridad} {QL : ColaLegal Q}.
Variable inicial : Estado.
Variable bueno : Estado -> bool.
Variable cota : Z.
Hypothesis bueno_inicial : bueno inicial = true.
Hypothesis bueno_clave : forall a b,
    alcanzable inicial a -> alcanzable inicial b -> clave a = clave b -> bueno a = bueno b.
Hypothesis bueno_cota : forall e,
    alcanzable inicial e -> bueno e = true -> f_cost (nodo_de e) <= cota.
Hypothesis bueno_sucesor : forall e,
    alcanzable inicial e -> bueno e = true -> T e <> [] ->
    exists e', In e' (generarSucesores e) /\ bueno e' = true.

Lemma testigo_mas (q : Cola) (closed : closed_list) (d d' : nat) :
  (d <= d')%nat -> testigo bueno q closed d -> testigo bueno q closed d'.
Proof.
  intros Hd (n & Hin & Hb & Hlen & Hn). exists n. repeat split; auto. lia.
Qed.

Lemma inv_inicial : inv inicial bueno (cola_push (nodo_de inicial) cola_nueva) [].
Proof.
  split.
  - apply frontera_alcanzable_inicial.
  - intros k v [].
  - exists (nodo_de inicial). rewrite contenido_inicial. simpl.
    repeat split; auto.
  - intros k v [].
Qed.

Section Paso.
Variables (q : Cola) (closed : closed_list) (p : Nodo).
Hypothesis Hinv : inv inicial bueno q closed.
Hypothesis Htop : cola_top q = Some p.
Hypothesis Hpendientes : T (estado p) <> [].

Let q' := encolar_sucesores (cola_pop q) (generarSucesores (estado p)).
Let closed' := map_asignar closed (estado p) (g_cost p).

Lemma p_alcanzable : alcanzable inicial (estado p).
Proof. destruct Hinv as [Hf _ _ _]. apply Hf. now apply cola_top_spec. Qed.

(** A node that is popped and not expanded was no witness. *)
Lemma testigo_descartar (d : nat) :
  map_find closed (estado p) <> None ->
  testigo bueno q closed d -> testigo bueno (cola_pop q) closed d.
Proof.
  intros Hen (n & Hin & Hb & Hlen & Hn). exists n. repeat split; auto.
  destruct (tras_pop q p n Htop Hin) as [-> | Hin']; [|assumption].
  destruct Hn; contradiction.
Qed.

(** A witness with fewer pending tasks than [p] is untouched by the
    expansion of [p]. *)
Lemma testigo_conserva (d : nat) :
  (d <= length (T (estado p)))%nat ->
  testigo bueno q closed d -> testigo bueno q' closed' d.
Proof.
  intros Hd (n & Hin & Hb & Hlen & Hn).
  assert (Hne : clave (estado p) <> clave (estado n)).
  { intros Hc. apply clave_pendientes in Hc. lia. }
  exists n. repeat split; auto.
  - apply en_cola_expandida. right.
    destruct (tras_pop q p n Htop Hin) as [-> | Hin']; [congruence | assumption].
  - destruct Hn as [Hn | Hn]; [now left | right].
    now apply map_asignar_ninguno.
Qed.

(** The expansion of a marked node leaves a witness below it: its marked
    successor, or the witness of the key under which that successor was
    expanded before. *)
Lemma testigo_expandido :
  bueno (estado p) = true -> testigo bueno q' closed' (length (T (estado p))).
Proof.
  intros Hb. destruct Hinv as [Hf Hc _ Hcs].
  destruct (bueno_sucesor (estado p) p_alcanzable Hb Hpendientes) as (s & Hs & Hbs).
  pose proof (sucesor_pendientes _ _ Hs) as Hlen.
  assert (Halc : alcanzable inicial s).
  { apply alcanzable_sucesor with (estado p); [apply p_alcanzable | exact Hs]. }
  assert (Hcola : In (nodo_de s) (contenido q')).
  { apply en_cola_expandida. left. now apply in_map. }
  destruct (T s) as [|t0 T0] eqn:HT.
  { exists (nodo_de s). simpl. rewrite HT. repeat split; auto. simpl. lia. }
  destruct (map_find closed' s) as [v|] eqn:Hfind.
  2:{ exists (nodo_de s). simpl. rewrite HT. repeat split; auto. lia. }
  destruct (map_find_entrada closed' s) as (k & w & Hk & Hck).
  { unfold en_cerrada. congruence. }
  destruct (map_asignar_entradas _ _ _ _ _ Hk) as [[w' Hw'] | ->].
  - apply testigo_mas with (length (T k)).
    + apply clave_pendientes in Hck. rewrite Hck, HT. lia.
    + apply testigo_conserva.
      * apply clave_pendientes in Hck. rewrite Hck, HT. lia.
      * apply (Hcs k w' Hw').
        rewrite (bueno_clave k s); auto. apply (Hc k w' Hw').
  - apply clave_pendientes in Hck. rewrite HT in Hck. simpl in Hck, Hlen. lia.
Qed.

Lemma testigo_expandir (d : nat) :
  testigo bueno q closed d -> testigo bueno q' closed' d.
Proof.
  intros (n & Hin & Hb & Hlen & Hn).
  destruct Hinv as [Hf _ _ _]. destruct (Hf n Hin) as [Halc _].
  destruct (equivalentes (estado p) (estado n)) eqn:Heq.
  - apply equivalentes_clave in Heq.
    apply testigo_mas with (length (T (estado p))).
    + apply clave_pendientes in Heq. lia.
    + apply testigo_expandido.
      rewrite (bueno_clave (estado p) (estado n)); auto. apply p_alcanzable.
  - assert (Hne : clave (estado p) <> clave (estado n)).
    { intros Hc. apply equivalentes_clave in Hc. congruence. }
    exists n. repeat split; auto.
    + apply en_cola_expandida. right.
      destruct (tras_pop q p n Htop Hin) as [-> | Hin']; [congruence | assumption].
    + destruct Hn as [Hn | Hn]; [now left | right].
      now apply map_asignar_ninguno.
Qed.

Lemma inv_expandir : inv inicial bueno q' closed'.
Proof.
  pose proof Hinv as [Hf Hc Ht Hcs]. split.
  - apply frontera_alcanzable_expandir; [exact Hf | exact Htop].
  - intros k v Hk. destruct (map_asignar_entradas _ _ _ _ _ Hk) as [[w Hw] | ->].
    + apply (Hc k w Hw).
    + apply p_alcanzable.
  - apply testigo_expandir. exact Ht.
  - intros k v Hk Hb. destruct (map_asignar_entradas _ _ _ _ _ Hk) as [[w Hw] | ->].
    + apply testigo_expandir. apply (Hcs k w Hw Hb).
    + now apply testigo_expandido.
Qed.

Lemma inv_descartar :
  map_find closed (estado p) <> None -> inv inicial bueno (cola_pop q) closed.
Proof.
  intros Hen. pose proof Hinv as [Hf Hc Ht Hcs]. split.
  - apply frontera_alcanzable_pop with p; [exact Hf | exact Htop].
  - exact Hc.
  - apply testigo_descartar; [exact Hen | exact Ht].
  - intros k v Hk Hb. apply testigo_descartar; [exact Hen|].
    apply (Hcs k v Hk Hb).
Qed.

End Paso.

Lemma A_estrella_bucle_meta (combustible : nat) :
  forall (q : Cola) (closed : closed_list) (r : Estado),
    inv inicial bueno q closed ->
    A_estrella_bucle combustible q closed inicial = Some r ->
    alcanzable inicial r /\ T r = [] /\ f_cost (nodo_de r) <= cota.
Proof.
  induction combustible as [|c IH]; intros q closed r Hinv; simpl; [discriminate|].
  pose proof Hinv as [Hf _ (w & Hw & Hbw & _ & _) _].
  rewrite (cola_no_vacia q w Hw).
  destruct (cola_top q) as [p|] eqn:Htop; [|discriminate].
  destruct (T (estado p)) as [|t0 T0] eqn:HT.
  - intros [= <-].
    destruct (Hf p) as [Halc Hp]; [now apply cola_top_spec|].
    destruct (Hf w Hw) as [Halcw Hnw].
    repeat split; auto.
    change (f_cost (nodo_de (estado p)) <= cota). rewrite <- Hp.
    apply Z.le_trans with (f_cost w); [now apply (cola_top_minimo q)|].
    rewrite Hnw. now apply bueno_cota.
  - assert (Hne : T (estado p) <> []) by (rewrite HT; discriminate).
    pose proof (inv_expandir q closed p Hinv Htop Hne) as Hexp.
    destruct (map_find closed (estado p)) as [g|] eqn:Hfind.
    + destruct (g_cost p <? g); [now apply IH|].
      apply IH. apply (inv_descartar q closed p Hinv Htop Hne). congruence.
    + now apply IH.
Qed.

Lemma A_estrella_meta (combustible : nat) (r : Estado) :
  A_estrella combustible inicial = Some r ->
  alcanzable inicial r /\ T r = [] /\ f_cost (nodo_de r) <= cota.
Proof. apply A_estrella_bucle_meta. apply inv_inicial. Qed.

End Mejor_primero.

(** ** The exits of the search *)

Section Salidas.
Context `{Plataforma} {Q : ColaPrioridad} {QL : ColaLegal Q}.

(** C10.  On an initial state without pending tasks the search returns
    that state itself, with its machines, loads and history: the only
    node of the frontier is popped and passes the goal test, before the
    closed list is looked at and before any successor is generated. *)
Theorem A_estrella_sin_pendientes (combustible : nat) (estado_inicial : Estado) :
  T estado_inicial = [] ->
  A_estrella (S combustible) estado_inicial = Some estado_inicial.
Proof.
  intros HT. unfold A_estrella. simpl.
  assert (Hin : In (nodo_de estado_inicial)
                   (contenido (cola_push (nodo_de estado_inicial) cola_nueva))).
  { rewrite contenido_inicial. now left. }
  rewrite (cola_no_vacia _ _ Hin).
  destruct (cola_top_some _ (cola_no_vacia _ _ Hin)) as [actual Htop].
  rewrite Htop. destruct (cola_top_spec _ _ Htop) as [Hactual _].
  rewrite contenido_inicial in Hactual. destruct Hactual as [<- | []].
  simpl. now rewrite HT.
Qed.

(** C3, as the code has it.  When the loop finds the frontier empty it
    returns the state the search was started from, and a state that the
    loop returns with tasks still pending can only be that one.  The
    result has the type of a solution: nothing marks it as a failure. *)
Theorem A_estrella_frontera_agotada (estado_inicial : Estado) :
  (forall combustible cola closed,
      cola_empty cola = true ->
      A_estrella_bucle (S combustible) cola closed estado_inicial = Some estado_inicial)
  /\ (forall combustible cola closed r,
         A_estrella_bucle combustible cola closed estado_inicial = Some r ->
         T r = [] \/ r = estado_inicial).
Proof.
  split.
  - intros combustible cola closed Hvacia. simpl. now rewrite Hvacia.
  - induction combustible as [|c IH]; intros cola closed r; simpl; [discriminate|].
    destruct (cola_empty cola); [intros [= <-]; now right|].
    destruct (cola_top cola) as [actual|]; [|discriminate].
    destruct (T (estado actual)) as [|t0 T0] eqn:HT.
    + intros [= <-]. now left.
    + destruct (map_find closed (estado actual)) as [g|];
        [destruct (g_cost actual <? g)|]; apply IH.
Qed.

(** Without machines no successor exists: a state with pending tasks is
    expanded into nothing, the frontier empties and the state comes back. *)
Lemma A_estrella_sin_maquinas (combustible : nat) (estado_inicial : Estado) :
  M estado_inicial = [] -> T estado_inicial <> [] ->
  A_estrella (S (S combustible)) estado_inicial = Some estado_inicial.
Proof.
  intros HM HT. unfold A_estrella.
  assert (Hcont := contenido_inicial (nodo_de estado_inicial)).
  assert (Hin : In (nodo_de estado_inicial)
                   (contenido (cola_push (nodo_de estado_inicial) cola_nueva))).
  { rewrite Hcont. now left. }
  cbn [A_estrella_bucle]. rewrite (cola_no_vacia _ _ Hin).
  destruct (cola_top_some _ (cola_no_vacia _ _ Hin)) as [actual Htop].
  rewrite Htop. destruct (cola_top_spec _ _ Htop) as [Hactual _].
  pose proof (cola_pop_spec _ _ Htop) as Hpop.
  rewrite Hcont in Hactual, Hpop. destruct Hactual as [<- | []].
  apply Permutation_length in Hpop. simpl in Hpop.
  assert (Hvacia : contenido (cola_pop (cola_push (nodo_de estado_inicial) cola_nueva)) = []).
  { destruct (contenido (cola_pop (cola_push (nodo_de estado_inicial) cola_nueva)));
      [reflexivity | discriminate]. }
  apply cola_empty_spec in Hvacia.
  assert (Hgen : generarSucesores estado_inicial = []).
  { rewrite generarSucesores_producto, HM.
    assert (Hprod : forall l : list Tarea, list_prod l (@nil Maquina) = []).
    { induction l; simpl; auto. }
    now rewrite Hprod. }
  cbn [estado nodo_de]. destruct (T estado_inicial) as [|t0 T0]; [contradiction|].
  cbn [map_find]. rewrite Hgen. cbn [encolar_sucesores fold_left].
  now rewrite Hvacia.
Qed.

End Salidas.

Lemma A_estrella_sin_pendientes_testigo :
  T ejemplo_resuelto = []
  /\ @A_estrella plataforma_int_min ColaLista.cola 1 ejemplo_resuelto
     = Some ejemplo_resuelto.
Proof.
  split; [reflexivity |].
  exact (@A_estrella_sin_pendientes plataforma_int_min ColaLista.cola ColaListaLegal.legal
           O ejemplo_resuelto eq_refl).
Defined.

Lemma A_estrella_frontera_agotada_testigo :
  @cola_empty ColaLista.cola (@cola_nueva ColaLista.cola) = true
  /\ @A_estrella_bucle plataforma_int_min ColaLista.cola 1 (@cola_nueva ColaLista.cola) []
       (estado_de_main 2 [5; 5; 3])
     = Some (estado_de_main 2 [5; 5; 3]).
Proof.
  split; [reflexivity |].
  exact (proj1 (@A_estrella_frontera_agotada plataforma_int_min ColaLista.cola
                  (estado_de_main 2 [5; 5; 3]))
               O (@cola_nueva ColaLista.cola) [] eq_refl).
Defined.

(** C3, as stated, fails.  Entered with an empty frontier, the loop
    answers with the initial state of scenario A, whose three tasks are
    all pending; and the whole search, started on a state with one pending
    task and no machine, empties its frontier and answers with that state.
    Both answers are plain states, as a solution is. *)
Lemma A_estrella_devuelve_inicial :
  T (estado_de_main 2 [5; 5; 3]) <> []
  /\ @A_estrella_bucle plataforma_int_min ColaLista.cola 1 (@cola_nueva ColaLista.cola) []
       (estado_de_main 2 [5; 5; 3])
     = Some (estado_de_main 2 [5; 5; 3])
  /\ T (estado_de_main 0 [5]) <> []
  /\ @A_estrella plataforma_int_min ColaLista.cola 2 (estado_de_main 0 [5])
     = Some (estado_de_main 0 [5]).
Proof.
  repeat split; try discriminate.
Qed.

(** ** The heuristic *)

Lemma parte_entera_no_negativa (m : positive) (e : Z) : 0 <= Double.parte_entera m e.
Proof.
  unfold Double.parte_entera. destruct e.
  - apply Z.shiftl_nonneg. lia.
  - apply Z.shiftl_nonneg. lia.
  - apply Z.shiftr_nonneg. lia.
Qed.

(** Rounding to binary64 keeps the sign. *)
Lemma binary_round_aux_signo (s : bool) (m e : Z) (l : location) :
  match binary_round_aux Double.prec Double.emax s m e l with
  | S754_nan => True
  | S754_zero s' | S754_infinity s' | S754_finite s' _ _ => s' = s
  end.
Proof.
  unfold binary_round_aux.
  destruct (shr_fexp Double.prec Double.emax m e l) as [mrs' e'].
  destruct (shr_fexp Double.prec Double.emax
              (round_nearest_even (shr_m mrs') (loc_of_shr_record mrs')) e' loc_Exact)
    as [mrs'' e''].
  destruct (shr_m mrs''); auto.
  destruct (e'' <=? Double.emax - Double.prec); auto.
Qed.

Lemma binary_round_signo (s : bool) (m : positive) (e : Z) :
  match binary_round Double.prec Double.emax s m e with
  | S754_nan => True
  | S754_zero s' | S754_infinity s' | S754_finite s' _ _ => s' = s
  end.
Proof.
  unfold binary_round.
  destruct (shl_align m e (fexp Double.prec Double.emax (Z.pos (digits2_pos m) + e)))
    as [mz ez].
  apply binary_round_aux_signo.
Qed.

Lemma truncar_con_signo (s : bool) (m : positive) (e z : Z) :
  Double.truncar (binary_round Double.prec Double.emax s m e) = Some z ->
  if s then z <= 0 else 0 <= z.
Proof.
  pose proof (binary_round_signo s m e) as Hs.
  destruct (binary_round Double.prec Double.emax s m e) as [s' | s' | | s' m' e'];
    simpl; try discriminate.
  - intros [= <-]. destruct s; lia.
  - intros [= <-]. subst s'. pose proof (parte_entera_no_negativa m' e').
    destruct s; lia.
Qed.

(** [std::round] keeps the sign of a finite number. *)
Lemma round_con_signo (s : bool) (m : positive) (e z : Z) :
  Double.truncar (Double.round (S754_finite s m e)) = Some z ->
  if s then z <= 0 else 0 <= z.
Proof.
  unfold Double.round.
  pose proof (parte_entera_no_negativa m e) as Hq.
  set (q := Double.parte_entera m e + (if Double.medio_o_mas m e then 1 else 0)).
  assert (Hq' : 0 <= q) by (unfold q; destruct (Double.medio_o_mas m e); lia).
  destruct q as [|p|p]; [| |lia].
  - destruct s; simpl; intros [= <-]; lia.
  - destruct s; simpl; apply truncar_con_signo.
Qed.

Lemma a_int_definido_truncar (x : Double.t) (z : Z) :
  Double.a_int_definido x = Some z -> Double.truncar x = Some z.
Proof.
  unfold Double.a_int_definido. destruct (Double.truncar x) as [y|]; [|discriminate].
  destruct ((Double.INT_MIN <=? y) && (y <=? Double.INT_MAX)); [|discriminate].
  intros [= <-]. reflexivity.
Qed.

Lemma suma_t_restantes_bucle (l : list Tarea) (a : Z) :
  fold_left (fun suma t => suma + tiempo t) l a
  = a + fold_right Z.add 0 (map tiempo l).
Proof.
  revert a. induction l as [|x l IH]; intros a; simpl; [lia|]. rewrite IH. lia.
Qed.

(** *** Sums of integers held in a [double]

    Below [2^53] a [double] holds every integer, and the sum of two such
    integers is computed without rounding. *)

Lemma iter_pos_iter {A : Type} (f : A -> A) (n : positive) (x : A) :
  iter_pos f n x = Pos.iter f x n.
Proof.
  revert x. induction n as [n IH | n IH |]; intros x; simpl.
  - rewrite !IH, !Pos.iter_swap. reflexivity.
  - rewrite !IH. reflexivity.
  - reflexivity.
Qed.

Lemma iter_pos_nat {A : Type} (f : A -> A) (n : positive) (x : A) :
  iter_pos f n x = Nat.iter (Pos.to_nat n) f x.
Proof. rewrite iter_pos_iter. apply Pos2Nat.inj_iter. Qed.

Lemma Pos_iter_por2 (m : positive) (n : positive) :
  Pos.iter xO m n = por2 m (Pos.to_nat n).
Proof. apply Pos2Nat.inj_iter. Qed.

Lemma por2_por2 (m : positive) (a b : nat) : por2 (por2 m a) b = por2 m (a + b).
Proof.
  unfold por2. rewrite Nat.add_comm. induction b; simpl; congruence.
Qed.

Lemma por2_suma (a b : positive) (k : nat) :
  (por2 a k + por2 b k)%positive = por2 (a + b) k.
Proof. unfold por2. induction k; simpl; [reflexivity|]. now rewrite IHk. Qed.

Lemma digits_por2 (m : positive) (k : nat) :
  Z.pos (digits2_pos (por2 m k)) = Z.pos (digits2_pos m) + Z.of_nat k.
Proof.
  unfold por2. induction k; simpl Nat.iter; [lia|].
  cbn [digits2_pos]. rewrite Pos2Z.inj_succ, IHk. lia.
Qed.

Lemma digits_cota (p : positive) (n : nat) :
  Z.pos p < 2 ^ Z.of_nat n -> Z.pos (digits2_pos p) <= Z.of_nat n.
Proof.
  revert n. induction p as [q IH | q IH |]; intros n Hp.
  - destruct n as [|n]; [simpl in Hp; lia|].
    rewrite Nat2Z.inj_succ, Z.pow_succ_r in Hp by lia.
    cbn [digits2_pos]. rewrite Pos2Z.inj_succ. specialize (IH n). lia.
  - destruct n as [|n]; [simpl in Hp; lia|].
    rewrite Nat2Z.inj_succ, Z.pow_succ_r in Hp by lia.
    cbn [digits2_pos]. rewrite Pos2Z.inj_succ. specialize (IH n). lia.
  - destruct n as [|n]; [simpl in Hp; lia|]. simpl. lia.
Qed.

Lemma shr_exacto (q : positive) (k : nat) :
  Nat.iter k shr_1 {| shr_m := Z.pos (por2 q k); shr_r := false; shr_s := false |}
  = {| shr_m := Z.pos q; shr_r := false; shr_s := false |}.
Proof.
  induction k as [|k IH]; [reflexivity|].
  rewrite Nat.iter_succ_r. unfold por2. simpl Nat.iter. simpl shr_1. exact IH.
Qed.

Lemma shl_align_por2 (m : positive) (e e' : Z) :
  e' <= e -> shl_align m e e' = (por2 m (Z.to_nat (e - e')), e').
Proof.
  intros Hle. unfold shl_align. destruct (e' - e) as [|d|d] eqn:Hd; try lia.
  - assert (e = e') by lia. subst e'. rewrite Z.sub_diag. reflexivity.
  - rewrite Pos_iter_por2. f_equal. f_equal. lia.
Qed.

(** A mantissa of 53 bits followed by [n] zero bits is rounded exactly. *)
Lemma binary_round_aux_exacto (q : positive) (n : nat) (e : Z) :
  Z.pos (digits2_pos q) = 53 ->
  -1074 <= e + Z.of_nat n <= 971 ->
  binary_round_aux Double.prec Double.emax false (Z.pos (por2 q n)) e loc_Exact
  = S754_finite false q (e + Z.of_nat n).
Proof.
  intros Hq He. unfold binary_round_aux.
  assert (H1 : shr_fexp Double.prec Double.emax (Z.pos (por2 q n)) e loc_Exact
               = ({| shr_m := Z.pos q; shr_r := false; shr_s := false |}, e + Z.of_nat n)).
  { unfold shr_fexp, shr. cbn [Zdigits2]. rewrite digits_por2, Hq.
    unfold fexp, emin, Double.prec, Double.emax.
    replace (Z.max (53 + Z.of_nat n + e - 53) (3 - 1024 - 53) - e) with (Z.of_nat n) by lia.
    destruct n as [|n].
    - simpl. f_equal. lia.
    - cbn [Z.of_nat]. rewrite iter_pos_nat, SuccNat2Pos.id_succ.
      cbn [shr_record_of_loc]. rewrite shr_exacto. f_equal. }
  rewrite H1. cbn [shr_m loc_of_shr_record round_nearest_even].
  assert (H2 : shr_fexp Double.prec Double.emax (Z.pos q) (e + Z.of_nat n) loc_Exact
               = ({| shr_m := Z.pos q; shr_r := false; shr_s := false |}, e + Z.of_nat n)).
  { unfold shr_fexp, shr. cbn [Zdigits2]. rewrite Hq.
    unfold fexp, emin, Double.prec, Double.emax.
    replace (Z.max (53 + (e + Z.of_nat n) - 53) (3 - 1024 - 53) - (e + Z.of_nat n)) with 0 by lia.
    reflexivity. }
  rewrite H2. cbn [shr_m]. unfold Double.emax, Double.prec.
  destruct (e + Z.of_nat n <=? 1024 - 53) eqn:Hle; [reflexivity|].
  apply Z.leb_gt in Hle. lia.
Qed.

(** The double of [p * 2^k * 2^(-k)] is that of [p]: the mantissa of [p]
    moved to 53 bits. *)
Lemma binary_round_por2 (p : positive) (k : nat) :
  Z.pos (digits2_pos p) <= 53 ->
  binary_round Double.prec Double.emax false (por2 p k) (- Z.of_nat k)
  = S754_finite false (por2 p (Z.to_nat (53 - Z.pos (digits2_pos p))))
                      (Z.pos (digits2_pos p) - 53).
Proof.
  intros Hd. unfold binary_round.
  set (d := Z.pos (digits2_pos p)) in *.
  assert (Hd1 : 1 <= d) by (unfold d; lia).
  rewrite digits_por2. fold d.
  replace (fexp Double.prec Double.emax (d + Z.of_nat k + - Z.of_nat k)) with (d - 53)
    by (unfold fexp, emin, Double.prec, Double.emax; lia).
  destruct (Z_le_gt_dec (d - 53) (- Z.of_nat k)) as [Hle | Hgt].
  - rewrite shl_align_por2 by exact Hle. rewrite por2_por2.
    replace (k + Z.to_nat (- Z.of_nat k - (d - 53)))%nat with (Z.to_nat (53 - d)) by lia.
    replace (por2 p (Z.to_nat (53 - d))) with (por2 (por2 p (Z.to_nat (53 - d))) 0) at 1
      by reflexivity.
    rewrite binary_round_aux_exacto.
    + f_equal. change (Z.of_nat 0) with 0. lia.
    + rewrite digits_por2. fold d. lia.
    + change (Z.of_nat 0) with 0. lia.
  - assert (Hal : shl_align (por2 p k) (- Z.of_nat k) (d - 53) = (por2 p k, - Z.of_nat k)).
    { unfold shl_align. destruct (d - 53 - - Z.of_nat k) eqn:Hx; try reflexivity. lia. }
    rewrite Hal.
    replace (por2 p k)
      with (por2 (por2 p (Z.to_nat (53 - d))) (k - Z.to_nat (53 - d)))
      by (rewrite por2_por2; f_equal; lia).
    rewrite binary_round_aux_exacto.
    + f_equal. lia.
    + rewrite digits_por2. fold d. lia.
    + lia.
Qed.

Lemma de_int_positivo (p : positive) :
  Z.pos (digits2_pos p) <= 53 ->
  Double.de_int (Z.pos p)
  = S754_finite false (por2 p (Z.to_nat (53 - Z.pos (digits2_pos p))))
                      (Z.pos (digits2_pos p) - 53).
Proof.
  intros Hd. unfold Double.de_int, binary_normalize.
  exact (binary_round_por2 p 0 Hd).
Qed.

Lemma add_de_int_positivos (p1 p2 : positive) :
  Z.pos (p1 + p2) < 2 ^ 53 ->
  Double.add (Double.de_int (Z.pos p1)) (Double.de_int (Z.pos p2)) = Double.de_int (Z.pos (p1 + p2)).
Proof.
  intros Hs.
  assert (H12 : Z.pos (digits2_pos (p1 + p2)) <= 53).
  { apply (digits_cota _ 53). exact Hs. }
  assert (H1 : Z.pos (digits2_pos p1) <= 53).
  { apply (digits_cota _ 53). change (Z.of_nat 53) with 53. lia. }
  assert (H2 : Z.pos (digits2_pos p2) <= 53).
  { apply (digits_cota _ 53). change (Z.of_nat 53) with 53. lia. }
  rewrite (de_int_positivo p1 H1), (de_int_positivo p2 H2), (de_int_positivo _ H12).
  set (d1 := Z.pos (digits2_pos p1)) in *. set (d2 := Z.pos (digits2_pos p2)) in *.
  assert (1 <= d1) by (unfold d1; lia). assert (1 <= d2) by (unfold d2; lia).
  unfold Double.add, SFadd.
  rewrite !shl_align_por2 by lia. cbn [fst cond_Zopp]. rewrite !por2_por2.
  set (ez := Z.min (d1 - 53) (d2 - 53)).
  replace (Z.to_nat (53 - d1) + Z.to_nat (d1 - 53 - ez))%nat with (Z.to_nat (- ez)) by lia.
  replace (Z.to_nat (53 - d2) + Z.to_nat (d2 - 53 - ez))%nat with (Z.to_nat (- ez)) by lia.
  rewrite <- Pos2Z.inj_add, por2_suma. unfold binary_normalize.
  replace ez with (- Z.of_nat (Z.to_nat (- ez))) at 2 by lia.
  apply binary_round_por2. exact H12.
Qed.

Lemma add_de_int (a b : Z) :
  0 <= a -> 0 <= b -> a + b < 2 ^ 53 ->
  Double.add (Double.de_int a) (Double.de_int b) = Double.de_int (a + b).
Proof.
  intros Ha Hb Hs. destruct a as [|p1|p1]; [| |lia]; destruct b as [|p2|p2]; try lia.
  - reflexivity.
  - assert (Hd : Z.pos (digits2_pos p2) <= 53) by (apply (digits_cota _ 53); exact Hs).
    simpl Z.add. rewrite (de_int_positivo p2 Hd). reflexivity.
  - assert (Hd : Z.pos (digits2_pos p1) <= 53).
    { apply (digits_cota _ 53). rewrite Z.add_0_r in Hs. exact Hs. }
    rewrite Z.add_0_r. rewrite (de_int_positivo p1 Hd). reflexivity.
  - apply add_de_int_positivos. exact Hs.
Qed.

Lemma suma_no_negativa (l : list Z) :
  Forall (fun x => 0 <= x) l -> 0 <= fold_right Z.add 0 l.
Proof. induction 1; simpl; lia. Qed.

(** The loop that accumulates the slack in a [double] computes the sum of
    the slacks, as long as that sum stays below [2^53]. *)
Lemma suma_espacio_libre_bucle (c : Z) (l : list Maquina) (a : Z) :
  0 <= a ->
  Forall (fun m => tiempo_ocupado m <= c) l ->
  a + fold_right Z.add 0 (map (fun m => c - tiempo_ocupado m) l) < 2 ^ 53 ->
  fold_left (fun suma m => Double.add suma (Double.de_int (c - tiempo_ocupado m)))
            l (Double.de_int a)
  = Double.de_int (a + fold_right Z.add 0 (map (fun m => c - tiempo_ocupado m) l)).
Proof.
  revert a. induction l as [|x l IH]; intros a Ha Hall Hs; simpl.
  - now rewrite Z.add_0_r.
  - inversion Hall as [|? ? Hx Hl]; subst. simpl in Hs.
    assert (Hresto : 0 <= fold_right Z.add 0 (map (fun m => c - tiempo_ocupado m) l)).
    { apply suma_no_negativa. apply Forall_map.
      apply (Forall_impl _ (fun m (Hm : tiempo_ocupado m <= c) => proj2 (Z.le_0_sub _ _) Hm)).
      exact Hl. }
    rewrite add_de_int by lia. rewrite IH by (try assumption; lia).
    f_equal. lia.
Qed.

(** The value that the code clamps and rounds is the excess of the average
    remaining load over the average slack. *)
Lemma calcularHeuristica2_exceso `{Plataforma} (e : Estado) :
  holgura_total e < 2 ^ 53 ->
  calcularHeuristica2 e
  = static_cast_int
      (Double.round
         (if Double.ltb (exceso_promedio e) (Double.de_int 0)
          then Double.de_int 0 else exceso_promedio e)).
Proof.
  intros Hs. unfold calcularHeuristica2, exceso_promedio, carga_restante.
  rewrite suma_t_restantes_bucle.
  change (fold_left (fun tiempo_max m => Z.max tiempo_max (tiempo_ocupado m)) (M e) 0)
    with (calcularCoste e).
  change Double.cero with (Double.de_int 0).
  rewrite suma_espacio_libre_bucle.
  - reflexivity.
  - lia.
  - apply Forall_forall. apply calcularCoste_miembro.
  - exact Hs.
Qed.

(** C5.  With [M] machines, [R] the total duration of the pending tasks,
    [C = g(state)], [S] the sum over the machines of [C - busyTime],
    [averageSlack = S / M] and [averageRemainingLoad = R / M], the
    heuristic is [max(0, round(averageRemainingLoad - averageSlack))],
    where the two quotients and the difference are the operations of
    [double], each rounded to nearest, and [round] is [std::round].  [R]
    and [S] are integer sums.  The statement covers the states in which
    the integers of the function are [int]s (the number of machines, the
    sums of pending durations, each difference [C - busyTime]), in which
    the slack [S] is below [2^53], so that the [double] in which the code
    accumulates it holds it exactly, and in which the rounded value
    converts to an [int] (it is finite and in the range of [int]), which
    is where C++ defines the result. *)
Theorem calcularHeuristica2_formula `{Plataforma} (estado : Estado) (z : Z) :
  Z.of_nat (length (M estado)) <= Double.INT_MAX ->
  suma_absoluta (map tiempo (T estado)) <= Double.INT_MAX ->
  (forall m, In m (M estado) -> calcularCoste estado - tiempo_ocupado m <= Double.INT_MAX) ->
  holgura_total estado < 2 ^ 53 ->
  Double.a_int_definido (Double.round (exceso_promedio estado)) = Some z ->
  calcularHeuristica2 estado = Z.max 0 z.
Proof.
  intros _ _ _ Hs Hz. rewrite calcularHeuristica2_exceso by exact Hs.
  pose proof (a_int_definido_truncar _ _ Hz) as Ht.
  destruct (exceso_promedio estado) as [s | s | | s m e] eqn:Hx.
  - simpl in Hz. injection Hz as <-. destruct s; reflexivity.
  - discriminate.
  - discriminate.
  - apply round_con_signo in Ht. destruct s.
    + change (Double.ltb (S754_finite true m e) (Double.de_int 0)) with true.
      cbv iota. rewrite Z.max_l by exact Ht. reflexivity.
    + change (Double.ltb (S754_finite false m e) (Double.de_int 0)) with false.
      cbv iota. unfold static_cast_int. rewrite Hz. rewrite Z.max_r by exact Ht.
      reflexivity.
Qed.

Lemma calcularHeuristica2_formula_testigo :
  Z.of_nat (length (M (estado_de_main 2 [5; 5; 3]))) <= Double.INT_MAX
  /\ suma_absoluta (map tiempo (T (estado_de_main 2 [5; 5; 3]))) <= Double.INT_MAX
  /\ (forall m, In m (M (estado_de_main 2 [5; 5; 3])) ->
                calcularCoste (estado_de_main 2 [5; 5; 3]) - tiempo_ocupado m
                <= Double.INT_MAX)
  /\ holgura_total (estado_de_main 2 [5; 5; 3]) < 2 ^ 53
  /\ Double.a_int_definido (Double.round (exceso_promedio (estado_de_main 2 [5; 5; 3])))
     = Some 7
  /\ @calcularHeuristica2 plataforma_int_min (estado_de_main 2 [5; 5; 3]) = Z.max 0 7.
Proof.
  assert (Hn : Z.of_nat (length (M (estado_de_main 2 [5; 5; 3]))) <= Double.INT_MAX).
  { vm_compute. discriminate. }
  assert (Hr : suma_absoluta (map tiempo (T (estado_de_main 2 [5; 5; 3])))
               <= Double.INT_MAX).
  { vm_compute. discriminate. }
  assert (Hd : forall m, In m (M (estado_de_main 2 [5; 5; 3])) ->
                 calcularCoste (estado_de_main 2 [5; 5; 3]) - tiempo_ocupado m
                 <= Double.INT_MAX).
  { intros m [<- | [<- | []]]; vm_compute; discriminate. }
  assert (Hs : holgura_total (estado_de_main 2 [5; 5; 3]) < 2 ^ 53).
  { vm_compute. reflexivity. }
  assert (Hz : Double.a_int_definido
                 (Double.round (exceso_promedio (estado_de_main 2 [5; 5; 3]))) = Some 7).
  { vm_compute. reflexivity. }
  split; [exact Hn | split; [exact Hr | split; [exact Hd | split; [exact Hs |
    split; [exact Hz |]]]]].
  exact (@calcularHeuristica2_formula plataforma_int_min (estado_de_main 2 [5; 5; 3]) 7
           Hn Hr Hd Hs Hz).
Defined.

(** Read in exact arithmetic the formula is not what the function
    computes.  In the state reached from six idle machines and the
    durations 1 and 8 by assigning task 1 to machine 1, [R = 8] and
    [S = 5]: the exact [(R - S) / M] is one half, which rounds to 1, while
    the [double]s [8/6] and [5/6] differ by a little less than one half
    and the function returns 0, whatever the platform. *)
Theorem calcularHeuristica2_no_exacta :
  alcanzable (estado_de_main 6 [1; 8]) ejemplo_empate
  /\ length (M ejemplo_empate) = 6%nat
  /\ carga_restante ejemplo_empate = 8
  /\ calcularCoste ejemplo_empate = 1
  /\ holgura_total ejemplo_empate = 5
  /\ Valor.heuristica_exacta ejemplo_empate = 1
  /\ exceso_promedio ejemplo_empate = S754_finite false 9007199254740990 (-54)
  /\ (forall P : Plataforma, @calcularHeuristica2 P ejemplo_empate = 0)
  /\ (forall P : Plataforma,
        @calcularHeuristica2 P ejemplo_empate <> Valor.heuristica_exacta ejemplo_empate).
Proof.
  split.
  { apply alcanzable_sucesor with (estado_de_main 6 [1; 8]); [constructor|].
    vm_compute. now left. }
  repeat split; intros; vm_compute; try reflexivity. discriminate.
Qed.

(** The heuristic on some states: 13/2 rounds to 7; a negative excess
    gives 0; and with ten machines, [R = 7] and [S = 2], the difference of
    the doubles 7/10 and 2/10 is the double just below one half, which
    rounds to 0. *)
Example calcularHeuristica2_ejemplos :
  @calcularHeuristica2 plataforma_int_min (estado_de_main 2 [5; 5; 3]) = 7
  /\ @calcularHeuristica2 plataforma_int_min
       {| M := [ {| Maquina_id := 1; tiempo_ocupado := 8 |};
                 {| Maquina_id := 2; tiempo_ocupado := 0 |} ];
          T := [ {| Tarea_id := 2; tiempo := 5 |} ];
          Asignaciones := [] |} = 0
  /\ exceso_promedio
       {| M := {| Maquina_id := 1; tiempo_ocupado := 0 |}
               :: map (fun i => {| Maquina_id := i; tiempo_ocupado := 2 |})
                      [2; 3; 4; 5; 6; 7; 8; 9; 10];
          T := [ {| Tarea_id := 1; tiempo := 7 |} ];
          Asignaciones := [] |} = S754_finite false 9007199254740991 (-54)
  /\ @calcularHeuristica2 plataforma_int_min
       {| M := {| Maquina_id := 1; tiempo_ocupado := 0 |}
               :: map (fun i => {| Maquina_id := i; tiempo_ocupado := 2 |})
                      [2; 3; 4; 5; 6; 7; 8; 9; 10];
          T := [ {| Tarea_id := 1; tiempo := 7 |} ];
          Asignaciones := [] |} = 0.
Proof. repeat split; vm_compute; reflexivity. Qed.

(** ** Enumerating the reachable states *)

Lemma alcanzable_nivel (inicial e : Estado) :
  alcanzable inicial e <-> exists k, In e (nivel inicial k).
Proof.
  split.
  - induction 1 as [|e e' _ [k Hk] Hin].
    + exists O. now left.
    + exists (S k). simpl. apply in_flat_map. eauto.
  - intros [k Hk]. revert e Hk. induction k as [|k IH]; simpl; intros e Hk.
    + destruct Hk as [<- | []]. constructor.
    + apply in_flat_map in Hk. destruct Hk as (x & Hx & Hin).
      apply alcanzable_sucesor with x; auto.
Qed.

Lemma nivel_pendientes (inicial e : Estado) (k : nat) :
  In e (nivel inicial k) -> (length (T e) + k = length (T inicial))%nat.
Proof.
  revert e. induction k as [|k IH]; simpl; intros e Hk.
  - destruct Hk as [<- | []]. lia.
  - apply in_flat_map in Hk. destruct Hk as (x & Hx & Hin).
    apply IH in Hx. apply sucesor_pendientes in Hin. lia.
Qed.

Lemma alcanzable_todos (inicial e : Estado) :
  alcanzable inicial e <-> In e (todos_alcanzables inicial).
Proof.
  unfold todos_alcanzables. rewrite alcanzable_nivel, in_flat_map. split.
  - intros [k Hk]. exists k. split; [|assumption].
    apply nivel_pendientes in Hk. apply in_seq. lia.
  - intros (k & _ & Hk). eauto.
Qed.

(** A property checked on the enumeration holds of every reachable state. *)
Lemma por_enumeracion (inicial : Estado) (P : Estado -> bool) :
  forallb P (todos_alcanzables inicial) = true ->
  forall e, alcanzable inicial e -> P e = true.
Proof.
  intros Hall e He. rewrite forallb_forall in Hall. apply Hall.
  now apply alcanzable_todos.
Qed.

Lemma prometedor_sucesor (cota : Z) (e : Estado) :
  prometedor cota e = true -> T e <> [] ->
  exists e', In e' (generarSucesores e) /\ prometedor cota e' = true.
Proof.
  unfold prometedor. intros Hp Hne.
  destruct (T e) as [|t0 T0] eqn:HT; [contradiction|].
  simpl in Hp. rewrite HT in Hp. apply existsb_exists in Hp.
  destruct Hp as (s & Hs & Hp). exists s. split; [assumption|].
  pose proof (sucesor_pendientes _ _ Hs) as Hlen. rewrite HT in Hlen. simpl in Hlen.
  injection Hlen as ->. exact Hp.
Qed.

(** ** Reference scenario A: two machines, durations 5, 5, 3 *)

Section EscenarioA.
Context `{Plataforma} {Q : ColaPrioridad} {QL : ColaLegal Q}.

Lemma todos_revisados_A : forallb revisado_A (todos_alcanzables inicial_A) = true.
Proof. vm_compute. reflexivity. Qed.

(** States that the closed list takes for one key are equally promising. *)
Lemma claves_revisadas_A :
  forallb (fun a =>
             forallb (fun b => implb (equivalentes a b)
                                     (Bool.eqb (prometedor 8 a) (prometedor 8 b)))
                     (todos_alcanzables inicial_A))
          (todos_alcanzables inicial_A) = true.
Proof. vm_compute. reflexivity. Qed.

Lemma prometedor_clave_A (a b : Estado) :
  alcanzable inicial_A a -> alcanzable inicial_A b -> clave a = clave b ->
  prometedor 8 a = prometedor 8 b.
Proof.
  intros Ha Hb Hc. apply alcanzable_todos in Ha, Hb.
  pose proof claves_revisadas_A as Hall.
  rewrite forallb_forall in Hall. specialize (Hall a Ha).
  rewrite forallb_forall in Hall. specialize (Hall b Hb).
  apply equivalentes_clave in Hc. rewrite Hc in Hall. simpl in Hall.
  now apply Bool.eqb_prop.
Qed.

Lemma prometedor_cota_A (e : Estado) :
  alcanzable inicial_A e -> prometedor 8 e = true -> f_cost (nodo_de e) <= 8.
Proof.
  intros He Hp. pose proof (por_enumeracion _ _ todos_revisados_A e He) as Hr.
  unfold revisado_A in Hr. apply andb_true_iff in Hr. destruct Hr as [Hr _].
  rewrite Hp in Hr. simpl in Hr. now apply Z.leb_le.
Qed.

Lemma meta_A (r : Estado) :
  alcanzable inicial_A r -> T r = [] -> f_cost (nodo_de r) <= 8 -> calcularCoste r = 8.
Proof.
  intros He HT Hf. pose proof (por_enumeracion _ _ todos_revisados_A r He) as Hr.
  unfold revisado_A in Hr. apply andb_true_iff in Hr. destruct Hr as [_ Hr].
  rewrite HT in Hr. apply Z.leb_le in Hf. rewrite Hf in Hr. simpl in Hr.
  now apply Z.eqb_eq.
Qed.

(** C1.  With two machines and the durations 5, 5, 3 (tasks 1, 2, 3, idle
    machines), the search returns a state without pending tasks whose
    makespan is 8.  It does so for every priority queue that obeys the
    laws, whatever node it puts on top among those of least [f_cost], and
    within 80 iterations of the loop. *)
Theorem A_estrella_escenario_A (combustible : nat) :
  (80 <= combustible)%nat ->
  exists r, A_estrella combustible (estado_de_main 2 [5; 5; 3]) = Some r
            /\ T r = [] /\ calcularCoste r = 8.
Proof.
  intros Hc.
  destruct (A_estrella_termina combustible (estado_de_main 2 [5; 5; 3])) as [r Hr].
  { simpl. lia. }
  exists r. split; [exact Hr |].
  destruct (A_estrella_meta inicial_A (prometedor 8) 8) with (combustible := combustible) (r := r)
    as (Halc & HT & Hf).
  - vm_compute. reflexivity.
  - apply prometedor_clave_A.
  - apply prometedor_cota_A.
  - intros e _. apply prometedor_sucesor.
  - exact Hr.
  - split; [exact HT |]. now apply meta_A.
Qed.

End EscenarioA.

Lemma A_estrella_escenario_A_testigo :
  (80 <= 80)%nat
  /\ exists r, @A_estrella plataforma_int_min ColaLista.cola 80 (estado_de_main 2 [5; 5; 3])
               = Some r
               /\ T r = [] /\ calcularCoste r = 8.
Proof.
  split; [apply le_n |].
  exact (@A_estrella_escenario_A plataforma_int_min ColaLista.cola ColaListaLegal.legal
           80%nat (le_n 80)).
Defined.

(** The run of scenario A with the list queue: tasks 1 and 3 go to machine
    1, then task 2 to machine 2. *)
Example A_estrella_escenario_A_lista :
  @A_estrella plataforma_int_min ColaLista.cola 80 (estado_de_main 2 [5; 5; 3])
  = Some {| M := [ {| Maquina_id := 1; tiempo_ocupado := 8 |};
                   {| Maquina_id := 2; tiempo_ocupado := 5 |} ];
            T := [];
            Asignaciones := [ {| tarea_id := 1; maquina_id := 1; posicion := 0 |};
                              {| tarea_id := 3; maquina_id := 1; posicion := 0 |};
                              {| tarea_id := 2; maquina_id := 2; posicion := 0 |} ] |}.
Proof. vm_compute. reflexivity. Qed.

(** * Further properties *)

(** ** The order on states *)

Section Orden_lexicografico.
Context {A : Type} (lt : A -> A -> bool).
Hypothesis lt_asimetrica : forall a b, lt a b = true -> lt b a = false.
Hypothesis lt_intermedio : forall a b c, lt a c = true -> lt a b = true \/ lt b c = true.

Lemma lt_irreflexiva (a : A) : lt a a = false.
Proof.
  destruct (lt a a) eqn:Ha; [|reflexivity].
  pose proof (lt_asimetrica a a Ha). congruence.
Qed.

Lemma vector_lt_irreflexiva (u : list A) : vector_lt lt u u = false.
Proof. induction u as [|a u IH]; simpl; [reflexivity|]. now rewrite lt_irreflexiva. Qed.

Lemma vector_lt_asimetrica (u v : list A) :
  vector_lt lt u v = true -> vector_lt lt v u = false.
Proof.
  revert v. induction u as [|a u IH]; intros [|b v]; simpl; try easy.
  destruct (lt a b) eqn:Hab.
  - intros _. now rewrite (lt_asimetrica a b Hab).
  - destruct (lt b a) eqn:Hba; [discriminate|]. apply IH.
Qed.

Lemma vector_lt_transitiva (u v w : list A) :
  vector_lt lt u v = true -> vector_lt lt v w = true -> vector_lt lt u w = true.
Proof.
  revert v w. induction u as [|a u IH]; intros [|b v] [|c w]; simpl; try easy.
  destruct (lt a b) eqn:Hab.
  - intros _. destruct (lt b c) eqn:Hbc.
    + intros _. destruct (lt_intermedio a c b Hab) as [Hac | Hcb].
      * now rewrite Hac.
      * pose proof (lt_asimetrica b c Hbc). congruence.
    + destruct (lt c b) eqn:Hcb; [discriminate|]. intros _.
      destruct (lt_intermedio a c b Hab) as [Hac | Hcb']; [now rewrite Hac | congruence].
  - destruct (lt b a) eqn:Hba; [discriminate|]. intros Huv.
    destruct (lt b c) eqn:Hbc.
    + intros _. destruct (lt_intermedio b a c Hbc) as [Hba' | Hac]; [congruence|].
      now rewrite Hac.
    + destruct (lt c b) eqn:Hcb; [discriminate|]. intros Hvw.
      destruct (lt a c) eqn:Hac; [reflexivity|].
      destruct (lt c a) eqn:Hca.
      * destruct (lt_intermedio c b a Hca); congruence.
      * now apply (IH v w).
Qed.

End Orden_lexicografico.

Lemma vector_lt_por_ids (u v : list Tarea) :
  vector_lt Tarea_lt u v = vector_lt Z.ltb (map Tarea_id u) (map Tarea_id v).
Proof.
  revert v. induction u as [|a u IH]; intros [|b v]; simpl; try reflexivity.
  unfold Tarea_lt at 1 2. now rewrite IH.
Qed.

Lemma Maquina_lt_asimetrica (a b : Maquina) :
  Maquina_lt a b = true -> Maquina_lt b a = false.
Proof.
  unfold Maquina_lt. rewrite orb_true_iff, orb_false_iff, !andb_true_iff, !andb_false_iff.
  rewrite !Z.ltb_lt, !Z.ltb_ge, !Z.eqb_eq, !Z.eqb_neq. lia.
Qed.

Lemma Maquina_lt_intermedio (a b c : Maquina) :
  Maquina_lt a c = true -> Maquina_lt a b = true \/ Maquina_lt b c = true.
Proof.
  unfold Maquina_lt. rewrite !orb_true_iff, !andb_true_iff.
  rewrite !Z.ltb_lt, !Z.eqb_eq. lia.
Qed.

Lemma ltb_asimetrica (a b : Z) : (a <? b) = true -> (b <? a) = false.
Proof. rewrite Z.ltb_lt, Z.ltb_ge. lia. Qed.

Lemma ltb_intermedio (a b c : Z) :
  (a <? c) = true -> (a <? b) = true \/ (b <? c) = true.
Proof. rewrite !Z.ltb_lt. lia. Qed.

(** [Estado::operator<] compares the keys lexicographically: the ids of
    the pending tasks, then the machines. *)
Lemma Estado_lt_clave (a b : Estado) :
  Estado_lt a b
  = if list_eq_dec Z.eq_dec (fst (clave a)) (fst (clave b))
    then vector_lt Maquina_lt (snd (clave a)) (snd (clave b))
    else vector_lt Z.ltb (fst (clave a)) (fst (clave b)).
Proof.
  unfold Estado_lt, clave. simpl. rewrite vector_lt_por_ids.
  destruct (list_eq_dec Z.eq_dec (map Tarea_id (T a)) (map Tarea_id (T b))) as [Heq | Hne].
  - apply vector_eq_ids in Heq. now rewrite Heq.
  - destruct (vector_eq Tarea_eq (T a) (T b)) eqn:Hv; [|reflexivity].
    apply vector_eq_ids in Hv. contradiction.
Qed.

(** X1.  [Estado::operator<] is a strict weak ordering, which is what
    [std::map<Estado,int>] needs of its key comparison: no state is less
    than itself, two states are never each less than the other, the
    order is transitive, and so is the equivalence "neither is less"
    under which the map identifies keys. *)
Theorem Estado_lt_orden_debil_estricto (a b c : Estado) :
  Estado_lt a a = false
  /\ (Estado_lt a b = true -> Estado_lt b a = false)
  /\ (Estado_lt a b = true -> Estado_lt b c = true -> Estado_lt a c = true)
  /\ (equivalentes a b = true -> equivalentes b c = true -> equivalentes a c = true).
Proof.
  rewrite !Estado_lt_clave.
  pose proof (vector_lt_irreflexiva Maquina_lt Maquina_lt_asimetrica) as HirrM.
  pose proof (vector_lt_irreflexiva Z.ltb ltb_asimetrica) as HirrZ.
  pose proof (vector_lt_asimetrica Maquina_lt Maquina_lt_asimetrica) as HasM.
  pose proof (vector_lt_asimetrica Z.ltb ltb_asimetrica) as HasZ.
  pose proof (vector_lt_transitiva Maquina_lt Maquina_lt_asimetrica Maquina_lt_intermedio)
    as HtrM.
  pose proof (vector_lt_transitiva Z.ltb ltb_asimetrica ltb_intermedio) as HtrZ.
  destruct (clave a) as [ia ma], (clave b) as [ib mb], (clave c) as [ic mc] eqn:Hc.
  simpl. repeat split.
  - destruct (list_eq_dec Z.eq_dec ia ia); [apply HirrM | contradiction].
  - destruct (list_eq_dec Z.eq_dec ia ib) as [-> | Hab].
    + destruct (list_eq_dec Z.eq_dec ib ib); [apply HasM | contradiction].
    + destruct (list_eq_dec Z.eq_dec ib ia) as [-> | _]; [contradiction | apply HasZ].
  - destruct (list_eq_dec Z.eq_dec ia ib) as [-> | Hab];
      destruct (list_eq_dec Z.eq_dec ib ic) as [-> | Hbc].
    + destruct (list_eq_dec Z.eq_dec ic ic); [apply HtrM | contradiction].
    + intros _ H2. destruct (list_eq_dec Z.eq_dec ib ic); [contradiction | exact H2].
    + intros H1 _. destruct (list_eq_dec Z.eq_dec ia ic); [contradiction | exact H1].
    + intros H1 H2. pose proof (HtrZ _ _ _ H1 H2) as H3.
      destruct (list_eq_dec Z.eq_dec ia ic) as [-> | _]; [|exact H3].
      rewrite HirrZ in H3. discriminate.
  - rewrite !equivalentes_clave. congruence.
Qed.

(** X2.  The equivalence under which the closed list identifies keys is
    [Estado::operator==], and both hold exactly when the two states have
    the same ids of pending tasks in the same order and the same machines
    with the same loads: the history, and the durations of the pending
    tasks, play no part. *)
Theorem equivalentes_es_Estado_eq (a b : Estado) :
  equivalentes a b = Estado_eq a b
  /\ (Estado_eq a b = true <-> map Tarea_id (T a) = map Tarea_id (T b) /\ M a = M b).
Proof.
  assert (Hc : clave a = clave b <-> map Tarea_id (T a) = map Tarea_id (T b) /\ M a = M b).
  { unfold clave. split; [intros [= -> ->]; auto | intros [-> ->]; reflexivity]. }
  split.
  - destruct (Estado_eq a b) eqn:He.
    + apply equivalentes_clave. now apply Estado_eq_clave.
    + destruct (equivalentes a b) eqn:Hq; [|reflexivity].
      apply equivalentes_clave, Estado_eq_clave in Hq. congruence.
  - rewrite Estado_eq_clave. exact Hc.
Qed.

(** ** The closed list *)

Lemma equivalentes_sim (a b : Estado) : equivalentes a b = equivalentes b a.
Proof. unfold equivalentes. apply andb_comm. Qed.

Lemma equivalentes_trans_bool (a b c : Estado) :
  equivalentes a b = true -> equivalentes b c = equivalentes a c.
Proof.
  intros Hab. apply equivalentes_clave in Hab.
  destruct (equivalentes b c) eqn:Hbc, (equivalentes a c) eqn:Hac; try reflexivity.
  - apply equivalentes_clave in Hbc.
    assert (Hx : equivalentes a c = true) by (apply equivalentes_clave; congruence).
    congruence.
  - apply equivalentes_clave in Hac.
    assert (Hx : equivalentes b c = true) by (apply equivalentes_clave; congruence).
    congruence.
Qed.

(** X3.  Writing and reading the closed list: after [closed_list[k] = v],
    [find] answers [v] for [k] and for every state with the key of [k],
    and answers as before for every other state. *)
Theorem map_find_tras_asignar (c : closed_list) (k k' : Estado) (v : Z) :
  map_find (map_asignar c k v) k'
  = if equivalentes k k' then Some v else map_find c k'.
Proof.
  induction c as [|[k0 v0] c IH]; simpl.
  - reflexivity.
  - destruct (equivalentes k0 k) eqn:H0k; simpl.
    + rewrite <- (equivalentes_trans_bool k0 k k' H0k).
      destruct (equivalentes k k'); reflexivity.
    + destruct (equivalentes k0 k') eqn:H0k'.
      * destruct (equivalentes k k') eqn:Hkk'; [|reflexivity].
        rewrite equivalentes_sim in H0k'.
        rewrite (equivalentes_trans_bool k' k0 k H0k') in H0k.
        rewrite equivalentes_sim in H0k. congruence.
      * exact IH.
Qed.

(** ** The cost is the largest load *)

Lemma mayor_alcanzado (v : list Maquina) (x : Z) :
  fold_left mayor v x = x \/ exists m, In m v /\ tiempo_ocupado m = fold_left mayor v x.
Proof.
  revert x. induction v as [|a v IH]; intros x; simpl; [now left|].
  destruct (IH (mayor x a)) as [Heq | (m & Hm & Heq)].
  - unfold mayor in *. destruct (Z.max_spec x (tiempo_ocupado a)) as [[_ Hmax] | [_ Hmax]].
    + right. exists a. split; [now left | congruence].
    + left. congruence.
  - right. exists m. split; [now right | assumption].
Qed.

(** X4.  [calcularCoste] returns the largest [tiempo_ocupado] of the
    machines, and 0 when there is no machine or every load is negative:
    it is not negative, no load exceeds it, and it is 0 or the load of
    some machine. *)
Theorem calcularCoste_es_el_maximo (e : Estado) :
  0 <= calcularCoste e
  /\ (forall m, In m (M e) -> tiempo_ocupado m <= calcularCoste e)
  /\ (calcularCoste e = 0 \/ exists m, In m (M e) /\ tiempo_ocupado m = calcularCoste e).
Proof.
  split; [apply mayor_desde | split].
  - intros m. apply mayor_miembro.
  - apply mayor_alcanzado.
Qed.

(** ** Work is neither lost nor created *)

Lemma suma_tras_erase {A : Type} (f : A -> Z) (v : list A) (it : nat) (a : A) :
  nth_error v it = Some a ->
  fold_right Z.add 0 (map f (erase v it)) + f a = fold_right Z.add 0 (map f v).
Proof.
  revert it. induction v as [|x v IH]; intros [|it]; simpl; try discriminate.
  - intros [= ->]. lia.
  - intros Hn. specialize (IH it Hn). lia.
Qed.

Lemma suma_tras_modificar (g : Maquina -> Maquina) (v : list Maquina) (it : nat)
      (a : Maquina) :
  nth_error v it = Some a ->
  fold_right Z.add 0 (map tiempo_ocupado (modificar g v it))
  = fold_right Z.add 0 (map tiempo_ocupado v) + (tiempo_ocupado (g a) - tiempo_ocupado a).
Proof.
  revert it. induction v as [|x v IH]; intros [|it]; simpl; try discriminate.
  - intros [= ->]. lia.
  - intros Hn. specialize (IH it Hn). lia.
Qed.

Lemma trabajo_tras_asignar (estado : Estado) (t m : Z) :
  suma_cargas (asignarTarea estado t m) + carga_restante (asignarTarea estado t m)
  = suma_cargas estado + carga_restante estado.
Proof.
  unfold asignarTarea.
  destruct (nth_error (T estado) (find_if (fun x => Tarea_id x =? t) (T estado)))
    as [tarea|] eqn:Htarea; [|reflexivity].
  destruct (nth_error (M estado) (find_if (fun x => Maquina_id x =? m) (M estado)))
    as [maquina|] eqn:Hmaquina; [|reflexivity].
  unfold suma_cargas, carga_restante. simpl.
  rewrite (suma_tras_modificar _ _ _ _ Hmaquina). simpl.
  pose proof (suma_tras_erase tiempo _ _ _ Htarea). lia.
Qed.

(** X5.  A transition moves work and keeps its total: when the new load
    is within [int], the loads of the machines plus the durations of the
    pending tasks add up to the same after [asignarTarea] as before, for
    every request, served or not. *)
Theorem asignarTarea_conserva_trabajo (estado : Estado) (t m : Z) :
  suma_en_rango estado t m ->
  suma_cargas (asignarTarea estado t m) + carga_restante (asignarTarea estado t m)
  = suma_cargas estado + carga_restante estado.
Proof. intros _. apply trabajo_tras_asignar. Qed.

Lemma asignarTarea_conserva_trabajo_testigo :
  suma_en_rango (estado_de_main 2 [5; 5; 3]) 3 2
  /\ suma_cargas (asignarTarea (estado_de_main 2 [5; 5; 3]) 3 2)
     + carga_restante (asignarTarea (estado_de_main 2 [5; 5; 3]) 3 2)
     = suma_cargas (estado_de_main 2 [5; 5; 3])
       + carga_restante (estado_de_main 2 [5; 5; 3]).
Proof.
  assert (Hr : suma_en_rango (estado_de_main 2 [5; 5; 3]) 3 2).
  { intros tarea maquina [<- | [<- | [<- | []]]] [<- | [<- | []]] _ _;
      unfold es_int, Double.INT_MIN, Double.INT_MAX; simpl; lia. }
  split; [exact Hr |].
  exact (asignarTarea_conserva_trabajo (estado_de_main 2 [5; 5; 3]) 3 2 Hr).
Defined.

Lemma trabajo_alcanzable (inicial e : Estado) :
  alcanzable inicial e ->
  suma_cargas e + carga_restante e = suma_cargas inicial + carga_restante inicial.
Proof.
  induction 1 as [|e e' _ IH Hin]; [reflexivity|].
  apply generarSucesores_In in Hin. destruct Hin as (ta & ma & _ & _ & ->).
  rewrite trabajo_tras_asignar. exact IH.
Qed.

(** ** Bounds on the makespan *)

Lemma alcanzable_maquinas (inicial e : Estado) :
  alcanzable inicial e -> length (M e) = length (M inicial).
Proof.
  induction 1 as [|e e' _ IH Hin]; [reflexivity|].
  apply sucesor_maquinas in Hin. congruence.
Qed.

Lemma suma_acotada {A : Type} (f : A -> Z) (c : Z) (v : list A) :
  (forall a, In a v -> f a <= c) ->
  fold_right Z.add 0 (map f v) <= Z.of_nat (length v) * c.
Proof.
  induction v as [|a v IH]; intros Hall; [simpl; lia|].
  cbn [map fold_right length]. rewrite Nat2Z.inj_succ.
  assert (f a <= c) by (apply Hall; now left).
  assert (fold_right Z.add 0 (map f v) <= Z.of_nat (length v) * c).
  { apply IH. intros x Hx. apply Hall. now right. }
  lia.
Qed.

Lemma trabajo_de_main (N : nat) (tiempos : list Z) :
  suma_cargas (estado_de_main N tiempos) = 0
  /\ carga_restante (estado_de_main N tiempos) = fold_right Z.add 0 tiempos.
Proof.
  unfold suma_cargas, carga_restante. simpl. split.
  - unfold maquinas_iniciales. rewrite map_map. simpl.
    induction (seq 1 N); simpl; lia.
  - now rewrite tiempos_de_tareas_desde.
Qed.

Lemma maquinas_de_main (N : nat) (tiempos : list Z) (e : Estado) :
  alcanzable (estado_de_main N tiempos) e -> length (M e) = N.
Proof.
  intros Halc. rewrite (alcanzable_maquinas _ _ Halc). simpl.
  unfold maquinas_iniciales. now rewrite length_map, length_seq.
Qed.

(** X6.  From the initial state of [main], with durations whose absolute
    values add up to an [int], in every reachable state the loads and the
    pending durations add up to the total of the durations, so that the
    work already assigned is at most [N] times the makespan; a state
    without pending tasks has a makespan of at least the total divided by
    the number of machines. *)
Theorem makespan_cota_del_promedio (N : nat) (tiempos : list Z) (e : Estado) :
  suma_absoluta tiempos <= Double.INT_MAX ->
  alcanzable (estado_de_main N tiempos) e ->
  suma_cargas e + carga_restante e = fold_right Z.add 0 tiempos
  /\ fold_right Z.add 0 tiempos - carga_restante e <= Z.of_nat N * calcularCoste e
  /\ (T e = [] -> fold_right Z.add 0 tiempos <= Z.of_nat N * calcularCoste e).
Proof.
  intros _ Halc. pose proof (trabajo_alcanzable _ _ Halc) as Htrabajo.
  destruct (trabajo_de_main N tiempos) as [H0 HR]. rewrite H0, HR in Htrabajo.
  assert (Hcota : suma_cargas e <= Z.of_nat N * calcularCoste e).
  { rewrite <- (maquinas_de_main N tiempos e Halc). unfold suma_cargas.
    apply suma_acotada. apply calcularCoste_miembro. }
  split; [lia | split; [lia |]].
  intros HT. unfold carga_restante in Htrabajo. rewrite HT in Htrabajo.
  simpl in Htrabajo. lia.
Qed.

Lemma makespan_cota_del_promedio_testigo :
  suma_absoluta [5; 5; 3] <= Double.INT_MAX
  /\ alcanzable (estado_de_main 2 [5; 5; 3]) (asignarTarea (estado_de_main 2 [5; 5; 3]) 3 2)
  /\ 3 + 10 = 13
  /\ 13 - 10 <= 2 * 3.
Proof.
  assert (Hsum : suma_absoluta [5; 5; 3] <= Double.INT_MAX).
  { vm_compute. discriminate. }
  assert (Halc : alcanzable (estado_de_main 2 [5; 5; 3])
                            (asignarTarea (estado_de_main 2 [5; 5; 3]) 3 2)).
  { apply alcanzable_sucesor with (estado_de_main 2 [5; 5; 3]); [constructor|].
    simpl. auto 10. }
  split; [exact Hsum | split; [exact Halc |]].
  pose proof (makespan_cota_del_promedio 2 [5; 5; 3] _ Hsum Halc) as (H1 & H2 & _).
  split; [exact H1 | exact H2].
Defined.

(** *** No task is longer than the makespan *)

Lemma historia_en_maquinas (inicial e : Estado) :
  Asignaciones inicial = [] ->
  alcanzable inicial e ->
  forall a, In a (Asignaciones e) -> In (maquina_id a) (map Maquina_id (M e)).
Proof.
  intros Hvacia Halc. induction Halc as [|e e' _ IH Hin].
  - rewrite Hvacia. intros a [].
  - destruct (sucesor_forma e e' Hin)
      as (T1 & tarea & T2 & M1 & maquina & M2 & HT & _ & HM & _ & ->).
    simpl. intros a Ha. rewrite map_app. simpl.
    assert (Hids : forall x, In x (map Maquina_id (M e)) ->
                             In x (map Maquina_id M1 ++ Maquina_id maquina :: map Maquina_id M2)).
    { intros x. rewrite HM, map_app. simpl. auto. }
    apply in_app_or in Ha. destruct Ha as [Ha | [<- | []]].
    + apply Hids. now apply IH.
    + simpl. apply in_or_app. right. now left.
Qed.

Lemma duracion_no_negativa (inicial : Estado) (t : Z) :
  (forall x, In x (T inicial) -> 0 <= tiempo x) -> 0 <= duracion inicial t.
Proof.
  intros Hdur. unfold duracion.
  destruct (find (fun x => Tarea_id x =? t) (T inicial)) as [x|] eqn:Hf; [|lia].
  apply find_some in Hf. now apply Hdur.
Qed.

Lemma carga_asignada_contiene (inicial : Estado) (h : list Asignacion) (a : Asignacion) :
  (forall t, 0 <= duracion inicial t) ->
  In a h ->
  duracion inicial (tarea_id a) <= carga_asignada inicial h (maquina_id a).
Proof.
  intros Hdur. unfold carga_asignada.
  induction h as [|b h IH]; simpl; [intros []|].
  assert (Hresto : 0 <= fold_right Z.add 0
                          (map (fun a0 => duracion inicial (tarea_id a0))
                               (filter (fun a0 => maquina_id a0 =? maquina_id a) h))).
  { apply suma_no_negativa. apply Forall_forall. intros x Hx.
    apply in_map_iff in Hx. destruct Hx as (y & <- & _). apply Hdur. }
  intros [-> | Hin].
  - rewrite Z.eqb_refl. simpl. lia.
  - specialize (IH Hin). destruct (maquina_id b =? maquina_id a); simpl; [|exact IH].
    specialize (Hdur (tarea_id b)). lia.
Qed.

Lemma tarea_de_tiempo (tiempos : list Z) (i d : Z) :
  In d tiempos -> exists x, In x (tareas_desde i tiempos) /\ tiempo x = d.
Proof.
  revert i. induction tiempos as [|d0 l IH]; intros i; simpl; [intros []|].
  intros [-> | Hin].
  - eexists. split; [now left | reflexivity].
  - destruct (IH (i + 1) Hin) as (x & Hx & Hd). exists x. auto.
Qed.

(** X7.  From the initial state of [main] with durations that are not
    negative and add up to an [int], a reachable state without pending
    tasks has a makespan of at least every duration: each task sits in the
    history, on a machine whose load counts it. *)
Theorem makespan_cota_de_la_tarea (N : nat) (tiempos : list Z) (e : Estado) (d : Z) :
  suma_absoluta tiempos <= Double.INT_MAX ->
  alcanzable (estado_de_main N tiempos) e ->
  T e = [] ->
  (forall x, In x tiempos -> 0 <= x) ->
  In d tiempos ->
  d <= calcularCoste e.
Proof.
  intros _ Halc HT Hpos Hd.
  set (inicial := estado_de_main N tiempos) in *.
  assert (Hdur : forall t, 0 <= duracion inicial t).
  { intros t. apply duracion_no_negativa. intros x Hx. apply Hpos.
    rewrite <- (tiempos_de_tareas_desde tiempos 0). now apply in_map. }
  destruct (tarea_de_tiempo tiempos 0 d Hd) as (x & Hx & Hxd).
  assert (Hid : In (Tarea_id x) (map tarea_id (Asignaciones e))).
  { pose proof (conservacion _ _ Halc) as Hperm. unfold ids_repartidos in Hperm.
    rewrite HT in Hperm. simpl in Hperm. rewrite app_nil_r in Hperm.
    apply (Permutation_in _ (Permutation_sym Hperm)). now apply in_map. }
  apply in_map_iff in Hid. destruct Hid as (a & Ha & Hin).
  pose proof (historia_en_maquinas inicial e eq_refl Halc a Hin) as Hm.
  apply in_map_iff in Hm. destruct Hm as (m & Hm & Hmin).
  pose proof (coherente_desde_main N tiempos e Halc) as Hcoh.
  pose proof (coh_cargas _ _ Hcoh m Hmin) as Hcarga.
  pose proof (carga_asignada_contiene inicial (Asignaciones e) a Hdur Hin) as Hcont.
  rewrite Ha in Hcont.
  rewrite (duracion_de_pendiente inicial x) in Hcont;
    [| apply tareas_desde_ids_unicos | exact Hx].
  pose proof (calcularCoste_miembro e m Hmin). rewrite Hm in Hcarga.
  subst inicial. lia.
Qed.

Lemma makespan_cota_de_la_tarea_testigo :
  suma_absoluta [4] <= Double.INT_MAX
  /\ alcanzable (estado_de_main 1 [4]) (asignarTarea (estado_de_main 1 [4]) 1 1)
  /\ T (asignarTarea (estado_de_main 1 [4]) 1 1) = []
  /\ (forall x, In x [4] -> 0 <= x)
  /\ In 4 [4]
  /\ 4 <= calcularCoste (asignarTarea (estado_de_main 1 [4]) 1 1).
Proof.
  assert (Halc : alcanzable (estado_de_main 1 [4]) (asignarTarea (estado_de_main 1 [4]) 1 1)).
  { apply alcanzable_sucesor with (estado_de_main 1 [4]); [constructor|]. simpl. auto. }
  assert (Hpos : forall x, In x [4] -> 0 <= x).
  { intros x [<- | []]. lia. }
  assert (Hd : In 4 [4]) by (now left).
  assert (Hsum : suma_absoluta [4] <= Double.INT_MAX).
  { vm_compute. discriminate. }
  split; [exact Hsum | split; [exact Halc | split; [reflexivity | split; [exact Hpos |
    split; [exact Hd |]]]]].
  exact (makespan_cota_de_la_tarea 1 [4] _ 4 Hsum Halc eq_refl Hpos Hd).
Defined.

(** ** The search as a whole *)

Lemma maximo_contiene (x : Z) (l : list Z) : In x l -> x <= fold_right Z.max 0 l.
Proof.
  induction l as [|a l IH]; simpl; [intros []|].
  intros [-> | Hin]; [lia | specialize (IH Hin); lia].
Qed.

Lemma mayor_f_cota `{Plataforma} (inicial e : Estado) :
  alcanzable inicial e -> f_cost (nodo_de e) <= mayor_f inicial.
Proof.
  intros Halc. unfold mayor_f. apply maximo_contiene.
  apply (in_map (fun e => f_cost (nodo_de e))). now apply alcanzable_todos.
Qed.

Lemma hay_sucesor (inicial e : Estado) :
  M inicial <> [] -> alcanzable inicial e -> T e <> [] ->
  exists e', In e' (generarSucesores e).
Proof.
  intros HM Halc HT. pose proof (generarSucesores_length e) as Hlen.
  rewrite (alcanzable_maquinas _ _ Halc) in Hlen.
  destruct (generarSucesores e) as [|e' l]; [|exists e'; now left].
  destruct (T e); [contradiction|]. destruct (M inicial); [contradiction|].
  simpl in Hlen. discriminate.
Qed.

Section Busqueda_completa.
Context `{Plataforma} {Q : ColaPrioridad} {QL : ColaLegal Q}.

(** X8.  The search always returns: for every initial state and every
    lawful priority queue, a number of iterations above
    [peso |machines| |tasks|] is enough for [A_estrella] to return a
    state, and that state is reachable from the initial one by successor
    generations. *)
Theorem A_estrella_siempre_devuelve (combustible : nat) (estado_inicial : Estado) :
  (peso (length (M estado_inicial)) (length (T estado_inicial)) < combustible)%nat ->
  exists r, A_estrella combustible estado_inicial = Some r
            /\ alcanzable estado_inicial r.
Proof.
  intros Hc. destruct (A_estrella_termina combustible estado_inicial Hc) as [r Hr].
  exists r. split; [exact Hr |]. now apply (A_estrella_alcanzable estado_inicial combustible).
Qed.

Lemma A_estrella_con_maquinas (combustible : nat) (estado_inicial : Estado) (r : Estado) :
  M estado_inicial <> [] ->
  A_estrella combustible estado_inicial = Some r ->
  alcanzable estado_inicial r /\ T r = [].
Proof.
  intros HM Hr.
  destruct (A_estrella_meta estado_inicial (fun _ => true) (mayor_f estado_inicial))
    with (combustible := combustible) (r := r) as (Halc & HT & _); auto.
  - intros e He _. now apply mayor_f_cota.
  - intros e He _ HT. destruct (hay_sucesor estado_inicial e HM He HT) as [e' He'].
    exists e'. auto.
Qed.

(** X9.  With at least one machine the search never gives up: whatever
    the tasks and the loads it starts from, and whichever lawful queue it
    uses, the state it returns has no pending task.  The return of the
    initial state after the loop is reached only without machines. *)
Theorem A_estrella_completa (combustible : nat) (estado_inicial : Estado) :
  M estado_inicial <> [] ->
  (peso (length (M estado_inicial)) (length (T estado_inicial)) < combustible)%nat ->
  exists r, A_estrella combustible estado_inicial = Some r
            /\ T r = [] /\ alcanzable estado_inicial r.
Proof.
  intros HM Hc. destruct (A_estrella_termina combustible estado_inicial Hc) as [r Hr].
  exists r. destruct (A_estrella_con_maquinas combustible estado_inicial r HM Hr).
  auto.
Qed.

End Busqueda_completa.

Lemma A_estrella_siempre_devuelve_testigo :
  lt (peso (length (M (estado_de_main 0 [5]))) (length (T (estado_de_main 0 [5])))) 2
  /\ exists r, @A_estrella plataforma_int_min ColaLista.cola 2 (estado_de_main 0 [5]) = Some r
               /\ alcanzable (estado_de_main 0 [5]) r.
Proof.
  assert (Hc : lt (peso (length (M (estado_de_main 0 [5])))
                        (length (T (estado_de_main 0 [5])))) 2).
  { simpl. lia. }
  split; [exact Hc |].
  exact (@A_estrella_siempre_devuelve plataforma_int_min ColaLista.cola ColaListaLegal.legal
           2%nat (estado_de_main 0 [5]) Hc).
Defined.

Lemma A_estrella_completa_testigo :
  M (estado_de_main 1 [4; 3]) <> []
  /\ lt (peso (length (M (estado_de_main 1 [4; 3])))
               (length (T (estado_de_main 1 [4; 3])))) 6
  /\ exists r, @A_estrella plataforma_int_min ColaLista.cola 6 (estado_de_main 1 [4; 3])
               = Some r
               /\ T r = [] /\ alcanzable (estado_de_main 1 [4; 3]) r.
Proof.
  assert (HM : M (estado_de_main 1 [4; 3]) <> []) by discriminate.
  assert (Hc : lt (peso (length (M (estado_de_main 1 [4; 3])))
                        (length (T (estado_de_main 1 [4; 3])))) 6).
  { simpl. lia. }
  split; [exact HM | split; [exact Hc |]].
  exact (@A_estrella_completa plataforma_int_min ColaLista.cola ColaListaLegal.legal
           6%nat (estado_de_main 1 [4; 3]) HM Hc).
Defined.

(** *** The schedule that [main] receives *)

Lemma ids_de_tareas_desde (tiempos : list Z) (i : nat) :
  map Tarea_id (tareas_desde (Z.of_nat i) tiempos)
  = map Z.of_nat (seq (S i) (length tiempos)).
Proof.
  revert i. induction tiempos as [|d l IH]; intros i; simpl; [reflexivity|].
  f_equal; [lia|]. rewrite <- IH. f_equal. f_equal. lia.
Qed.

Section Plan_de_main.
Context `{Plataforma} {Q : ColaPrioridad} {QL : ColaLegal Q}.

(** X10.  For the initial state of [main] with at least one machine and
    durations whose absolute values add up to an [int], the search returns
    a complete and consistent schedule: no task is left pending, the
    history assigns each of the tasks [1..n] exactly once, to machines
    among [1..N], the machines are still [1..N] in order, and the load of
    each machine is an [int], the sum of the durations assigned to it. *)
Theorem A_estrella_plan_valido (N : nat) (tiempos : list Z) (combustible : nat) :
  N <> O ->
  suma_absoluta tiempos <= Double.INT_MAX ->
  (peso N (length tiempos) < combustible)%nat ->
  exists r, A_estrella combustible (estado_de_main N tiempos) = Some r
            /\ T r = []
            /\ Permutation (map tarea_id (Asignaciones r))
                           (map Z.of_nat (seq 1 (length tiempos)))
            /\ (forall a, In a (Asignaciones r) ->
                          In (maquina_id a) (map Z.of_nat (seq 1 N)))
            /\ map Maquina_id (M r) = map Z.of_nat (seq 1 N)
            /\ (forall m, In m (M r) ->
                  es_int (tiempo_ocupado m)
                  /\ tiempo_ocupado m
                     = carga_asignada (estado_de_main N tiempos) (Asignaciones r)
                                      (Maquina_id m)).
Proof.
  intros HN Hsum Hc.
  assert (Hids : map Maquina_id (M (estado_de_main N tiempos)) = map Z.of_nat (seq 1 N)).
  { simpl. unfold maquinas_iniciales. rewrite map_map. reflexivity. }
  assert (Hlen : length (T (estado_de_main N tiempos)) = length tiempos).
  { simpl. rewrite <- (length_map tiempo), tiempos_de_tareas_desde. reflexivity. }
  assert (HlenM : length (M (estado_de_main N tiempos)) = N).
  { simpl. unfold maquinas_iniciales. now rewrite length_map, length_seq. }
  destruct (A_estrella_termina combustible (estado_de_main N tiempos)) as [r Hr].
  { now rewrite HlenM, Hlen. }
  destruct (A_estrella_con_maquinas combustible (estado_de_main N tiempos) r)
    as [Halc HT]; [|exact Hr|].
  { intros HM. rewrite HM in HlenM. simpl in HlenM. congruence. }
  pose proof (coherente_desde_main N tiempos r Halc) as [Hmaq _ _ Hcargas].
  exists r. split; [exact Hr | split; [exact HT |]]. split; [|split; [|split]].
  - pose proof (conservacion _ _ Halc) as Hperm. unfold ids_repartidos in Hperm.
    rewrite HT in Hperm. simpl in Hperm. rewrite app_nil_r in Hperm.
    change (tareas_desde 0 tiempos) with (tareas_desde (Z.of_nat 0) tiempos) in Hperm.
    rewrite (ids_de_tareas_desde tiempos 0) in Hperm. exact Hperm.
  - intros a Ha. rewrite <- Hids, <- Hmaq.
    now apply (historia_en_maquinas (estado_de_main N tiempos) r eq_refl Halc).
  - now rewrite Hmaq.
  - intros m Hm. split; [now apply (cargas_en_rango N tiempos r) | now apply Hcargas].
Qed.

End Plan_de_main.

Lemma A_estrella_plan_valido_testigo :
  2%nat <> O
  /\ suma_absoluta [5; 5; 3] <= Double.INT_MAX
  /\ lt (peso 2 (length [5; 5; 3])) 80
  /\ exists r, @A_estrella plataforma_int_min ColaLista.cola 80 (estado_de_main 2 [5; 5; 3])
               = Some r
               /\ T r = []
               /\ Permutation (map tarea_id (Asignaciones r))
                              (map Z.of_nat (seq 1 (length [5; 5; 3])))
               /\ (forall a, In a (Asignaciones r) ->
                             In (maquina_id a) (map Z.of_nat (seq 1 2)))
               /\ map Maquina_id (M r) = map Z.of_nat (seq 1 2)
               /\ (forall m, In m (M r) ->
                     es_int (tiempo_ocupado m)
                     /\ tiempo_ocupado m
                        = carga_asignada (estado_de_main 2 [5; 5; 3]) (Asignaciones r)
                                         (Maquina_id m)).
Proof.
  assert (HN : 2%nat <> O) by discriminate.
  assert (Hsum : suma_absoluta [5; 5; 3] <= Double.INT_MAX).
  { vm_compute. discriminate. }
  assert (Hc : lt (peso 2 (length [5; 5; 3])) 80) by (simpl; lia).
  split; [exact HN | split; [exact Hsum | split; [exact Hc |]]].
  exact (@A_estrella_plan_valido plataforma_int_min ColaLista.cola ColaListaLegal.legal
           2%nat [5; 5; 3] 80%nat HN Hsum Hc).
Defined.

(** ** The comparison of costs in the closed list *)

Lemma map_find_valor (c : closed_list) (k : Estado) (v : Z) :
  map_find c k = Some v -> exists k', In (k', v) c /\ clave k' = clave k.
Proof.
  induction c as [|[k0 v0] c IH]; simpl; [discriminate|].
  destruct (equivalentes k0 k) eqn:Heq.
  - intros [= ->]. exists k0. split; [now left | now apply equivalentes_clave].
  - intros Hf. destruct (IH Hf) as (k' & Hin & Hc). exists k'. auto.
Qed.

Lemma map_asignar_valores (c : closed_list) (k : Estado) (v : Z) (k' : Estado) (v' : Z) :
  In (k', v') (map_asignar c k v) ->
  In (k', v') c \/ (clave k' = clave k /\ v' = v).
Proof.
  induction c as [|[k0 v0] c IH]; simpl.
  - intros [[= <- <-] | []]. now right.
  - destruct (equivalentes k0 k) eqn:Heq.
    + intros [[= <- <-] | Hin].
      * right. split; [now apply equivalentes_clave | reflexivity].
      * left. now right.
    + intros [Hin | Hin]; [left; now left|].
      destruct (IH Hin) as [Hc | Hc]; [left; now right | now right].
Qed.

Lemma calcularCoste_clave (a b : Estado) :
  clave a = clave b -> calcularCoste a = calcularCoste b.
Proof. unfold clave, calcularCoste. intros [= _ ->]. reflexivity. Qed.

Section Sin_reabrir.
Context `{Plataforma} {Q : ColaPrioridad} {QL : ColaLegal Q}.

Lemma frontera_con_coste_pop (q : Cola) (p : Nodo) :
  frontera_con_coste q -> cola_top q = Some p -> frontera_con_coste (cola_pop q).
Proof. intros Hq Htop n Hn. apply Hq. now apply (antes_de_pop q p). Qed.

Lemma frontera_con_coste_expandir (q : Cola) (sucesores : list Estado) :
  frontera_con_coste q -> frontera_con_coste (encolar_sucesores q sucesores).
Proof.
  intros Hq n Hn. apply en_cola_expandida in Hn. destruct Hn as [Hn | Hn].
  - apply in_map_iff in Hn. destruct Hn as (s & <- & _). reflexivity.
  - now apply Hq.
Qed.

Lemma cerrada_exacta_asignar (closed : closed_list) (k : Estado) :
  cerrada_exacta closed -> cerrada_exacta (map_asignar closed k (calcularCoste k)).
Proof.
  intros Hc k' v' Hin. destruct (map_asignar_valores _ _ _ _ _ Hin) as [Hold | [Hk ->]].
  - now apply Hc.
  - symmetry. now apply calcularCoste_clave.
Qed.

Lemma A_estrella_bucle_no_reabre (combustible : nat) :
  forall (q : Cola) (closed : closed_list) (estado_inicial : Estado),
    frontera_con_coste q -> cerrada_exacta closed ->
    A_estrella_bucle combustible q closed estado_inicial
    = A_estrella_bucle_sin_reabrir combustible q closed estado_inicial.
Proof.
  induction combustible as [|c IH]; intros q closed e0 Hq Hc; simpl; [reflexivity|].
  destruct (cola_empty q); [reflexivity|].
  destruct (cola_top q) as [p|] eqn:Htop; [|reflexivity].
  destruct (T (estado p)) as [|t0 T0]; [reflexivity|].
  assert (Hp : g_cost p = calcularCoste (estado p)).
  { apply Hq. now apply cola_top_spec. }
  pose proof (frontera_con_coste_pop q p Hq Htop) as Hpop.
  destruct (map_find closed (estado p)) as [g|] eqn:Hfind.
  - destruct (map_find_valor _ _ _ Hfind) as (k' & Hin & Hk).
    rewrite (Hc k' g Hin), (calcularCoste_clave _ _ Hk), Hp, Z.ltb_irrefl.
    now apply IH.
  - apply IH.
    + now apply frontera_con_coste_expandir.
    + rewrite Hp. now apply cerrada_exacta_asignar.
Qed.

(** X11.  The closed list never reopens a state.  The cost recorded for
    a key is the cost of every state with that key, so a popped node
    whose state is found there never has a smaller cost, the branch
    [actual.g_cost < it_closed->second] is never taken, and [A_estrella]
    returns what the same loop returns when it expands a state exactly
    if its key is absent from the closed list. *)
Theorem A_estrella_no_reabre (combustible : nat) (estado_inicial : Estado) :
  A_estrella combustible estado_inicial
  = A_estrella_sin_reabrir combustible estado_inicial.
Proof.
  unfold A_estrella, A_estrella_sin_reabrir. apply A_estrella_bucle_no_reabre.
  - intros n Hn. rewrite contenido_inicial in Hn. destruct Hn as [<- | []]. reflexivity.
  - intros k v [].
Qed.

End Sin_reabrir.

Lemma A_estrella_no_reabre_testigo :
  @A_estrella plataforma_int_min ColaLista.cola 80 (estado_de_main 2 [5; 5; 3])
  = @A_estrella_sin_reabrir plataforma_int_min ColaLista.cola 80 (estado_de_main 2 [5; 5; 3]).
Proof.
  exact (@A_estrella_no_reabre plataforma_int_min ColaLista.cola ColaListaLegal.legal
           80%nat (estado_de_main 2 [5; 5; 3])).
Defined.

(** ** The heuristic at a goal *)

Lemma shr_1_no_negativo (mrs : shr_record) :
  0 <= shr_m mrs -> 0 <= shr_m (shr_1 mrs).
Proof.
  destruct mrs as [m r s]. simpl.
  destruct m as [|[p|p|]|[p|p|]]; simpl; lia.
Qed.

Lemma shr_no_negativo (mrs : shr_record) (e n : Z) :
  0 <= shr_m mrs -> 0 <= shr_m (fst (shr mrs e n)).
Proof.
  intros Hm. unfold shr. destruct n as [|p|p]; simpl; try exact Hm.
  rewrite iter_pos_nat. induction (Pos.to_nat p) as [|k IH]; simpl; [exact Hm|].
  now apply shr_1_no_negativo.
Qed.

Lemma shr_fexp_no_negativo (m e : Z) (l : location) :
  0 <= m -> 0 <= shr_m (fst (shr_fexp Double.prec Double.emax m e l)).
Proof.
  intros Hm. unfold shr_fexp. apply shr_no_negativo.
  destruct l as [|[]]; simpl; exact Hm.
Qed.

(** Rounding a magnitude to binary64 gives a zero, an infinity or a finite
    number of the given sign, never a NaN. *)
Lemma binary_round_aux_forma (s : bool) (m e : Z) (l : location) :
  0 <= m ->
  binary_round_aux Double.prec Double.emax s m e l = S754_zero s
  \/ binary_round_aux Double.prec Double.emax s m e l = S754_infinity s
  \/ exists m' e', binary_round_aux Double.prec Double.emax s m e l = S754_finite s m' e'.
Proof.
  intros Hm. unfold binary_round_aux.
  pose proof (shr_fexp_no_negativo m e l Hm) as H1.
  destruct (shr_fexp Double.prec Double.emax m e l) as [mrs' e']. simpl in H1.
  assert (H2 : 0 <= round_nearest_even (shr_m mrs') (loc_of_shr_record mrs')).
  { unfold round_nearest_even. destruct (loc_of_shr_record mrs') as [|[]]; try lia.
    destruct (Z.even (shr_m mrs')); lia. }
  pose proof (shr_fexp_no_negativo _ e' loc_Exact H2) as H3.
  destruct (shr_fexp Double.prec Double.emax
              (round_nearest_even (shr_m mrs') (loc_of_shr_record mrs')) e' loc_Exact)
    as [mrs'' e'']. simpl in H3.
  destruct (shr_m mrs'') as [|p|p]; [now left | | lia].
  destruct (e'' <=? Double.emax - Double.prec); [right; right; eauto | right; now left].
Qed.

Lemma div_de_positivos (mx my : positive) (ex ey : Z) :
  Double.div (S754_finite false mx ex) (S754_finite false my ey) = S754_zero false
  \/ Double.div (S754_finite false mx ex) (S754_finite false my ey) = S754_infinity false
  \/ exists m e,
      Double.div (S754_finite false mx ex) (S754_finite false my ey) = S754_finite false m e.
Proof.
  unfold Double.div, SFdiv, SFdiv_core_binary.
  set (e' := Z.min _ _). set (m' := match (ex - ey - e') with Z0 => _ | Zpos _ => _ | Zneg _ => _ end).
  assert (Hm' : 0 <= m').
  { unfold m'. destruct (ex - ey - e'); try lia. apply Z.shiftl_nonneg. lia. }
  pose proof (Z.div_pos m' (Z.pos my) Hm' ltac:(lia)) as Hq.
  unfold Z.div in Hq.
  destruct (Z.div_eucl m' (Z.pos my)) as [q r]. simpl xorb.
  now apply binary_round_aux_forma.
Qed.

Lemma holgura_total_no_negativa (e : Estado) : 0 <= holgura_total e.
Proof.
  unfold holgura_total. apply suma_no_negativa. apply Forall_forall.
  intros x Hx. apply in_map_iff in Hx. destruct Hx as (m & <- & Hm).
  pose proof (calcularCoste_miembro e m Hm). lia.
Qed.

(** X12.  At a goal the heuristic is 0 and [f = g]: for a state without
    pending tasks and with at least one machine, in which the number of
    machines and each difference [C - busyTime] are [int]s and the slack
    is below [2^53], [calcularHeuristica2] returns 0, so the node of a
    goal is ranked by its actual makespan. *)
Theorem calcularHeuristica2_en_meta `{Plataforma} (e : Estado) :
  T e = [] ->
  M e <> [] ->
  Z.of_nat (length (M e)) <= Double.INT_MAX ->
  (forall m, In m (M e) -> calcularCoste e - tiempo_ocupado m <= Double.INT_MAX) ->
  holgura_total e < 2 ^ 53 ->
  calcularHeuristica2 e = 0 /\ f_cost (nodo_de e) = calcularCoste e.
Proof.
  intros HT HM HlenInt _ Hs.
  assert (HlenM : Z.of_nat (length (M e)) < 2 ^ 53).
  { unfold Double.INT_MAX in HlenInt. lia. }
  assert (Hh : calcularHeuristica2 e = 0).
  { rewrite calcularHeuristica2_exceso by exact Hs.
    unfold exceso_promedio, carga_restante. rewrite HT.
    assert (Hlen : 0 < Z.of_nat (length (M e))).
    { destruct (M e); [contradiction | simpl; lia]. }
    destruct (Z.of_nat (length (M e))) as [|p|p] eqn:Hp; try lia.
    assert (Hdp : Z.pos (digits2_pos p) <= 53) by (apply (digits_cota _ 53); exact HlenM).
    rewrite (de_int_positivo p Hdp).
    pose proof (holgura_total_no_negativa e) as Hs0.
    change (map tiempo []) with (@nil Z). cbn [fold_right].
    change (Double.div (Double.de_int 0) _) with (S754_zero false).
    destruct (holgura_total e) as [|ps|ps] eqn:Hhol.
    - reflexivity.
    - assert (Hds : Z.pos (digits2_pos ps) <= 53) by (apply (digits_cota _ 53); exact Hs).
      rewrite (de_int_positivo ps Hds).
      destruct (div_de_positivos
                  (por2 ps (Z.to_nat (53 - Z.pos (digits2_pos ps))))
                  (por2 p (Z.to_nat (53 - Z.pos (digits2_pos p))))
                  (Z.pos (digits2_pos ps) - 53) (Z.pos (digits2_pos p) - 53))
        as [-> | [-> | (m' & e' & ->)]]; reflexivity.
    - lia. }
  split; [exact Hh |]. unfold nodo_de. simpl. rewrite Hh. lia.
Qed.

Lemma calcularHeuristica2_en_meta_testigo :
  T ejemplo_resuelto = []
  /\ M ejemplo_resuelto <> []
  /\ Z.of_nat (length (M ejemplo_resuelto)) <= Double.INT_MAX
  /\ (forall m, In m (M ejemplo_resuelto) ->
                calcularCoste ejemplo_resuelto - tiempo_ocupado m <= Double.INT_MAX)
  /\ holgura_total ejemplo_resuelto < 2 ^ 53
  /\ @calcularHeuristica2 plataforma_int_min ejemplo_resuelto = 0
  /\ f_cost (@nodo_de plataforma_int_min ejemplo_resuelto) = calcularCoste ejemplo_resuelto.
Proof.
  assert (HM : M ejemplo_resuelto <> []) by discriminate.
  assert (Hl : Z.of_nat (length (M ejemplo_resuelto)) <= Double.INT_MAX).
  { vm_compute. discriminate. }
  assert (Hd : forall m, In m (M ejemplo_resuelto) ->
                 calcularCoste ejemplo_resuelto - tiempo_ocupado m <= Double.INT_MAX).
  { intros m [<- | []]. vm_compute. discriminate. }
  assert (Hs : holgura_total ejemplo_resuelto < 2 ^ 53) by (vm_compute; reflexivity).
  split; [reflexivity | split; [exact HM | split; [exact Hl | split; [exact Hd |
    split; [exact Hs |]]]]].
  exact (@calcularHeuristica2_en_meta plataforma_int_min ejemplo_resuelto eq_refl HM Hl Hd Hs).
Defined.

(** ** Two transitions in either order *)

Lemma mismo_por_id {A : Type} (id : A -> Z) (v : list A) (a b : A) :
  NoDup (map id v) -> In a v -> In b v -> id a = id b -> a = b.
Proof.
  induction v as [|x v IH]; simpl; [intros _ []|].
  intros Hnd Ha Hb Hid. inversion Hnd as [|? ? Hno Hnd']; subst.
  destruct Ha as [-> | Ha], Hb as [-> | Hb]; auto.
  - exfalso. apply Hno. rewrite Hid. now apply in_map.
  - exfalso. apply Hno. rewrite <- Hid. now apply in_map.
Qed.

Lemma filter_sin_id (t : Z) (v : list Tarea) :
  ~ In t (map Tarea_id v) -> filter (fun x => negb (Tarea_id x =? t)) v = v.
Proof.
  induction v as [|x v IH]; simpl; [reflexivity|]. intros Hno.
  destruct (Tarea_id x =? t) eqn:Hx.
  - apply Z.eqb_eq in Hx. tauto.
  - simpl. f_equal. apply IH. tauto.
Qed.

Lemma cargar_sin_id (m d : Z) (v : list Maquina) :
  ~ In m (map Maquina_id v) -> map (cargar m d) v = v.
Proof.
  induction v as [|x v IH]; simpl; [reflexivity|]. intros Hno. unfold cargar at 1.
  destruct (Maquina_id x =? m) eqn:Hx.
  - apply Z.eqb_eq in Hx. tauto.
  - f_equal. apply IH. tauto.
Qed.

(** With unique ids the transition erases by id and loads by id. *)
Lemma asignarTarea_unicos (e : Estado) (tarea : Tarea) (m : Z) :
  NoDup (map Tarea_id (T e)) ->
  NoDup (map Maquina_id (M e)) ->
  In tarea (T e) ->
  In m (map Maquina_id (M e)) ->
  asignarTarea e (Tarea_id tarea) m
  = {| M := map (cargar m (tiempo tarea)) (M e);
       T := filter (fun x => negb (Tarea_id x =? Tarea_id tarea)) (T e);
       Asignaciones := Asignaciones e
                       ++ [ {| tarea_id := Tarea_id tarea; maquina_id := m;
                               posicion := 0 |} ] |}.
Proof.
  intros HndT HndM Hin Hm.
  destruct (asignarTarea_forma e (Tarea_id tarea) m (in_map _ _ _ Hin) Hm)
    as (T1 & ta & T2 & M1 & maquina & M2 & HT & Hid & HT1 & HM & Him & HM1 & ->).
  assert (ta = tarea).
  { apply (mismo_por_id Tarea_id (T e)); auto. rewrite HT. apply in_or_app. right. now left. }
  subst ta. rewrite HT, HM in *. rewrite map_app in HndT, HndM. simpl in HndT, HndM.
  pose proof (NoDup_remove_2 _ _ _ HndT) as HnoT.
  pose proof (NoDup_remove_2 _ _ _ HndM) as HnoM.
  f_equal.
  - rewrite map_app. simpl. unfold cargar at 2. rewrite Him, Z.eqb_refl.
    rewrite !cargar_sin_id; [reflexivity | |];
      rewrite <- Him; intros Hx; apply HnoM; apply in_or_app; auto.
  - rewrite filter_app. simpl. rewrite Z.eqb_refl. simpl.
    rewrite !filter_sin_id; [reflexivity | |];
      intros Hx; apply HnoT; apply in_or_app; auto.
Qed.

Lemma cargar_conmuta (m1 d1 m2 d2 : Z) (x : Maquina) :
  cargar m2 d2 (cargar m1 d1 x) = cargar m1 d1 (cargar m2 d2 x).
Proof.
  unfold cargar. destruct (Maquina_id x =? m1) eqn:H1, (Maquina_id x =? m2) eqn:H2;
    simpl; rewrite ?H1, ?H2; try reflexivity.
  f_equal. lia.
Qed.

Lemma cargar_ids (m d : Z) (v : list Maquina) :
  map Maquina_id (map (cargar m d) v) = map Maquina_id v.
Proof.
  rewrite map_map. apply map_ext. intros x. unfold cargar.
  destruct (Maquina_id x =? m); reflexivity.
Qed.

Lemma filter_ids_unicos (p : Tarea -> bool) (v : list Tarea) :
  NoDup (map Tarea_id v) -> NoDup (map Tarea_id (filter p v)).
Proof.
  induction v as [|x v IH]; simpl; [auto|]. intros Hnd.
  inversion Hnd as [|? ? Hno Hnd']; subst. destruct (p x); simpl; [|auto].
  constructor; [|auto]. intros Hin. apply Hno.
  apply in_map_iff in Hin. destruct Hin as (y & Hy & Hin).
  apply filter_In in Hin. rewrite <- Hy. apply in_map. tauto.
Qed.

Lemma filter_conmuta {A : Type} (p q : A -> bool) (v : list A) :
  filter p (filter q v) = filter q (filter p v).
Proof.
  induction v as [|x v IH]; simpl; [reflexivity|].
  destruct (p x) eqn:Hp, (q x) eqn:Hq; simpl; rewrite ?Hp, ?Hq, ?IH; reflexivity.
Qed.

(** X13.  Two transitions commute up to the history.  In a state with
    unique task ids and unique machine ids, assigning two different
    pending tasks in one order or in the other leaves the same machines
    with the same loads and the same pending tasks: the two results
    differ in their history alone, and are one key of the closed list. *)
Theorem asignarTarea_conmuta (e : Estado) (tarea1 tarea2 : Tarea) (m1 m2 : Z) :
  NoDup (map Tarea_id (T e)) ->
  NoDup (map Maquina_id (M e)) ->
  In tarea1 (T e) -> In tarea2 (T e) ->
  Tarea_id tarea1 <> Tarea_id tarea2 ->
  In m1 (map Maquina_id (M e)) -> In m2 (map Maquina_id (M e)) ->
  let e12 := asignarTarea (asignarTarea e (Tarea_id tarea1) m1) (Tarea_id tarea2) m2 in
  let e21 := asignarTarea (asignarTarea e (Tarea_id tarea2) m2) (Tarea_id tarea1) m1 in
  M e12 = M e21 /\ T e12 = T e21 /\ equivalentes e12 e21 = true
  /\ calcularCoste e12 = calcularCoste e21.
Proof.
  intros HndT HndM H1 H2 Hne Hm1 Hm2 e12 e21.
  assert (Hpaso : forall ta tb ma mb,
             In ta (T e) -> In tb (T e) -> Tarea_id ta <> Tarea_id tb ->
             In ma (map Maquina_id (M e)) -> In mb (map Maquina_id (M e)) ->
             asignarTarea (asignarTarea e (Tarea_id ta) ma) (Tarea_id tb) mb
             = {| M := map (cargar mb (tiempo tb)) (map (cargar ma (tiempo ta)) (M e));
                  T := filter (fun x => negb (Tarea_id x =? Tarea_id tb))
                         (filter (fun x => negb (Tarea_id x =? Tarea_id ta)) (T e));
                  Asignaciones :=
                    (Asignaciones e
                     ++ [ {| tarea_id := Tarea_id ta; maquina_id := ma; posicion := 0 |} ])
                    ++ [ {| tarea_id := Tarea_id tb; maquina_id := mb; posicion := 0 |} ] |}).
  { intros ta tb ma mb Ha Hb Hab Hma Hmb.
    rewrite (asignarTarea_unicos e ta ma HndT HndM Ha Hma).
    rewrite asignarTarea_unicos; simpl.
    - reflexivity.
    - now apply filter_ids_unicos.
    - now rewrite cargar_ids.
    - apply filter_In. split; [exact Hb |]. apply negb_true_iff, Z.eqb_neq. congruence.
    - now rewrite cargar_ids. }
  unfold e12, e21.
  rewrite (Hpaso tarea1 tarea2 m1 m2), (Hpaso tarea2 tarea1 m2 m1) by auto.
  assert (HM : map (cargar m2 (tiempo tarea2)) (map (cargar m1 (tiempo tarea1)) (M e))
               = map (cargar m1 (tiempo tarea1)) (map (cargar m2 (tiempo tarea2)) (M e))).
  { rewrite !map_map. apply map_ext. intros x. apply cargar_conmuta. }
  assert (HT : filter (fun x => negb (Tarea_id x =? Tarea_id tarea2))
                 (filter (fun x => negb (Tarea_id x =? Tarea_id tarea1)) (T e))
               = filter (fun x => negb (Tarea_id x =? Tarea_id tarea1))
                   (filter (fun x => negb (Tarea_id x =? Tarea_id tarea2)) (T e))).
  { apply filter_conmuta. }
  simpl. rewrite HM, HT. repeat split.
  apply equivalentes_clave. reflexivity.
Qed.

Lemma asignarTarea_conmuta_testigo :
  NoDup (map Tarea_id (T (estado_de_main 2 [5; 5; 3])))
  /\ NoDup (map Maquina_id (M (estado_de_main 2 [5; 5; 3])))
  /\ M (asignarTarea (asignarTarea (estado_de_main 2 [5; 5; 3]) 1 2) 3 2)
     = M (asignarTarea (asignarTarea (estado_de_main 2 [5; 5; 3]) 3 2) 1 2)
  /\ T (asignarTarea (asignarTarea (estado_de_main 2 [5; 5; 3]) 1 2) 3 2)
     = T (asignarTarea (asignarTarea (estado_de_main 2 [5; 5; 3]) 3 2) 1 2)
  /\ equivalentes (asignarTarea (asignarTarea (estado_de_main 2 [5; 5; 3]) 1 2) 3 2)
                  (asignarTarea (asignarTarea (estado_de_main 2 [5; 5; 3]) 3 2) 1 2) = true
  /\ calcularCoste (asignarTarea (asignarTarea (estado_de_main 2 [5; 5; 3]) 1 2) 3 2)
     = calcularCoste (asignarTarea (asignarTarea (estado_de_main 2 [5; 5; 3]) 3 2) 1 2).
Proof.
  assert (HndT : NoDup (map Tarea_id (T (estado_de_main 2 [5; 5; 3])))).
  { apply tareas_desde_ids_unicos. }
  assert (HndM : NoDup (map Maquina_id (M (estado_de_main 2 [5; 5; 3])))).
  { apply maquinas_iniciales_ids_unicos. }
  split; [exact HndT | split; [exact HndM |]].
  refine (asignarTarea_conmuta (estado_de_main 2 [5; 5; 3])
            {| Tarea_id := 1; tiempo := 5 |} {| Tarea_id := 3; tiempo := 3 |} 2 2
            HndT HndM _ _ _ _ _).
  - simpl. auto.
  - simpl. auto.
  - discriminate.
  - simpl. auto.
  - simpl. auto.
Defined.

(** ** The successors of one state are different keys *)

Lemma NoDup_list_prod {A B : Type} (u : list A) (v : list B) :
  NoDup u -> NoDup v -> NoDup (list_prod u v).
Proof.
  intros Hu Hv. induction Hu as [|a u Ha Hu IH]; simpl; [constructor|].
  apply NoDup_app.
  - apply NoDup_map_NoDup_ForallPairs; [|exact Hv]. intros x y _ _ [= ->]. reflexivity.
  - exact IH.
  - intros [x y] Hfila Hresto. apply in_map_iff in Hfila.
    destruct Hfila as (y' & [= <- <-] & _). apply in_prod_iff in Hresto. tauto.
Qed.

(** X14.  One expansion never pushes the same key twice.  In a state with
    unique task ids and unique machine ids whose pending tasks have
    durations other than 0, the successors that [generarSucesores]
    returns are pairwise different keys of the closed list: a different
    task leaves different pending ids, and a different machine leaves
    different loads. *)
Theorem generarSucesores_claves_distintas (e : Estado) :
  NoDup (map Tarea_id (T e)) ->
  NoDup (map Maquina_id (M e)) ->
  (forall x, In x (T e) -> tiempo x <> 0) ->
  NoDup (map clave (generarSucesores e)).
Proof.
  intros HndT HndM Hdur. rewrite generarSucesores_producto, map_map.
  apply Injective_map_NoDup_in.
  2:{ apply NoDup_list_prod; [apply (NoDup_map_inv _ _ HndT) | apply (NoDup_map_inv _ _ HndM)]. }
  intros [ta ma] [tb mb] Ha Hb. apply in_prod_iff in Ha, Hb.
  destruct Ha as [Hta Hma], Hb as [Htb Hmb]. simpl.
  rewrite (asignarTarea_unicos e ta (Maquina_id ma)), (asignarTarea_unicos e tb (Maquina_id mb));
    auto using in_map.
  unfold clave. simpl. intros [= Hids Hmaq].
  assert (Hid : Tarea_id ta = Tarea_id tb).
  { destruct (Z.eq_dec (Tarea_id ta) (Tarea_id tb)) as [Heq | Hne]; [exact Heq | exfalso].
    assert (Hin : In (Tarea_id tb)
                     (map Tarea_id (filter (fun x => negb (Tarea_id x =? Tarea_id ta)) (T e)))).
    { apply in_map. apply filter_In. split; [exact Htb |].
      apply negb_true_iff, Z.eqb_neq. congruence. }
    rewrite Hids in Hin. apply in_map_iff in Hin. destruct Hin as (y & Hy & Hin).
    apply filter_In in Hin. destruct Hin as [_ Hin].
    apply negb_true_iff, Z.eqb_neq in Hin. contradiction. }
  assert (ta = tb) by (apply (mismo_por_id Tarea_id (T e)); auto). subst tb.
  assert (Him : Maquina_id ma = Maquina_id mb).
  { destruct (Z.eq_dec (Maquina_id ma) (Maquina_id mb)) as [Heq | Hne]; [exact Heq | exfalso].
    assert (Hx : cargar (Maquina_id ma) (tiempo ta) ma = cargar (Maquina_id mb) (tiempo ta) ma).
    { revert Hmaq. generalize (cargar (Maquina_id ma) (tiempo ta)) as f.
      generalize (cargar (Maquina_id mb) (tiempo ta)) as g. intros g f Heq.
      revert Hma. clear -Heq. induction (M e) as [|x v IH]; simpl; [intros []|].
      simpl in Heq. injection Heq as Hx Hv. intros [-> | Hin]; auto. }
    unfold cargar in Hx. rewrite Z.eqb_refl in Hx.
    apply Z.eqb_neq in Hne. rewrite Hne in Hx.
    apply (f_equal tiempo_ocupado) in Hx. simpl in Hx.
    specialize (Hdur ta Hta). lia. }
  assert (ma = mb) by (apply (mismo_por_id Maquina_id (M e)); auto). subst mb.
  reflexivity.
Qed.

Lemma generarSucesores_claves_distintas_testigo :
  NoDup (map Tarea_id (T (estado_de_main 2 [5; 5; 3])))
  /\ NoDup (map Maquina_id (M (estado_de_main 2 [5; 5; 3])))
  /\ (forall x, In x (T (estado_de_main 2 [5; 5; 3])) -> tiempo x <> 0)
  /\ NoDup (map clave (generarSucesores (estado_de_main 2 [5; 5; 3]))).
Proof.
  assert (HndT : NoDup (map Tarea_id (T (estado_de_main 2 [5; 5; 3])))).
  { apply tareas_desde_ids_unicos. }
  assert (HndM : NoDup (map Maquina_id (M (estado_de_main 2 [5; 5; 3])))).
  { apply maquinas_iniciales_ids_unicos. }
  assert (Hdur : forall x, In x (T (estado_de_main 2 [5; 5; 3])) -> tiempo x <> 0).
  { simpl. intros x [<- | [<- | [<- | []]]]; discriminate. }
  split; [exact HndT | split; [exact HndM | split; [exact Hdur |]]].
  exact (generarSucesores_claves_distintas (estado_de_main 2 [5; 5; 3]) HndT HndM Hdur).
Defined.

(** A task of duration 0 gives two successors that are one key. *)
Example generarSucesores_duracion_cero :
  equivalentes (asignarTarea (estado_de_main 2 [0]) 1 1)
               (asignarTarea (estado_de_main 2 [0]) 1 2) = true.
Proof. reflexivity. Qed.

(** ** One machine *)

Section Una_maquina.
Context `{Plataforma} {Q : ColaPrioridad} {QL : ColaLegal Q}.

(** X15.  With a single machine and durations whose absolute values add
    up to an [int], the search returns the sum of the durations as
    makespan, all tasks being on that machine, whenever that sum is not
    negative (as it is when no duration is). *)
Theorem A_estrella_una_maquina (tiempos : list Z) (combustible : nat) :
  0 <= fold_right Z.add 0 tiempos ->
  suma_absoluta tiempos <= Double.INT_MAX ->
  (peso 1 (length tiempos) < combustible)%nat ->
  exists r, A_estrella combustible (estado_de_main 1 tiempos) = Some r
            /\ T r = []
            /\ calcularCoste r = fold_right Z.add 0 tiempos.
Proof.
  intros Hsum _ Hc.
  assert (Hlen : length (T (estado_de_main 1 tiempos)) = length tiempos).
  { simpl. rewrite <- (length_map tiempo), tiempos_de_tareas_desde. reflexivity. }
  destruct (A_estrella_termina combustible (estado_de_main 1 tiempos)) as [r Hr].
  { now rewrite Hlen. }
  destruct (A_estrella_con_maquinas combustible (estado_de_main 1 tiempos) r)
    as [Halc HT]; [discriminate | exact Hr |].
  exists r. split; [exact Hr | split; [exact HT |]].
  pose proof (trabajo_alcanzable _ _ Halc) as Htrabajo.
  destruct (trabajo_de_main 1 tiempos) as [H0 HR]. rewrite H0, HR in Htrabajo.
  unfold carga_restante in Htrabajo. rewrite HT in Htrabajo. simpl in Htrabajo.
  pose proof (maquinas_de_main 1 tiempos r Halc) as HM.
  unfold suma_cargas in Htrabajo. unfold calcularCoste.
  destruct (M r) as [|m [|m' M']]; try discriminate.
  simpl in *. unfold mayor. lia.
Qed.

End Una_maquina.

Lemma A_estrella_una_maquina_testigo :
  0 <= fold_right Z.add 0 [4; 3; 2]
  /\ suma_absoluta [4; 3; 2] <= Double.INT_MAX
  /\ lt (peso 1 (length [4; 3; 2])) 20
  /\ exists r, @A_estrella plataforma_int_min ColaLista.cola 20 (estado_de_main 1 [4; 3; 2])
               = Some r
               /\ T r = []
               /\ calcularCoste r = fold_right Z.add 0 [4; 3; 2].
Proof.
  assert (Hsum : 0 <= fold_right Z.add 0 [4; 3; 2]) by (simpl; lia).
  assert (Habs : suma_absoluta [4; 3; 2] <= Double.INT_MAX).
  { vm_compute. discriminate. }
  assert (Hc : lt (peso 1 (length [4; 3; 2])) 20) by (simpl; lia).
  split; [exact Hsum | split; [exact Habs | split; [exact Hc |]]].
  exact (@A_estrella_una_maquina plataforma_int_min ColaLista.cola ColaListaLegal.legal
           [4; 3; 2] 20%nat Hsum Habs Hc).
Defined.

(** ** The report of [main] *)

Lemma agrupar_desde (tiempos : list Z) (dur : Asignacion -> Z) (h : list Asignacion) :
  (forall a, In a h -> indexar tiempos (tarea_id a - 1) = Some (dur a)) ->
  forall t0 d0 : mapa_vectores,
  exists tpm dpm,
    fold_left
      (fun acc a =>
         match acc with
         | None => None
         | Some (tareas_por_maquina, tiempos_por_maquina) =>
             match indexar tiempos (tarea_id a - 1) with
             | None => None
             | Some tiempo =>
                 Some (push_back_en tareas_por_maquina (maquina_id a) (tarea_id a),
                       push_back_en tiempos_por_maquina (maquina_id a) tiempo)
             end
         end)
      h (Some (t0, d0)) = Some (tpm, dpm)
    /\ forall k,
        tpm k = t0 k ++ map tarea_id (filter (fun a => maquina_id a =? k) h)
        /\ dpm k = d0 k ++ map dur (filter (fun a => maquina_id a =? k) h).
Proof.
  induction h as [|a h IH]; intros Hidx t0 d0; simpl.
  - exists t0, d0. split; [reflexivity |]. intros k. now rewrite !app_nil_r.
  - rewrite (Hidx a) by now left.
    destruct (IH (fun b Hb => Hidx b (or_intror Hb))
                 (push_back_en t0 (maquina_id a) (tarea_id a))
                 (push_back_en d0 (maquina_id a) (dur a)))
      as (tpm & dpm & Hfold & Hk).
    exists tpm, dpm. split; [exact Hfold |]. intros k.
    destruct (Hk k) as [Ht Hd]. rewrite Ht, Hd. unfold push_back_en.
    rewrite (Z.eqb_sym k (maquina_id a)).
    destruct (maquina_id a =? k); simpl; rewrite <- ?app_assoc; auto.
Qed.

Lemma indice_de_tarea (tiempos : list Z) (i : Z) (x : Tarea) :
  In x (tareas_desde i tiempos) ->
  i < Tarea_id x
  /\ nth_error tiempos (Z.to_nat (Tarea_id x - 1 - i)) = Some (tiempo x).
Proof.
  revert i. induction tiempos as [|d l IH]; intros i; simpl; [intros []|].
  intros [<- | Hin]; simpl.
  - split; [lia |]. replace (i + 1 - 1 - i) with 0 by lia. reflexivity.
  - destruct (IH (i + 1) Hin) as [Hlt Hnth]. split; [lia |].
    replace (Z.to_nat (Tarea_id x - 1 - i)) with (S (Z.to_nat (Tarea_id x - 1 - (i + 1))))
      by lia.
    exact Hnth.
Qed.

(** Every task id of a reachable history indexes [tiempos] within bounds,
    and what is read there is the duration of the task. *)
Lemma indexar_historia (N : nat) (tiempos : list Z) (e : Estado) (a : Asignacion) :
  alcanzable (estado_de_main N tiempos) e ->
  In a (Asignaciones e) ->
  indexar tiempos (tarea_id a - 1)
  = Some (duracion (estado_de_main N tiempos) (tarea_id a))
  /\ 1 <= tarea_id a <= Z.of_nat (length tiempos).
Proof.
  intros Halc Ha.
  assert (Hid : In (tarea_id a) (map Tarea_id (T (estado_de_main N tiempos)))).
  { pose proof (conservacion _ _ Halc) as Hperm. unfold ids_repartidos in Hperm.
    simpl in Hperm. rewrite app_nil_r in Hperm.
    apply (Permutation_in _ Hperm). apply in_or_app. right. now apply in_map. }
  apply in_map_iff in Hid. destruct Hid as (x & Hx & Hin). simpl in Hin.
  destruct (indice_de_tarea tiempos 0 x Hin) as [Hlt Hnth].
  rewrite <- Hx. rewrite (duracion_de_pendiente (estado_de_main N tiempos) x);
    [| apply tareas_desde_ids_unicos | exact Hin].
  rewrite Z.sub_0_r in Hnth. split.
  - unfold indexar. destruct (Tarea_id x - 1 <? 0) eqn:Hneg; [|exact Hnth].
    apply Z.ltb_lt in Hneg. lia.
  - assert (Hn : (Z.to_nat (Tarea_id x - 1) < length tiempos)%nat).
    { apply nth_error_Some. congruence. }
    lia.
Qed.

(** X16.  The grouping loop of [main] is safe and faithful on every state
    the search can return from the initial state of [main], the absolute
    values of the durations adding up to an [int]: each access
    [tiempos[a.tarea_id - 1]] is within the vector, the tasks listed for
    a machine are those that the history gives to it, in order, with one
    duration each, and the durations listed for a machine of the state add
    up to its [tiempo_ocupado]. *)
Theorem agrupar_por_maquina_correcto (N : nat) (tiempos : list Z) (e : Estado) :
  suma_absoluta tiempos <= Double.INT_MAX ->
  alcanzable (estado_de_main N tiempos) e ->
  (forall a, In a (Asignaciones e) -> 1 <= tarea_id a <= Z.of_nat (length tiempos))
  /\ exists tareas_por_maquina tiempos_por_maquina,
      agrupar_por_maquina tiempos (Asignaciones e)
      = Some (tareas_por_maquina, tiempos_por_maquina)
      /\ (forall k, tareas_por_maquina k
                    = map tarea_id (filter (fun a => maquina_id a =? k) (Asignaciones e)))
      /\ (forall k, length (tiempos_por_maquina k) = length (tareas_por_maquina k))
      /\ (forall m, In m (M e) ->
                    fold_right Z.add 0 (tiempos_por_maquina (Maquina_id m))
                    = tiempo_ocupado m).
Proof.
  intros _ Halc. split.
  { intros a Ha. apply (indexar_historia N tiempos e a Halc Ha). }
  destruct (agrupar_desde tiempos
              (fun a => duracion (estado_de_main N tiempos) (tarea_id a))
              (Asignaciones e)
              (fun a Ha => proj1 (indexar_historia N tiempos e a Halc Ha))
              mapa_vacio mapa_vacio)
    as (tpm & dpm & Hfold & Hk).
  exists tpm, dpm. split; [exact Hfold |]. repeat split.
  - intros k. destruct (Hk k) as [Ht _]. exact Ht.
  - intros k. destruct (Hk k) as [Ht Hd]. rewrite Ht, Hd. simpl.
    now rewrite !length_map.
  - intros m Hm. destruct (Hk (Maquina_id m)) as [_ Hd]. rewrite Hd. simpl.
    pose proof (coherente_desde_main N tiempos e Halc) as Hcoh.
    rewrite (coh_cargas _ _ Hcoh m Hm). reflexivity.
Qed.

Lemma agrupar_por_maquina_correcto_testigo :
  suma_absoluta [5; 5; 3] <= Double.INT_MAX
  /\ alcanzable (estado_de_main 2 [5; 5; 3]) (asignarTarea (estado_de_main 2 [5; 5; 3]) 3 2)
  /\ exists tareas_por_maquina tiempos_por_maquina,
      agrupar_por_maquina [5; 5; 3]
        (Asignaciones (asignarTarea (estado_de_main 2 [5; 5; 3]) 3 2))
      = Some (tareas_por_maquina, tiempos_por_maquina)
      /\ (forall k, tareas_por_maquina k
                    = map tarea_id
                        (filter (fun a => maquina_id a =? k)
                           (Asignaciones (asignarTarea (estado_de_main 2 [5; 5; 3]) 3 2))))
      /\ (forall k, length (tiempos_por_maquina k) = length (tareas_por_maquina k))
      /\ (forall m, In m (M (asignarTarea (estado_de_main 2 [5; 5; 3]) 3 2)) ->
                    fold_right Z.add 0 (tiempos_por_maquina (Maquina_id m))
                    = tiempo_ocupado m).
Proof.
  assert (Halc : alcanzable (estado_de_main 2 [5; 5; 3])
                            (asignarTarea (estado_de_main 2 [5; 5; 3]) 3 2)).
  { apply alcanzable_sucesor with (estado_de_main 2 [5; 5; 3]); [constructor|].
    simpl. auto 10. }
  assert (Hsum : suma_absoluta [5; 5; 3] <= Double.INT_MAX).
  { vm_compute. discriminate. }
  split; [exact Hsum | split; [exact Halc |]].
  exact (proj2 (agrupar_por_maquina_correcto 2 [5; 5; 3] _ Hsum Halc)).
Defined.

(** The grouping of the result of scenario A: tasks 1 and 3, of durations
    5 and 3, on machine 1, and task 2, of duration 5, on machine 2. *)
Example agrupar_por_maquina_ejemplo :
  option_map (fun p => (fst p 1, snd p 1, fst p 2, snd p 2))
    (agrupar_por_maquina [5; 5; 3]
       [ {| tarea_id := 1; maquina_id := 1; posicion := 0 |};
         {| tarea_id := 3; maquina_id := 1; posicion := 0 |};
         {| tarea_id := 2; maquina_id := 2; posicion := 0 |} ])
  = Some ([1; 3], [5; 3], [2], [5]).
Proof. reflexivity. Qed.

(** ** The comparisons of machines and tasks *)

(** X17.  The operators of [Maquina] and [Tarea] are coherent.  On
    machines [operator==] is identity of the two fields and [operator<]
    is a strict total order: exactly one of [a < b], [a == b], [b < a]
    holds.  On tasks both operators look at the id alone: [s == t] holds
    exactly when neither is less than the other, that is when the ids
    are equal, whatever the durations. *)
Theorem operadores_coherentes (a b : Maquina) (s t : Tarea) :
  (Maquina_eq a b = true <-> a = b)
  /\ (Maquina_lt a b = true \/ Maquina_eq a b = true \/ Maquina_lt b a = true)
  /\ (Maquina_lt a b = true -> Maquina_eq a b = false /\ Maquina_lt b a = false)
  /\ (Maquina_eq a b = true -> Maquina_lt a b = false /\ Maquina_lt b a = false)
  /\ Tarea_eq s t = negb (Tarea_lt s t) && negb (Tarea_lt t s)
  /\ (Tarea_eq s t = true <-> Tarea_id s = Tarea_id t).
Proof.
  destruct a as [i x], b as [j y]. unfold Maquina_eq, Maquina_lt, Tarea_eq, Tarea_lt. simpl.
  repeat split.
  - rewrite andb_true_iff, !Z.eqb_eq. intros [-> ->]. reflexivity.
  - intros [= -> ->]. now rewrite !Z.eqb_refl.
  - destruct (Z.lt_total i j) as [Hij | [-> | Hji]].
    + left. apply Z.ltb_lt in Hij. now rewrite Hij.
    + rewrite Z.eqb_refl, Z.ltb_irrefl. simpl.
      destruct (Z.lt_total x y) as [Hxy | [-> | Hyx]].
      * left. now apply Z.ltb_lt.
      * right. left. apply Z.eqb_refl.
      * right. right. now apply Z.ltb_lt.
    + right. right. apply Z.ltb_lt in Hji. now rewrite Hji.
  - rewrite orb_true_iff, andb_true_iff, Z.ltb_lt, Z.eqb_eq, Z.ltb_lt in H.
    apply andb_false_iff. rewrite !Z.eqb_neq. lia.
  - rewrite orb_true_iff, andb_true_iff, Z.ltb_lt, Z.eqb_eq, Z.ltb_lt in H.
    apply orb_false_iff. rewrite andb_false_iff, !Z.ltb_ge, Z.eqb_neq. lia.
  - rewrite andb_true_iff, !Z.eqb_eq in H. destruct H as [-> ->].
    now rewrite !Z.ltb_irrefl, andb_false_r.
  - rewrite andb_true_iff, !Z.eqb_eq in H. destruct H as [-> ->].
    now rewrite !Z.ltb_irrefl, andb_false_r.
  - destruct (Z.lt_total (Tarea_id s) (Tarea_id t)) as [Hst | [Heq | Hts]].
    + pose proof Hst as Hst'. apply Z.ltb_lt in Hst'. rewrite Hst'. simpl.
      apply Z.eqb_neq. lia.
    + rewrite Heq, Z.eqb_refl, Z.ltb_irrefl. reflexivity.
    + pose proof Hts as Hts'. apply Z.ltb_lt in Hts'. rewrite Hts'.
      rewrite andb_false_r. apply Z.eqb_neq. lia.
  - apply Z.eqb_eq.
  - apply Z.eqb_eq.
Qed.

(** ** Rounding errors of the operations on [double]

    The operations of [SpecFloat] are followed step by step on the
    rational values of their operands: a right shift keeps track of where
    the exact result lies, rounding to nearest moves it by at most half a
    unit of the last place, and the quotient, the difference and
    [std::round] inherit the bounds. *)

Module ValorFacts.
Import QArith Qpower Lqa Valor.
Local Open Scope Q_scope.

Lemma dos_positivo (e : Z) : 0 < dos e.
Proof. apply Qpower_0_lt. reflexivity. Qed.

Lemma dos_suma (a b : Z) : dos (a + b) == dos a * dos b.
Proof. apply Qpower_plus. discriminate. Qed.

Lemma dos_siguiente (e : Z) : dos (e + 1) == 2 * dos e.
Proof. rewrite dos_suma. change (dos 1) with 2. ring. Qed.

Lemma dos_creciente (a b : Z) : (a <= b)%Z -> dos a <= dos b.
Proof. intros H. apply Qpower_le_compat_l; [exact H | discriminate]. Qed.

Lemma dos_entero (n : Z) : (0 <= n)%Z -> dos n == inject_Z (2 ^ n).
Proof. intros H. unfold dos. now rewrite Zpower_Qpower. Qed.

Lemma valor_doble (m e : Z) : valor (2 * m) e == valor m (e + 1).
Proof. unfold valor. rewrite inject_Z_mult, dos_siguiente. change (inject_Z 2) with 2. ring. Qed.

Lemma valor_suma (a b e : Z) : valor (a + b) e == valor a e + valor b e.
Proof. unfold valor. rewrite inject_Z_plus. ring. Qed.

Lemma valor_uno (e : Z) : valor 1 e == dos e.
Proof. unfold valor. change (inject_Z 1) with 1. ring. Qed.

Lemma valor_cero (e : Z) : valor 0 e == 0.
Proof. unfold valor. change (inject_Z 0) with 0. ring. Qed.

Lemma shr_1_encierra (mrs : shr_record) (e : Z) (x : Q) :
  (0 <= shr_m mrs)%Z -> encierra mrs e x -> encierra (shr_1 mrs) (e + 1) x.
Proof.
  destruct mrs as [m r s]. intros Hm. cbn [shr_m] in Hm.
  pose proof (dos_positivo e) as HP. pose proof (dos_siguiente e) as H2.
  assert (Hcases : exists m' b, (b = 0 \/ b = 1)%Z /\ m = (2 * m' + b)%Z
             /\ shr_1 {| shr_m := m; shr_r := r; shr_s := s |}
                = {| shr_m := m'; shr_r := Z.eqb b 1; shr_s := r || s |}).
  { destruct m as [|[p|p|]|p]; try lia.
    - exists 0%Z, 0%Z. repeat split; auto.
    - exists (Z.pos p), 1%Z. repeat split; auto.
    - exists (Z.pos p), 0%Z. repeat split; auto.
    - exists 0%Z, 1%Z. repeat split; auto. }
  destruct Hcases as (m' & b & Hb & -> & ->).
  unfold encierra. cbn [shr_m shr_r shr_s].
  assert (HV : valor (2 * m' + b) e == valor m' (e + 1) + inject_Z b * dos e).
  { rewrite valor_suma, valor_doble. unfold valor. ring. }
  revert HV H2 HP.
  generalize (valor (2 * m' + b) e) (valor m' (e + 1)) (dos (e + 1)) (dos e).
  intros V W P' P HV H2 HP.
  destruct Hb as [-> | ->].
  - change (inject_Z 0) with 0 in HV. change (0 =? 1)%Z with false.
    destruct r, s; cbn [orb]; intros Hx; try split; lra.
  - change (inject_Z 1) with 1 in HV. change (1 =? 1)%Z with true.
    destruct r, s; cbn [orb]; intros Hx; try split; lra.
Qed.


Lemma encierra_entre (mrs : shr_record) (e : Z) (x : Q) :
  encierra mrs e x -> valor (shr_m mrs) e <= x /\ x < valor (shr_m mrs) e + dos e.
Proof.
  unfold encierra. pose proof (dos_positivo e).
  destruct (shr_r mrs), (shr_s mrs); intros Hx; split; lra.
Qed.

Lemma iter_shr_1_encierra (k : nat) (mrs : shr_record) (e : Z) (x : Q) :
  (0 <= shr_m mrs)%Z -> encierra mrs e x ->
  (0 <= shr_m (Nat.iter k shr_1 mrs))%Z
  /\ encierra (Nat.iter k shr_1 mrs) (e + Z.of_nat k) x.
Proof.
  intros Hm Hx. induction k as [|k [IHm IHx]].
  - simpl. rewrite Z.add_0_r. auto.
  - change (Nat.iter (S k) shr_1 mrs) with (shr_1 (Nat.iter k shr_1 mrs)). split.
    + now apply shr_1_no_negativo.
    + replace (e + Z.of_nat (S k))%Z with (e + Z.of_nat k + 1)%Z by lia.
      now apply shr_1_encierra.
Qed.

Lemma digits2_cotas (p : positive) :
  (2 ^ (Z.pos (digits2_pos p) - 1) <= Z.pos p < 2 ^ Z.pos (digits2_pos p))%Z.
Proof.
  induction p as [p IH|p IH|]; cbn [digits2_pos].
  - rewrite Pos2Z.inj_succ. replace (Z.succ (Z.pos (digits2_pos p)) - 1)%Z
      with (Z.succ (Z.pos (digits2_pos p) - 1)) by lia.
    rewrite !Z.pow_succ_r by lia. lia.
  - rewrite Pos2Z.inj_succ. replace (Z.succ (Z.pos (digits2_pos p)) - 1)%Z
      with (Z.succ (Z.pos (digits2_pos p) - 1)) by lia.
    rewrite !Z.pow_succ_r by lia. lia.
  - simpl. lia.
Qed.

Lemma Zdigits2_no_negativo (m : Z) : (0 <= Zdigits2 m)%Z.
Proof. destruct m; simpl; lia. Qed.

Lemma Zdigits2_cota_superior (m : Z) : (0 <= m -> m < 2 ^ Zdigits2 m)%Z.
Proof.
  destruct m as [|p|p]; intros Hm; try lia.
  - simpl. lia.
  - apply digits2_cotas.
Qed.

Lemma Zdigits2_cota_inferior (m : Z) : (0 < m -> 2 ^ (Zdigits2 m - 1) <= m)%Z.
Proof.
  destruct m as [|p|p]; intros Hm; try lia. apply digits2_cotas.
Qed.

Lemma Zdigits2_menor (m k : Z) : (0 <= m -> 0 <= k -> m < 2 ^ k -> Zdigits2 m <= k)%Z.
Proof.
  intros Hm Hk Hlt. destruct m as [|p|p]; try lia.
  - simpl. lia.
  - rewrite <- (Z2Nat.id k) by lia. apply digits_cota. now rewrite Z2Nat.id by lia.
Qed.

Lemma Zdigits2_creciente (a b : Z) : (0 <= a <= b -> Zdigits2 a <= Zdigits2 b)%Z.
Proof.
  intros [Ha Hab]. apply Zdigits2_menor; [lia | apply Zdigits2_no_negativo |].
  apply Z.le_lt_trans with b; [exact Hab | apply Zdigits2_cota_superior; lia].
Qed.

Lemma Zdigits2_siguiente (m : Z) : (0 <= m -> Zdigits2 (m + 1) <= Zdigits2 m + 1)%Z.
Proof.
  intros Hm. pose proof (Zdigits2_no_negativo m) as Hd.
  apply Zdigits2_menor; [lia | lia |].
  pose proof (Zdigits2_cota_superior m Hm) as Hc.
  rewrite Z.pow_add_r by lia. change (2 ^ 1)%Z with 2%Z.
  assert (0 < 2 ^ Zdigits2 m)%Z by (apply Z.pow_pos_nonneg; lia). lia.
Qed.

Lemma Zdigits2_shr_1 (mrs : shr_record) :
  (0 <= shr_m mrs)%Z ->
  Zdigits2 (shr_m (shr_1 mrs)) = Z.max 0 (Zdigits2 (shr_m mrs) - 1).
Proof.
  destruct mrs as [m r s]. cbn [shr_m]. intros Hm.
  destruct m as [|[p|p|]|p]; try lia; cbn [shr_1 shr_m Zdigits2 digits2_pos];
    try rewrite Pos2Z.inj_succ; lia.
Qed.

Lemma Zdigits2_iter_shr_1 (k : nat) (mrs : shr_record) :
  (0 <= shr_m mrs)%Z ->
  Zdigits2 (shr_m (Nat.iter k shr_1 mrs)) = Z.max 0 (Zdigits2 (shr_m mrs) - Z.of_nat k).
Proof.
  intros Hm. pose proof (Zdigits2_no_negativo (shr_m mrs)) as Hd.
  induction k as [|k IH].
  - simpl. lia.
  - change (Nat.iter (S k) shr_1 mrs) with (shr_1 (Nat.iter k shr_1 mrs)).
    rewrite Zdigits2_shr_1.
    + rewrite IH. lia.
    + clear IH. induction k; simpl; [assumption | now apply shr_1_no_negativo].
Qed.

Lemma fexp64_eq (n : Z) : fexp64 n = Z.max (n - 53) (-1074).
Proof. reflexivity. Qed.

Lemma shr_record_of_loc_m (m : Z) (l : location) : shr_m (shr_record_of_loc m l) = m.
Proof. destruct l as [|[]]; reflexivity. Qed.

(** What [shr_fexp] does: it shifts the mantissa right until the exponent
    is the one of the format, keeping track of where the number lies. *)
Lemma shr_fexp_encierra (m e : Z) (l : location) (x : Q) :
  (0 <= m)%Z ->
  encierra (shr_record_of_loc m l) e x ->
  exists mrs' e',
    shr_fexp Double.prec Double.emax m e l = (mrs', e')
    /\ encierra mrs' e' x
    /\ (0 <= shr_m mrs')%Z
    /\ e' = Z.max e (fexp64 (Zdigits2 m + e))
    /\ Zdigits2 (shr_m mrs') = Z.max 0 (Zdigits2 m - (e' - e))
    /\ ((fexp64 (Zdigits2 m + e) <= e)%Z -> mrs' = shr_record_of_loc m l).
Proof.
  intros Hm Hx. unfold shr_fexp, shr.
  change (fexp Double.prec Double.emax) with fexp64.
  pose proof (Zdigits2_no_negativo m) as Hd.
  destruct (fexp64 (Zdigits2 m + e) - e)%Z as [|n|n] eqn:Hn.
  - exists (shr_record_of_loc m l), e. rewrite shr_record_of_loc_m.
    repeat split; auto; lia.
  - exists (SpecFloat.iter_pos shr_1 n (shr_record_of_loc m l)), (e + Z.pos n)%Z.
    rewrite iter_pos_nat.
    destruct (iter_shr_1_encierra (Pos.to_nat n) (shr_record_of_loc m l) e x)
      as [H1 H2]; [now rewrite shr_record_of_loc_m | exact Hx |].
    rewrite positive_nat_Z in H2.
    rewrite Zdigits2_iter_shr_1 by now rewrite shr_record_of_loc_m.
    rewrite shr_record_of_loc_m, positive_nat_Z.
    repeat split; auto; lia.
  - exists (shr_record_of_loc m l), e. rewrite shr_record_of_loc_m.
    repeat split; auto; lia.
Qed.


Lemma redondeo_cercano (mrs : shr_record) (e : Z) (x : Q) :
  encierra mrs e x ->
  (shr_m mrs <= round_nearest_even (shr_m mrs) (loc_of_shr_record mrs) <= shr_m mrs + 1)%Z
  /\ valor (round_nearest_even (shr_m mrs) (loc_of_shr_record mrs)) e <= x + (1 # 2) * dos e
  /\ x <= valor (round_nearest_even (shr_m mrs) (loc_of_shr_record mrs)) e + (1 # 2) * dos e.
Proof.
  destruct mrs as [m r s]. unfold encierra. cbn [shr_m shr_r shr_s].
  pose proof (dos_positivo e) as HP.
  pose proof (valor_suma m 1 e) as Hs. rewrite valor_uno in Hs.
  destruct r, s; cbn [loc_of_shr_record round_nearest_even]; intros Hx.
  - repeat split; try lia; lra.
  - destruct (Z.even m); repeat split; try lia; lra.
  - repeat split; try lia; lra.
  - repeat split; try lia; lra.
Qed.

(** Rounding to the format: the result is a zero or a finite number of the
    sign asked for, and it lies within a fraction of [2^(K-53)] of the
    number rounded, where [2^K] bounds that number. *)
Lemma binary_round_aux_cerca (s : bool) (mx ex : Z) (lx : location) (x : Q) (K : Z) :
  (0 <= mx)%Z ->
  encierra (shr_record_of_loc mx lx) ex x ->
  (Zdigits2 mx + ex <= K)%Z ->
  (-1021 <= K <= 970)%Z ->
  lx = loc_Exact \/ (ex <= K - 53)%Z ->
  (binary_round_aux Double.prec Double.emax s mx ex lx = S754_zero s
   \/ exists m e,
       binary_round_aux Double.prec Double.emax s mx ex lx = S754_finite s m e
       /\ (Z.pos (digits2_pos m) + e <= K + 1)%Z)
  /\ magnitud (binary_round_aux Double.prec Double.emax s mx ex lx) <= x + dos (K - 54)
  /\ x - dos (K - 51) <= magnitud (binary_round_aux Double.prec Double.emax s mx ex lx).
Proof.
  intros Hmx Hx HK HKr Hl.
  destruct (shr_fexp_encierra mx ex lx x Hmx Hx)
    as (mrs1 & e1 & Heq1 & Hx1 & Hm1 & He1 & Hd1 & Hex1).
  destruct (redondeo_cercano mrs1 e1 x Hx1) as (Hm2 & Hsup & Hinf).
  set (m2 := round_nearest_even (shr_m mrs1) (loc_of_shr_record mrs1)) in *.
  destruct (shr_fexp_encierra m2 e1 loc_Exact (valor m2 e1))
    as (mrs2 & e2 & Heq2 & Hx2 & Hm2' & He2 & Hd2 & Hex2); [lia | reflexivity |].
  apply encierra_entre in Hx2.
  unfold binary_round_aux. rewrite Heq1. fold m2. rewrite Heq2.
  pose proof (Zdigits2_no_negativo mx) as Hdx.
  pose proof (dos_positivo (K - 54)) as HP.
  assert (H53 : dos (K - 53) == 2 * dos (K - 54)).
  { replace (K - 53)%Z with (K - 54 + 1)%Z by lia. apply dos_siguiente. }
  assert (H52 : dos (K - 52) == 4 * dos (K - 54)).
  { replace (K - 52)%Z with (K - 53 + 1)%Z by lia. rewrite dos_siguiente, H53. ring. }
  assert (H51 : dos (K - 51) == 8 * dos (K - 54)).
  { replace (K - 51)%Z with (K - 52 + 1)%Z by lia. rewrite dos_siguiente, H52. ring. }
  assert (Hcaso : (lx = loc_Exact /\ (fexp64 (Zdigits2 mx + ex) <= ex)%Z)
                  \/ (e1 <= K - 53)%Z).
  { rewrite fexp64_eq in *. destruct Hl as [-> | Hl]; [|right; lia].
    destruct (Z_le_gt_dec (Z.max (Zdigits2 mx + ex - 53) (-1074)) ex); [left; auto | right; lia]. }
  destruct Hcaso as [[-> Hle] | He1'].
  - (* nothing to round *)
    pose proof (Hex1 Hle) as ->. cbn [shr_record_of_loc loc_of_shr_record shr_m] in *.
    unfold encierra in Hx1. cbn [shr_m shr_r shr_s] in Hx1.
    assert (He1eq : e1 = ex) by lia. clear He1. subst e1.
    unfold round_nearest_even in m2. subst m2.
    pose proof (Hex2 Hle) as ->. cbn [shr_record_of_loc shr_m] in *.
    assert (He2eq : e2 = ex) by lia. clear He2. subst e2.
    destruct mx as [|p|p]; [| |lia].
    + rewrite valor_cero in Hx1. cbn [magnitud]. split; [now left|]. split; lra.
    + cbn [Zdigits2] in *.
      assert (Hov : (ex <=? Double.emax - Double.prec)%Z = true).
      { apply Z.leb_le. change (Double.emax - Double.prec)%Z with 971%Z. lia. }
      rewrite Hov. cbn [magnitud]. split.
      * right. exists p, ex. split; [reflexivity | lia].
      * split; lra.
  - (* the result of a rounding *)
    assert (Hd1' : (Zdigits2 (shr_m mrs1) + e1 <= K)%Z) by lia.
    assert (Hdm2 : (Zdigits2 m2 <= Zdigits2 (shr_m mrs1) + 1)%Z).
    { apply Z.le_trans with (Zdigits2 (shr_m mrs1 + 1)).
      - apply Zdigits2_creciente. lia.
      - now apply Zdigits2_siguiente. }
    assert (He2' : (e2 <= K - 52)%Z).
    { rewrite fexp64_eq in He2. lia. }
    pose proof (dos_creciente e1 (K - 53) He1') as Hc1.
    pose proof (dos_creciente e2 (K - 52) He2') as Hc2.
    pose proof (dos_positivo e1) as HP1. pose proof (dos_positivo e2) as HP2.
    destruct (shr_m mrs2) as [|p|p] eqn:Hp; [| |lia].
    + rewrite valor_cero in Hx2. cbn [magnitud]. split; [now left|]. split; lra.
    + assert (Hov : (e2 <=? Double.emax - Double.prec)%Z = true).
      { apply Z.leb_le. change (Double.emax - Double.prec)%Z with 971%Z. lia. }
      rewrite Hov. cbn [magnitud]. cbn [Zdigits2] in Hd2. split.
      * right. exists p, e2. split; [reflexivity | lia].
      * split; lra.
Qed.


Lemma cociente_posicion (t P Y r : Q) :
  0 < P -> 0 < Y -> t * Y == r * P ->
  (r == 0 -> t == 0)
  /\ (0 < r -> 0 < t)
  /\ (2 * r < Y -> t < (1 # 2) * P)
  /\ (2 * r == Y -> t == (1 # 2) * P)
  /\ (Y < 2 * r -> (1 # 2) * P < t)
  /\ (r < Y -> t < P).
Proof.
  intros HP HY Ht.
  assert (Hcancel : forall a b, a * Y < b * Y -> a < b).
  { intros a b Hab. now apply Qmult_lt_r in Hab. }
  assert (Hprod : forall a b, a < b -> a * P < b * P).
  { intros a b Hab. now apply Qmult_lt_r. }
  repeat split.
  - intros Hr. apply (Qmult_inj_r _ _ Y); [lra|]. rewrite Ht, Hr. ring.
  - intros Hr. apply Hcancel. apply Hprod in Hr. lra.
  - intros Hr. apply Hcancel. apply Hprod in Hr. lra.
  - intros Hr. apply (Qmult_inj_r _ _ Y); [lra|]. rewrite Ht.
    rewrite <- Hr. ring.
  - intros Hr. apply Hcancel. apply Hprod in Hr. lra.
  - intros Hr. apply Hcancel. apply Hprod in Hr. lra.
Qed.


(** The quotient of two positive finite numbers, as [SFdiv] computes it:
    no overflow below [2^970], and an error of a fraction of [2^(K-53)]
    when the quotient is below [2^K]. *)
Lemma div_cerca (mx my : positive) (ex ey : Z) (K : Z) (x : Q) :
  x * valor (Z.pos my) ey == valor (Z.pos mx) ex ->
  (Z.pos (digits2_pos mx) + ex - (Z.pos (digits2_pos my) + ey) + 1 <= K)%Z ->
  (-1021 <= K <= 970)%Z ->
  (Double.div (S754_finite false mx ex) (S754_finite false my ey) = S754_zero false
   \/ exists m e,
       Double.div (S754_finite false mx ex) (S754_finite false my ey) = S754_finite false m e
       /\ (Z.pos (digits2_pos m) + e <= K + 1)%Z)
  /\ magnitud (Double.div (S754_finite false mx ex) (S754_finite false my ey))
     <= x + dos (K - 54)
  /\ x - dos (K - 51)
     <= magnitud (Double.div (S754_finite false mx ex) (S754_finite false my ey)).
Proof.
  intros Hx HK HKr.
  unfold Double.div, SFdiv, SFdiv_core_binary. cbv zeta. cbn [Zdigits2 xorb].
  change (fexp Double.prec Double.emax) with fexp64.
  set (D := (Z.pos (digits2_pos mx) + ex - (Z.pos (digits2_pos my) + ey))%Z) in *.
  set (e' := Z.min (fexp64 D) (ex - ey)).
  set (s := (ex - ey - e')%Z).
  assert (Hs : (0 <= s)%Z) by (unfold s, e'; lia).
  set (m' := match s with
             | 0%Z => Z.pos mx
             | Z.pos _ => Z.shiftl (Z.pos mx) s
             | Z.neg _ => 0%Z
             end).
  assert (Hm' : m' = (Z.pos mx * 2 ^ s)%Z).
  { unfold m'. destruct s as [|p|p] eqn:E; [simpl; lia | | lia].
    now rewrite Z.shiftl_mul_pow2 by lia. }
  clearbody m'.
  pose proof (Z_div_mod m' (Z.pos my) eq_refl) as Hdm.
  destruct (Z.div_eucl m' (Z.pos my)) as [q r]. destruct Hdm as [Hqr Hr].
  assert (Hpot : (0 < 2 ^ s)%Z) by (apply Z.pow_pos_nonneg; lia).
  assert (Hq : (0 <= q)%Z) by nia.
  assert (He' : (e' <= K - 53)%Z).
  { unfold e'. rewrite fexp64_eq. lia. }
  apply binary_round_aux_cerca; auto.
  - (* where the quotient lies *)
    set (P := dos e'). set (Y := inject_Z (Z.pos my)).
    assert (HP : 0 < P) by apply dos_positivo.
    assert (HY : 0 < Y).
    { unfold Y. change 0 with (inject_Z 0). rewrite <- Zlt_Qlt. lia. }
    assert (Hex : dos ex == dos ey * inject_Z (2 ^ s) * P).
    { unfold P. rewrite <- dos_entero by lia. rewrite <- !dos_suma.
      replace (ey + s + e')%Z with ex by (unfold s; lia). reflexivity. }
    assert (HxY : x * Y == inject_Z m' * P).
    { apply (Qmult_inj_r _ _ (dos ey)); [pose proof (dos_positivo ey); lra|].
      transitivity (x * (Y * dos ey)); [ring|].
      unfold valor in Hx. fold Y in Hx. rewrite Hx, Hex, Hm', inject_Z_mult. ring. }
    assert (Ht : (x - valor q e') * Y == inject_Z r * P).
    { unfold valor. fold P. rewrite Hqr, inject_Z_plus, inject_Z_mult in HxY.
      fold Y in HxY. lra. }
    destruct (cociente_posicion _ _ _ _ HP HY Ht) as (H0 & Hpos & Hlt & Heq & Hgt & Hmax).
    assert (Hrpos : r <> 0%Z -> 0 < inject_Z r).
    { intros Hne. change 0 with (inject_Z 0). rewrite <- Zlt_Qlt. lia. }
    assert (HrY : inject_Z r < Y).
    { unfold Y. rewrite <- Zlt_Qlt. lia. }
    unfold new_location, new_location_even, new_location_odd.
    destruct (Z.even (Z.pos my)) eqn:Hev; destruct (Z.eqb_spec r 0) as [Hr0 | Hr0].
    + unfold encierra. cbn. subst r. specialize (H0 (Qeq_refl _)). lra.
    + specialize (Hpos (Hrpos Hr0)). specialize (Hmax HrY).
      destruct (Z.compare_spec (2 * r) (Z.pos my)) as [Hc | Hc | Hc]; unfold encierra; cbn.
      * rewrite <- Hc in Hev.
        assert (HcQ : 2 * inject_Z r == Y).
        { unfold Y. rewrite <- Hc, inject_Z_mult. reflexivity. }
        specialize (Heq HcQ). fold P. lra.
      * rewrite Zlt_Qlt, inject_Z_mult in Hc. specialize (Hlt Hc). fold P. lra.
      * rewrite Zlt_Qlt, inject_Z_mult in Hc. specialize (Hgt Hc). fold P. lra.
    + unfold encierra. cbn. subst r. specialize (H0 (Qeq_refl _)). lra.
    + specialize (Hpos (Hrpos Hr0)). specialize (Hmax HrY).
      assert (Hne : (2 * r)%Z <> Z.pos my).
      { intros Heq2. rewrite <- Heq2, Z.even_mul in Hev. discriminate. }
      destruct (Z.compare_spec (2 * r + 1) (Z.pos my)) as [Hc | Hc | Hc]; unfold encierra; cbn.
      * assert (Hc' : (2 * r < Z.pos my)%Z) by lia.
        rewrite Zlt_Qlt, inject_Z_mult in Hc'. specialize (Hlt Hc'). fold P. lra.
      * assert (Hc' : (2 * r < Z.pos my)%Z) by lia.
        rewrite Zlt_Qlt, inject_Z_mult in Hc'. specialize (Hlt Hc'). fold P. lra.
      * assert (Hc' : (Z.pos my < 2 * r)%Z) by lia.
        rewrite Zlt_Qlt, inject_Z_mult in Hc'. specialize (Hgt Hc'). fold P. lra.
  - (* the size of the quotient *)
    pose proof (Zdigits2_no_negativo q) as Hdq.
    pose proof (digits2_cotas mx) as [_ Hmx]. pose proof (digits2_cotas my) as [Hmy _].
    set (d1 := Z.pos (digits2_pos mx)) in *. set (d2 := Z.pos (digits2_pos my)) in *.
    assert (Hd2 : (1 <= d2)%Z) by (unfold d2; lia).
    assert (Hd1 : (1 <= d1)%Z) by (unfold d1; lia).
    assert (Hq2 : (q * 2 ^ (d2 - 1) < 2 ^ (d1 + s))%Z).
    { rewrite Z.pow_add_r by lia.
      assert (0 < 2 ^ (d2 - 1))%Z by (apply Z.pow_pos_nonneg; lia). nia. }
    destruct (Z_le_gt_dec (d1 + s - d2 + 1) 0) as [Hneg | Hposi].
    + assert (Hq0 : q = 0%Z).
      { assert (2 ^ (d1 + s) <= 2 ^ (d2 - 1))%Z by (apply Z.pow_le_mono_r; lia).
        assert (0 < 2 ^ (d2 - 1))%Z by (apply Z.pow_pos_nonneg; lia). nia. }
      subst q. simpl. lia.
    + assert (Hdq' : (Zdigits2 q <= d1 + s - d2 + 1)%Z).
      { apply Zdigits2_menor; [lia | lia |].
        replace (d1 + s - d2 + 1)%Z with ((d1 + s) - (d2 - 1))%Z by lia.
        assert (Hsplit : (2 ^ (d1 + s) = 2 ^ (d1 + s - (d2 - 1)) * 2 ^ (d2 - 1))%Z).
        { rewrite <- Z.pow_add_r by lia. f_equal. lia. }
        assert (0 < 2 ^ (d2 - 1))%Z by (apply Z.pow_pos_nonneg; lia).
        rewrite Hsplit in Hq2. nia. }
      unfold s, D in *. lia.
Qed.


Lemma por2_producto (m : positive) (k : nat) :
  Z.pos (por2 m k) = (Z.pos m * 2 ^ Z.of_nat k)%Z.
Proof.
  unfold por2. induction k as [|k IH].
  - simpl. lia.
  - change (Nat.iter (S k) xO m) with (xO (Nat.iter k xO m)).
    rewrite Pos2Z.inj_xO, IH, Nat2Z.inj_succ, Z.pow_succ_r by lia. lia.
Qed.

(** Aligning a mantissa to a smaller exponent changes neither the value
    nor the position of the leading bit. *)
Lemma shl_align_valor (m : positive) (e e' : Z) :
  valor (Z.pos (fst (shl_align m e e'))) (snd (shl_align m e e')) == valor (Z.pos m) e
  /\ (Z.pos (digits2_pos (fst (shl_align m e e'))) + snd (shl_align m e e')
      = Z.pos (digits2_pos m) + e)%Z
  /\ ((e' <= e)%Z -> snd (shl_align m e e') = e').
Proof.
  unfold shl_align. destruct (e' - e)%Z as [|d|d] eqn:Hd; cbn [fst snd].
  - repeat split; try reflexivity. intros; lia.
  - repeat split; try reflexivity. intros; lia.
  - rewrite Pos_iter_por2, digits_por2, positive_nat_Z. repeat split; try lia.
    unfold valor. rewrite por2_producto, positive_nat_Z, inject_Z_mult.
    rewrite <- dos_entero by lia.
    assert (He : dos e == dos (Z.pos d) * dos e').
    { rewrite <- dos_suma. replace (Z.pos d + e')%Z with e by lia. reflexivity. }
    rewrite He. ring.
Qed.

Lemma binary_round_cerca (s : bool) (m : positive) (e K : Z) :
  (Z.pos (digits2_pos m) + e <= K)%Z ->
  (-1021 <= K <= 970)%Z ->
  (binary_round Double.prec Double.emax s m e = S754_zero s
   \/ exists m' e',
       binary_round Double.prec Double.emax s m e = S754_finite s m' e'
       /\ (Z.pos (digits2_pos m') + e' <= K + 1)%Z)
  /\ magnitud (binary_round Double.prec Double.emax s m e) <= valor (Z.pos m) e + dos (K - 54)
  /\ valor (Z.pos m) e - dos (K - 51) <= magnitud (binary_round Double.prec Double.emax s m e).
Proof.
  intros HK HKr. unfold binary_round.
  destruct (shl_align_valor m e (fexp Double.prec Double.emax (Z.pos (digits2_pos m) + e)))
    as (Hv & Hd & _).
  destruct (shl_align m e (fexp Double.prec Double.emax (Z.pos (digits2_pos m) + e)))
    as [mz ez]. cbn [fst snd] in Hv, Hd.
  apply binary_round_aux_cerca; auto.
  - lia.
  - unfold encierra. cbn. symmetry. exact Hv.
  - cbn [Zdigits2]. lia.
Qed.

(** The difference of two positive finite numbers, as [SFsub] computes
    it: of negative sign or zero when the first is not the larger, and
    otherwise at most a fraction of [2^(K-53)] above the exact
    difference, [2^K] bounding the first. *)
Lemma sub_cerca (ma mb : positive) (ea eb K : Z) :
  (Z.pos (digits2_pos ma) + ea <= K)%Z ->
  (-1021 <= K <= 970)%Z ->
  (valor (Z.pos ma) ea <= valor (Z.pos mb) eb ->
   Double.sub (S754_finite false ma ea) (S754_finite false mb eb) = S754_zero false
   \/ Double.sub (S754_finite false ma ea) (S754_finite false mb eb) = S754_zero true
   \/ Double.sub (S754_finite false ma ea) (S754_finite false mb eb) = S754_infinity true
   \/ exists m e,
       Double.sub (S754_finite false ma ea) (S754_finite false mb eb) = S754_finite true m e)
  /\ (valor (Z.pos mb) eb < valor (Z.pos ma) ea ->
      (Double.sub (S754_finite false ma ea) (S754_finite false mb eb) = S754_zero false
       \/ exists m e,
           Double.sub (S754_finite false ma ea) (S754_finite false mb eb)
           = S754_finite false m e)
      /\ magnitud (Double.sub (S754_finite false ma ea) (S754_finite false mb eb))
         <= valor (Z.pos ma) ea - valor (Z.pos mb) eb + dos (K - 54)).
Proof.
  intros HK HKr. unfold Double.sub, SFsub. cbv zeta. cbn [cond_Zopp].
  set (ez := Z.min ea eb).
  destruct (shl_align_valor ma ea ez) as (Hva & Hda & Hea).
  destruct (shl_align_valor mb eb ez) as (Hvb & Hdb & Heb).
  rewrite Hea in * by (unfold ez; lia). rewrite Heb in * by (unfold ez; lia).
  set (A := fst (shl_align ma ea ez)) in *. set (B := fst (shl_align mb eb ez)) in *.
  assert (Hdif : valor (Z.pos A - Z.pos B) ez == valor (Z.pos ma) ea - valor (Z.pos mb) eb).
  { rewrite <- Hva, <- Hvb. unfold valor.
    replace (Z.pos A - Z.pos B)%Z with (Z.pos A + - Z.pos B)%Z by lia.
    rewrite inject_Z_plus, inject_Z_opp. ring. }
  pose proof (dos_positivo ez) as HP.
  assert (Hsigno : forall z : Z, (0 < z)%Z -> 0 < valor z ez).
  { intros z Hz. unfold valor. apply Qmult_lt_0_compat; [|exact HP].
    change 0 with (inject_Z 0). now rewrite <- Zlt_Qlt. }
  destruct (Z.pos A - Z.pos B)%Z as [|p|p] eqn:Hp; cbn [binary_normalize].
  - split; [now left|]. intros Hlt. rewrite valor_cero in Hdif. lra.
  - split.
    + intros Hle. pose proof (Hsigno (Z.pos p) eq_refl). lra.
    + intros _.
      destruct (binary_round_cerca false p ez K) as (Hforma & Hsup & _); [|exact HKr|].
      * assert (Hpa : (Z.pos (digits2_pos p) <= Z.pos (digits2_pos A))%Z).
        { apply (Zdigits2_creciente (Z.pos p) (Z.pos A)). lia. }
        lia.
      * split; [|lra].
        destruct Hforma as [Hz | (m' & e' & Hf & _)]; [now left | right; eauto].
  - split.
    + intros _. right.
      pose proof (binary_round_signo true p ez) as Hs.
      destruct (binary_round Double.prec Double.emax true p ez) as [s'|s'| |s' m' e'] eqn:Hr.
      * subst s'. now left.
      * subst s'. right. now left.
      * exfalso. unfold binary_round in Hr.
        destruct (shl_align p ez _) as [mz ez'].
        destruct (binary_round_aux_forma true (Z.pos mz) ez' loc_Exact) as [H1 | [H1 | (a & b & H1)]];
          [lia | congruence..].
      * subst s'. right. right. eauto.
    + intros Hlt. assert (Hneg : valor (Z.neg p) ez < 0).
      { replace (Z.neg p) with (- Z.pos p)%Z by lia. unfold valor. rewrite inject_Z_opp.
        pose proof (Hsigno (Z.pos p) eq_refl) as H1. unfold valor in H1. lra. }
      lra.
Qed.


Lemma entero_bajo (a d : Z) : inject_Z a < inject_Z d + (1 # 2) -> (a <= d)%Z.
Proof.
  intros H. destruct (Z_le_gt_dec a d) as [Hle | Hgt]; [exact Hle | exfalso].
  assert (Hd : (d + 1 <= a)%Z) by lia.
  rewrite Zle_Qle, inject_Z_plus in Hd. change (inject_Z 1) with 1 in Hd. lra.
Qed.

(** [std::round] of a positive number below [d + 1/2] is at most [d]. *)
Lemma redondeo_entero (m : positive) (e d : Z) :
  valor (Z.pos m) e < inject_Z d + (1 # 2) ->
  (0 <= Double.parte_entera m e + (if Double.medio_o_mas m e then 1 else 0) <= d)%Z.
Proof.
  intros Hv. split.
  { pose proof (parte_entera_no_negativa m e). destruct (Double.medio_o_mas m e); lia. }
  destruct e as [|k|k]; cbn [Double.parte_entera Double.medio_o_mas].
  - rewrite Z.shiftl_0_r, Z.add_0_r. apply entero_bajo.
    unfold valor in Hv. change (dos 0) with 1 in Hv. lra.
  - rewrite Z.shiftl_mul_pow2, Z.add_0_r by lia. apply entero_bajo.
    rewrite inject_Z_mult, <- dos_entero by lia. exact Hv.
  - set (T := (2 ^ (Z.pos k - 1))%Z).
    assert (HT : (0 < T)%Z) by (apply Z.pow_pos_nonneg; lia).
    assert (H2k : (2 ^ Z.pos k = 2 * T)%Z).
    { unfold T. rewrite <- Z.pow_succ_r by lia. f_equal. lia. }
    assert (Hm : (Z.pos m < (2 * d + 1) * T)%Z).
    { rewrite Zlt_Qlt, inject_Z_mult, inject_Z_plus, inject_Z_mult.
      change (inject_Z 2) with 2. change (inject_Z 1) with 1.
      assert (Hk : dos (Z.neg k) * (2 * inject_Z T) == 1).
      { change 2 with (inject_Z 2). rewrite <- inject_Z_mult, <- H2k, <- dos_entero by lia.
        rewrite <- dos_suma. replace (Z.neg k + Z.pos k)%Z with 0%Z by lia. reflexivity. }
      assert (HTq : 0 < inject_Z T).
      { change 0 with (inject_Z 0). now rewrite <- Zlt_Qlt. }
      unfold valor in Hv.
      assert (Hprod : inject_Z (Z.pos m) * dos (Z.neg k) * (2 * inject_Z T)
                      < (inject_Z d + (1 # 2)) * (2 * inject_Z T)).
      { apply Qmult_lt_r; [lra | exact Hv]. }
      assert (Hleft : inject_Z (Z.pos m) * dos (Z.neg k) * (2 * inject_Z T)
                      == inject_Z (Z.pos m)).
      { rewrite <- Qmult_assoc, Hk. ring. }
      rewrite Hleft in Hprod. lra. }
    set (c := (Z.pos m / T)%Z).
    assert (Hc : (c < 2 * d + 1)%Z) by (apply Z.div_lt_upper_bound; lia).
    assert (Hshr : Z.shiftr (Z.pos m) (Z.pos k) = (c / 2)%Z).
    { rewrite Z.shiftr_div_pow2, H2k by lia. unfold c.
      rewrite Z.mul_comm, Z.div_div by lia. reflexivity. }
    assert (Hbit : Z.b2z (Z.testbit (Z.pos m) (Z.pos k - 1)) = (c mod 2)%Z).
    { apply Z.testbit_spec'. lia. }
    rewrite Hshr.
    pose proof (Z.div_mod c 2 ltac:(lia)) as Hdm.
    pose proof (Z.mod_pos_bound c 2 ltac:(lia)) as Hmod.
    destruct (Z.testbit (Z.pos m) (Z.pos k - 1)); cbn [Z.b2z] in Hbit; lia.
Qed.

Lemma por2_cociente (p : positive) (k : nat) :
  (Z.pos (por2 p k) / 2 ^ Z.of_nat k = Z.pos p)%Z.
Proof.
  rewrite por2_producto. apply Z.div_mul.
  apply Z.pow_nonzero; lia.
Qed.

(** An [int] that is not negative survives the trip through [double]. *)
Lemma static_cast_de_int `{Plataforma} (q : Z) :
  (0 <= q <= Double.INT_MAX)%Z -> static_cast_int (Double.de_int q) = q.
Proof.
  intros [Hq Hmax]. unfold Double.INT_MAX in Hmax.
  destruct q as [|p|p]; [reflexivity | | lia].
  assert (Hd : (Z.pos (digits2_pos p) <= 53)%Z) by (apply (digits_cota p 53); lia).
  rewrite (de_int_positivo p Hd).
  unfold static_cast_int, Double.a_int_definido, Double.truncar.
  assert (Hpe : Double.parte_entera
                  (por2 p (Z.to_nat (53 - Z.pos (digits2_pos p))))
                  (Z.pos (digits2_pos p) - 53) = Z.pos p).
  { unfold Double.parte_entera.
    destruct (Z.pos (digits2_pos p) - 53)%Z as [|j|j] eqn:Hj; [| lia |].
    - replace (53 - Z.pos (digits2_pos p))%Z with 0%Z by lia. reflexivity.
    - rewrite Z.shiftr_div_pow2 by lia.
      replace (Z.pos j) with (Z.of_nat (Z.to_nat (53 - Z.pos (digits2_pos p)))) by lia.
      apply por2_cociente. }
  rewrite Hpe.
  assert (Hr : andb (Double.INT_MIN <=? Z.pos p)%Z (Z.pos p <=? Double.INT_MAX)%Z = true).
  { apply andb_true_iff. split; apply Z.leb_le; unfold Double.INT_MIN, Double.INT_MAX; lia. }
  now rewrite Hr.
Qed.

(** The clamp at 0 followed by [std::round] and the conversion to [int]. *)
Lemma redondear_bajo `{Plataforma} (r : spec_float) (d : Z) :
  (0 <= d <= Double.INT_MAX)%Z ->
  bajo r d ->
  (0 <= static_cast_int
          (Double.round (if Double.ltb r (Double.de_int 0) then Double.de_int 0 else r))
     <= d)%Z.
Proof.
  intros Hd Hr. destruct r as [s | s | | s m e]; cbn [bajo] in Hr.
  - destruct s; cbn; lia.
  - subst s. cbn. lia.
  - contradiction.
  - destruct s.
    + cbn. lia.
    + destruct Hr as [Hr | Hr]; [discriminate|].
      change (Double.ltb (S754_finite false m e) (Double.de_int 0)) with false.
      cbv iota. unfold Double.round.
      pose proof (redondeo_entero m e d Hr) as Hq.
      set (q := (Double.parte_entera m e + (if Double.medio_o_mas m e then 1 else 0))%Z) in *.
      change (binary_normalize Double.prec Double.emax q 0 false) with (Double.de_int q).
      rewrite static_cast_de_int by lia. lia.
Qed.


Lemma de_int_valor (p : positive) :
  (Z.pos (digits2_pos p) <= 53)%Z ->
  exists m e,
    Double.de_int (Z.pos p) = S754_finite false m e
    /\ valor (Z.pos m) e == inject_Z (Z.pos p)
    /\ (Z.pos (digits2_pos m) + e = Z.pos (digits2_pos p))%Z.
Proof.
  intros Hd. rewrite (de_int_positivo p Hd).
  set (k := Z.to_nat (53 - Z.pos (digits2_pos p))).
  exists (por2 p k), (Z.pos (digits2_pos p) - 53)%Z. split; [reflexivity|]. split.
  - unfold valor. rewrite por2_producto, inject_Z_mult, <- dos_entero by lia.
    rewrite <- Qmult_assoc, <- dos_suma.
    replace (Z.of_nat k + (Z.pos (digits2_pos p) - 53))%Z with 0%Z by (unfold k; lia).
    change (dos 0) with 1. ring.
  - rewrite digits_por2. unfold k. lia.
Qed.

(** The quotient of two [int]s held in [double]s, the divisor positive
    and the quotient below [2^31]. *)
Lemma cociente_de_enteros (a : Z) (n : positive) (x : Q) :
  (0 <= a < 2 ^ 53)%Z ->
  (a < Z.pos n * 2 ^ 31)%Z ->
  (Z.pos n < 2 ^ 53)%Z ->
  x * inject_Z (Z.pos n) == inject_Z a ->
  (Double.div (Double.de_int a) (Double.de_int (Z.pos n)) = S754_zero false
   \/ exists m e,
       Double.div (Double.de_int a) (Double.de_int (Z.pos n)) = S754_finite false m e
       /\ (Z.pos (digits2_pos m) + e <= 33)%Z)
  /\ magnitud (Double.div (Double.de_int a) (Double.de_int (Z.pos n))) <= x + dos (-22)
  /\ x - dos (-19) <= magnitud (Double.div (Double.de_int a) (Double.de_int (Z.pos n))).
Proof.
  intros Ha Han Hn Hx.
  assert (Hdn : (Z.pos (digits2_pos n) <= 53)%Z) by (apply (digits_cota n 53); lia).
  destruct (de_int_valor n Hdn) as (mn & en & -> & Hvn & Hdign).
  pose proof (dos_positivo (-22)) as H22. pose proof (dos_positivo (-19)) as H19.
  destruct a as [|p|p]; [| |lia].
  - change (Double.div (Double.de_int 0) (S754_finite false mn en)) with (S754_zero false).
    cbn [magnitud]. split; [now left|].
    assert (Hx0 : x == 0).
    { assert (Hn0 : 0 < inject_Z (Z.pos n)).
      { change 0 with (inject_Z 0). rewrite <- Zlt_Qlt. lia. }
      apply (Qmult_inj_r _ _ (inject_Z (Z.pos n))); [lra|].
      rewrite Hx. change (inject_Z 0) with 0. ring. }
    split; lra.
  - assert (Hdp : (Z.pos (digits2_pos p) <= 53)%Z) by (apply (digits_cota p 53); lia).
    destruct (de_int_valor p Hdp) as (mp & ep & -> & Hvp & Hdigp).
    apply (div_cerca mp mn ep en 32 x).
    + rewrite Hvn, Hvp. exact Hx.
    + assert (Hle : (Z.pos (digits2_pos p) <= Z.pos (digits2_pos n) + 31)%Z).
      { apply (Zdigits2_menor (Z.pos p)); [lia | lia |].
        pose proof (digits2_cotas n) as [_ Hup].
        rewrite Z.pow_add_r by lia. lia. }
      lia.
    + lia.
Qed.

(** The excess that the heuristic rounds, computed in [double] from the
    integers [R], [S] and [N], is a zero, or negative, or below [d + 1/2]
    whenever [(R - S) / N <= d]. *)
Lemma exceso_bajo (R S N d : Z) :
  (0 <= R < 2 ^ 31)%Z ->
  (0 <= S < 2 ^ 53)%Z ->
  (S < N * 2 ^ 31)%Z ->
  (0 < N < 2 ^ 53)%Z ->
  (R - S <= N * d)%Z ->
  bajo (Double.sub (Double.div (Double.de_int R) (Double.de_int N))
                   (Double.div (Double.de_int S) (Double.de_int N))) d.
Proof.
  intros HR HS HSN HN Hd.
  destruct N as [|n|n]; try lia.
  assert (HnQ : 0 < inject_Z (Z.pos n)).
  { change 0 with (inject_Z 0). rewrite <- Zlt_Qlt. lia. }
  set (xa := inject_Z R / inject_Z (Z.pos n)).
  set (xb := inject_Z S / inject_Z (Z.pos n)).
  assert (Hxa : xa * inject_Z (Z.pos n) == inject_Z R).
  { unfold xa. field. lra. }
  assert (Hxb : xb * inject_Z (Z.pos n) == inject_Z S).
  { unfold xb. field. lra. }
  assert (Hdif : xa - xb <= inject_Z d).
  { apply (Qmult_le_r _ _ (inject_Z (Z.pos n))); [exact HnQ|].
    assert (Hd' : (R + - S <= Z.pos n * d)%Z) by lia.
    rewrite Zle_Qle, inject_Z_plus, inject_Z_opp, inject_Z_mult in Hd'. lra. }
  clearbody xa xb.
  destruct (cociente_de_enteros R n xa) as (Hfa & Hsa & _); [lia | lia | lia | exact Hxa |].
  destruct (cociente_de_enteros S n xb) as (Hfb & _ & Hib); [lia | lia | lia | exact Hxb |].
  assert (H22 : dos (-22) == 1 # 4194304) by reflexivity.
  assert (H19 : dos (-19) == 1 # 524288) by reflexivity.
  assert (H21 : dos (33 - 54) == 1 # 2097152) by reflexivity.
  destruct Hfa as [Ea | (ma & ea & Ea & Hda)]; destruct Hfb as [Eb | (mb & eb & Eb & Hdb)];
    rewrite Ea, Eb in *; cbn [magnitud] in *.
  - exact I.
  - cbn. now left.
  - change (Double.sub (S754_finite false ma ea) (S754_zero false))
      with (S754_finite false ma ea).
    cbn [bajo]. right. lra.
  - destruct (sub_cerca ma mb ea eb 33 Hda ltac:(lia)) as [Hneg Hpos].
    destruct (Qlt_le_dec (valor (Z.pos mb) eb) (valor (Z.pos ma) ea)) as [Hlt | Hle].
    + destruct (Hpos Hlt) as [[-> | (m & e & ->)] Hsup]; cbn [bajo magnitud] in *; [exact I|].
      right. lra.
    + destruct (Hneg Hle) as [-> | [-> | [-> | (m & e & ->)]]]; cbn [bajo]; auto.
Qed.

End ValorFacts.

(** ** The heuristic never overestimates *)

Lemma calcularHeuristica2_cota `{Plataforma} (e : Estado) (d : Z) :
  0 < Z.of_nat (length (M e)) < 2 ^ 53 ->
  0 <= carga_restante e < 2 ^ 31 ->
  holgura_total e < 2 ^ 53 ->
  holgura_total e < Z.of_nat (length (M e)) * 2 ^ 31 ->
  0 <= d <= Double.INT_MAX ->
  carga_restante e - holgura_total e <= Z.of_nat (length (M e)) * d ->
  0 <= calcularHeuristica2 e <= d.
Proof.
  intros HN HR HS HSN Hd Hdif.
  rewrite calcularHeuristica2_exceso by exact HS.
  apply ValorFacts.redondear_bajo; [exact Hd|].
  unfold exceso_promedio. apply ValorFacts.exceso_bajo; auto.
  split; [apply holgura_total_no_negativa | exact HS].
Qed.

Lemma holgura_como_diferencia (e : Estado) :
  holgura_total e = Z.of_nat (length (M e)) * calcularCoste e - suma_cargas e.
Proof.
  unfold holgura_total, suma_cargas. generalize (calcularCoste e) as c.
  intros c. induction (M e) as [|m l IH]; [reflexivity|].
  cbn [map fold_right length]. rewrite IH, Nat2Z.inj_succ. lia.
Qed.

Lemma coste_crece (M1 M2 : list Maquina) (m m' : Maquina) (x : Z) :
  tiempo_ocupado m <= tiempo_ocupado m' ->
  fold_left mayor (M1 ++ m :: M2) x <= fold_left mayor (M1 ++ m' :: M2) x.
Proof.
  intros Hm. rewrite !fold_left_app. cbn [fold_left].
  apply mayor_creciente. unfold mayor. lia.
Qed.

Lemma alcanzable_trans (a b c : Estado) :
  alcanzable a b -> alcanzable b c -> alcanzable a c.
Proof.
  intros Hab Hbc. induction Hbc as [|e e' _ IH Hin]; [exact Hab|].
  now apply alcanzable_sucesor with e.
Qed.

(** Along successor generations with durations that are not negative the
    pending tasks stay among the initial ones, the loads stay
    non-negative and the cost does not decrease. *)
Lemma alcanzable_crece (e G : Estado) :
  (forall x, In x (T e) -> 0 <= tiempo x) ->
  (forall m, In m (M e) -> 0 <= tiempo_ocupado m) ->
  alcanzable e G ->
  incl (T G) (T e)
  /\ (forall m, In m (M G) -> 0 <= tiempo_ocupado m)
  /\ calcularCoste e <= calcularCoste G.
Proof.
  intros HT HM Halc. induction Halc as [|a a' _ (IHT & IHM & IHg) Hin].
  - split; [apply incl_refl | split; [exact HM | lia]].
  - destruct (sucesor_forma a a' Hin)
      as (T1 & tarea & T2 & M1 & maquina & M2 & HTa & _ & HMa & _ & ->).
    cbn [M T]. unfold calcularCoste in *. cbn [M].
    assert (Htarea : 0 <= tiempo tarea).
    { apply HT, IHT. rewrite HTa. apply in_or_app. right. now left. }
    split; [|split].
    + intros x Hx. apply IHT. rewrite HTa. apply in_app_or in Hx.
      apply in_or_app. destruct Hx; [now left | right; now right].
    + intros m Hm. apply in_app_or in Hm. destruct Hm as [Hm | [<- | Hm]].
      * apply IHM. rewrite HMa. apply in_or_app. now left.
      * cbn. assert (0 <= tiempo_ocupado maquina); [|lia].
        apply IHM. rewrite HMa. apply in_or_app. right. now left.
      * apply IHM. rewrite HMa. apply in_or_app. right. now right.
    + apply Z.le_trans with (fold_left mayor (M a) 0); [exact IHg|].
      rewrite HMa. apply coste_crece. cbn. lia.
Qed.

(** The heuristic is admissible: from a state [e], no completed schedule
    [G] that successor generations reach costs less than [g(e) + h(e)]. *)
Lemma heuristica_admisible `{Plataforma} (e G : Estado) :
  M e <> [] ->
  Z.of_nat (length (M e)) < 2 ^ 22 ->
  (forall m, In m (M e) -> 0 <= tiempo_ocupado m) ->
  (forall x, In x (T e) -> 0 <= tiempo x) ->
  carga_restante e <= Double.INT_MAX ->
  calcularCoste G <= Double.INT_MAX ->
  alcanzable e G ->
  T G = [] ->
  0 <= calcularHeuristica2 e
  /\ calcularCoste e + calcularHeuristica2 e <= calcularCoste G.
Proof.
  intros HM HN Hloads Hdur HR HG Halc HTG.
  destruct (alcanzable_crece e G Hdur Hloads Halc) as (_ & HloadsG & Hg).
  pose proof (trabajo_alcanzable e G Halc) as Htrab.
  assert (HRG : carga_restante G = 0) by (unfold carga_restante; now rewrite HTG).
  pose proof (alcanzable_maquinas e G Halc) as Hlen.
  assert (HsumG : suma_cargas G <= Z.of_nat (length (M G)) * calcularCoste G).
  { unfold suma_cargas. apply suma_acotada. intros m Hm. now apply calcularCoste_miembro. }
  assert (Hsum : 0 <= suma_cargas e).
  { unfold suma_cargas. apply suma_no_negativa. apply Forall_forall.
    intros x Hx. apply in_map_iff in Hx. destruct Hx as (m & <- & Hm). now apply Hloads. }
  assert (HR0 : 0 <= carga_restante e).
  { unfold carga_restante. apply suma_no_negativa. apply Forall_forall.
    intros x Hx. apply in_map_iff in Hx. destruct Hx as (t & <- & Ht). now apply Hdur. }
  assert (HNpos : 0 < Z.of_nat (length (M e))).
  { destruct (M e); [contradiction | cbn [length]; lia]. }
  pose proof (calcularCoste_no_negativo e) as Hg0.
  pose proof (holgura_como_diferencia e) as Hhol.
  unfold Double.INT_MAX in *.
  set (N := Z.of_nat (length (M e))) in *.
  set (g := calcularCoste e) in *. set (gG := calcularCoste G) in *.
  rewrite Hlen in HsumG. fold N in HsumG.
  assert (Hcota : 0 <= calcularHeuristica2 e <= gG - g).
  { apply calcularHeuristica2_cota; fold N.
    - lia.
    - lia.
    - rewrite Hhol. fold N g. nia.
    - rewrite Hhol. fold N g. nia.
    - unfold Double.INT_MAX. lia.
    - rewrite Hhol. fold N g. nia. }
  lia.
Qed.

(** X18.  The heuristic is admissible.  For a state with at least one
    machine (fewer than [2^22]), loads and pending durations that are not
    negative and a remaining work that fits an [int], and for every
    completed schedule [G] that successor generations reach from it with a
    makespan that fits an [int]: [calcularHeuristica2] is not negative
    and [g + h] of the state is at most the makespan of [G].  The two
    divisions, the subtraction and [std::round] are those of [double];
    their rounding errors stay far below the half unit that would be
    needed to overestimate. *)
Theorem calcularHeuristica2_admisible `{Plataforma} (e G : Estado) :
  M e <> [] ->
  Z.of_nat (length (M e)) < 2 ^ 22 ->
  (forall m, In m (M e) -> 0 <= tiempo_ocupado m) ->
  (forall x, In x (T e) -> 0 <= tiempo x) ->
  carga_restante e <= Double.INT_MAX ->
  calcularCoste G <= Double.INT_MAX ->
  alcanzable e G ->
  T G = [] ->
  0 <= calcularHeuristica2 e
  /\ calcularCoste e + calcularHeuristica2 e <= calcularCoste G.
Proof. apply heuristica_admisible. Qed.

Lemma calcularHeuristica2_admisible_testigo :
  M (estado_de_main 1 [5]) <> []
  /\ Z.of_nat (length (M (estado_de_main 1 [5]))) < 2 ^ 22
  /\ (forall m, In m (M (estado_de_main 1 [5])) -> 0 <= tiempo_ocupado m)
  /\ (forall x, In x (T (estado_de_main 1 [5])) -> 0 <= tiempo x)
  /\ carga_restante (estado_de_main 1 [5]) <= Double.INT_MAX
  /\ calcularCoste (asignarTarea (estado_de_main 1 [5]) 1 1) <= Double.INT_MAX
  /\ alcanzable (estado_de_main 1 [5]) (asignarTarea (estado_de_main 1 [5]) 1 1)
  /\ T (asignarTarea (estado_de_main 1 [5]) 1 1) = []
  /\ 0 <= @calcularHeuristica2 plataforma_int_min (estado_de_main 1 [5])
  /\ calcularCoste (estado_de_main 1 [5])
     + @calcularHeuristica2 plataforma_int_min (estado_de_main 1 [5])
     <= calcularCoste (asignarTarea (estado_de_main 1 [5]) 1 1).
Proof.
  assert (H1 : M (estado_de_main 1 [5]) <> []) by discriminate.
  assert (H2 : Z.of_nat (length (M (estado_de_main 1 [5]))) < 2 ^ 22) by reflexivity.
  assert (H3 : forall m, In m (M (estado_de_main 1 [5])) -> 0 <= tiempo_ocupado m).
  { intros m [<- | []]. discriminate. }
  assert (H4 : forall x, In x (T (estado_de_main 1 [5])) -> 0 <= tiempo x).
  { intros x [<- | []]. discriminate. }
  assert (H5 : carga_restante (estado_de_main 1 [5]) <= Double.INT_MAX) by discriminate.
  assert (H6 : calcularCoste (asignarTarea (estado_de_main 1 [5]) 1 1) <= Double.INT_MAX)
    by discriminate.
  assert (H7 : alcanzable (estado_de_main 1 [5]) (asignarTarea (estado_de_main 1 [5]) 1 1)).
  { apply alcanzable_sucesor with (estado_de_main 1 [5]); [constructor | now left]. }
  assert (H8 : T (asignarTarea (estado_de_main 1 [5]) 1 1) = []) by reflexivity.
  split; [exact H1 | split; [exact H2 | split; [exact H3 | split; [exact H4 |
    split; [exact H5 | split; [exact H6 | split; [exact H7 | split; [exact H8 |]]]]]]]].
  exact (@calcularHeuristica2_admisible plataforma_int_min _ _ H1 H2 H3 H4 H5 H6 H7 H8).
Defined.

(** The estimate is attained: with one machine and one task of duration 5
    the heuristic of the initial state is 5, the makespan of the only
    schedule. *)
Example calcularHeuristica2_exacta :
  @calcularHeuristica2 plataforma_int_min (estado_de_main 1 [5]) = 5.
Proof. vm_compute. reflexivity. Qed.

(** ** The search returns a schedule of least makespan *)

Lemma asignarTarea_mismo (a b : Estado) (t m : Z) :
  M a = M b -> T a = T b ->
  M (asignarTarea a t m) = M (asignarTarea b t m)
  /\ T (asignarTarea a t m) = T (asignarTarea b t m).
Proof.
  intros HM HT. unfold asignarTarea. rewrite HM, HT.
  destruct (nth_error (T b) _); [|now split].
  destruct (nth_error (M b) _); now split.
Qed.

(** Whether a state leads to a goal within a cost depends on its machines
    and pending tasks, not on its history. *)
Lemma alcanza_meta_mismo (cota : Z) (k : nat) :
  forall a b, M a = M b -> T a = T b -> alcanza_meta cota k a = alcanza_meta cota k b.
Proof.
  induction k as [|k IH]; intros a b HM HT.
  - cbn [alcanza_meta]. unfold calcularCoste. now rewrite HM, HT.
  - cbn [alcanza_meta]. unfold calcularCoste. rewrite HM, HT.
    destruct (T b) as [|t0 T0] eqn:HTb; [reflexivity|].
    rewrite !generarSucesores_producto, HM, HT, HTb.
    induction (list_prod (t0 :: T0) (M b)) as [|p l IHl]; [reflexivity|].
    cbn [map existsb]. rewrite IHl. f_equal.
    apply IH; apply asignarTarea_mismo; congruence.
Qed.

Lemma listas_por_id {A : Type} (id : A -> Z) (v u w : list A) :
  NoDup (map id v) -> incl u v -> incl w v -> map id u = map id w -> u = w.
Proof.
  intros Hnd. revert w. induction u as [|a u IH]; intros [|b w] Hu Hw Hmap;
    try discriminate; [reflexivity|].
  cbn [map] in Hmap. injection Hmap as Hab Hmap. f_equal.
  - apply (mismo_por_id id v); auto.
    + apply Hu. now left.
    + apply Hw. now left.
  - apply IH; auto.
    + intros x Hx. apply Hu. now right.
    + intros x Hx. apply Hw. now right.
Qed.

Lemma prometedor_clave (inicial : Estado) (cota : Z) (a b : Estado) :
  NoDup (map Tarea_id (T inicial)) ->
  incl (T a) (T inicial) -> incl (T b) (T inicial) ->
  clave a = clave b ->
  prometedor cota a = prometedor cota b.
Proof.
  intros Hnd Ha Hb Hc. unfold clave in Hc. injection Hc as HT HM.
  assert (HTab : T a = T b) by (apply (listas_por_id Tarea_id (T inicial)); auto).
  unfold prometedor. rewrite HTab. now apply alcanza_meta_mismo.
Qed.

Lemma alcanza_meta_meta (cota : Z) (k : nat) :
  forall e, alcanza_meta cota k e = true ->
            exists G, alcanzable e G /\ T G = [] /\ calcularCoste G <= cota.
Proof.
  induction k as [|k IH]; intros e; cbn [alcanza_meta].
  - destruct (T e) eqn:HT; [|discriminate].
    intros Hle. exists e. repeat split; [constructor | exact HT | now apply Z.leb_le].
  - destruct (T e) eqn:HT.
    + intros Hle. exists e. repeat split; [constructor | exact HT | now apply Z.leb_le].
    + intros Hex. apply existsb_exists in Hex. destruct Hex as (s & Hs & Hk).
      destruct (IH s Hk) as (G & HG & HTG & Hc). exists G. repeat split; auto.
      apply alcanzable_trans with s; [|exact HG].
      apply alcanzable_sucesor with e; [constructor | exact Hs].
Qed.

Lemma prometedor_hacia_atras (cota : Z) (a e : Estado) :
  alcanzable a e -> prometedor cota e = true -> prometedor cota a = true.
Proof.
  induction 1 as [|e e' _ IH Hin]; [auto|].
  intros Hp. apply IH. unfold prometedor in *.
  pose proof (sucesor_pendientes e e' Hin) as Hlen.
  destruct (T e) as [|t0 T0] eqn:HT; [discriminate|].
  cbn [length] in *. cbn [alcanza_meta]. rewrite HT.
  apply existsb_exists. exists e'. split; [exact Hin|].
  injection Hlen as <-. exact Hp.
Qed.

Lemma prometedor_meta_propia (G : Estado) :
  T G = [] -> prometedor (calcularCoste G) G = true.
Proof.
  intros HT. unfold prometedor. rewrite HT. cbn [length alcanza_meta]. rewrite HT.
  apply Z.leb_refl.
Qed.

Lemma elemento_de_suma (x : Z) (l : list Z) :
  Forall (fun y => 0 <= y) l -> In x l -> x <= fold_right Z.add 0 l.
Proof.
  induction 1 as [|y l Hy Hl IH]; intros Hin; [contradiction|].
  pose proof (suma_no_negativa l Hl). cbn [fold_right].
  destruct Hin as [-> | Hin]; [lia | apply IH in Hin; lia].
Qed.

Lemma coste_menor_que_suma (e : Estado) :
  (forall m, In m (M e) -> 0 <= tiempo_ocupado m) -> calcularCoste e <= suma_cargas e.
Proof.
  intros Hloads. unfold calcularCoste, suma_cargas.
  assert (Hall : Forall (fun y => 0 <= y) (map tiempo_ocupado (M e))).
  { apply Forall_forall. intros y Hy. apply in_map_iff in Hy.
    destruct Hy as (m & <- & Hm). now apply Hloads. }
  destruct (mayor_alcanzado (M e) 0) as [-> | (m & Hm & <-)].
  - now apply suma_no_negativa.
  - apply elemento_de_suma; [exact Hall | now apply in_map].
Qed.

(** What the states reachable from the initial state of [main] inherit
    from durations that are not negative and add up to an [int]. *)
Lemma en_rango_desde_main (N : nat) (tiempos : list Z) (e : Estado) :
  (forall x, In x tiempos -> 0 <= x) ->
  fold_right Z.add 0 tiempos <= Double.INT_MAX ->
  alcanzable (estado_de_main N tiempos) e ->
  (forall m, In m (M e) -> 0 <= tiempo_ocupado m)
  /\ (forall x, In x (T e) -> 0 <= tiempo x)
  /\ carga_restante e <= Double.INT_MAX
  /\ calcularCoste e <= Double.INT_MAX.
Proof.
  intros Hpos Hsum Halc.
  assert (HT0 : forall x, In x (T (estado_de_main N tiempos)) -> 0 <= tiempo x).
  { intros x Hx. apply Hpos. rewrite <- (tiempos_de_tareas_desde tiempos 0).
    now apply in_map. }
  assert (HM0 : forall m, In m (M (estado_de_main N tiempos)) -> 0 <= tiempo_ocupado m).
  { intros m Hm. pose proof (maquinas_iniciales_libres N) as Hall.
    rewrite Forall_forall in Hall. rewrite (Hall m Hm). lia. }
  destruct (alcanzable_crece _ e HT0 HM0 Halc) as (Hincl & Hloads & _).
  pose proof (trabajo_alcanzable _ _ Halc) as Htrab.
  destruct (trabajo_de_main N tiempos) as [H0 HR]. rewrite H0, HR in Htrab.
  pose proof (coste_menor_que_suma e Hloads) as Hg.
  assert (Hdur : forall x, In x (T e) -> 0 <= tiempo x).
  { intros x Hx. apply HT0. now apply Hincl. }
  assert (HR0 : 0 <= carga_restante e).
  { unfold carga_restante. apply suma_no_negativa. apply Forall_forall.
    intros y Hy. apply in_map_iff in Hy. destruct Hy as (t & <- & Ht). now apply Hdur. }
  assert (HS0 : 0 <= suma_cargas e).
  { unfold suma_cargas. apply suma_no_negativa. apply Forall_forall.
    intros y Hy. apply in_map_iff in Hy. destruct Hy as (m & <- & Hm). now apply Hloads. }
  repeat split; auto; lia.
Qed.

(** *** Every schedule is a reachable state *)

Lemma cargas_de_reparto (pares : list (Z * Z)) :
  forall ms,
    fold_left (fun ms p => map (cargar (snd p) (fst p)) ms) pares ms
    = map (fun maq =>
             {| Maquina_id := Maquina_id maq;
                tiempo_ocupado :=
                  tiempo_ocupado maq
                  + fold_right Z.add 0
                      (map fst (filter (fun p => snd p =? Maquina_id maq) pares)) |})
          ms.
Proof.
  induction pares as [|[d j] ps IH]; intros ms; cbn [fold_left].
  - cbn [filter map fold_right]. rewrite <- (map_id ms) at 1. apply map_ext.
    intros [i t]. cbn. f_equal. lia.
  - rewrite IH, map_map. apply map_ext. intros [i t].
    unfold cargar. cbn [fst snd Maquina_id tiempo_ocupado filter].
    rewrite (Z.eqb_sym j i). destruct (i =? j); cbn [Maquina_id tiempo_ocupado map fold_right fst];
      f_equal; lia.
Qed.

(** Every schedule is reached: assigning the pending tasks in their order
    to the machines of [reparto] is a chain of successor generations. *)
Lemma reparto_alcanzable_desde (tiempos reparto : list Z) :
  forall (e : Estado) (i : Z),
    T e = tareas_desde i tiempos ->
    NoDup (map Maquina_id (M e)) ->
    length reparto = length tiempos ->
    (forall j, In j reparto -> In j (map Maquina_id (M e))) ->
    exists G,
      alcanzable e G
      /\ T G = []
      /\ M G = fold_left (fun ms p => map (cargar (snd p) (fst p)) ms)
                         (combine tiempos reparto) (M e)
      /\ Asignaciones G = Asignaciones e ++ historia_de_reparto i reparto.
Proof.
  revert reparto. induction tiempos as [|d l IH]; intros reparto e i HT HM Hlen Hj.
  - destruct reparto; [|discriminate]. exists e. cbn. rewrite app_nil_r.
    repeat split; auto. constructor.
  - destruct reparto as [|j resto]; [discriminate|].
    cbn [tareas_desde] in HT. set (tarea := {| Tarea_id := i + 1; tiempo := d |}) in *.
    assert (Hin : In tarea (T e)) by (rewrite HT; now left).
    assert (HndT : NoDup (map Tarea_id (T e))).
    { rewrite HT. apply (tareas_desde_ids_unicos (d :: l) i). }
    assert (Hjin : In j (map Maquina_id (M e))) by (apply Hj; now left).
    pose proof (asignarTarea_unicos e tarea j HndT HM Hin Hjin) as Heq.
    assert (HT' : filter (fun x => negb (Tarea_id x =? Tarea_id tarea)) (T e)
                  = tareas_desde (i + 1) l).
    { rewrite HT. cbn [filter]. rewrite Z.eqb_refl. cbn [negb].
      apply filter_sin_id. intros Hx. apply tareas_desde_ids_mayores in Hx.
      cbn in Hx. lia. }
    rewrite HT' in Heq.
    set (e' := asignarTarea e (Tarea_id tarea) j) in *.
    assert (Hsuc : In e' (generarSucesores e)).
    { apply generarSucesores_In. apply in_map_iff in Hjin.
      destruct Hjin as (maquina & Hid & Hmaq). exists tarea, maquina.
      repeat split; auto. unfold e'. now rewrite Hid. }
    destruct (IH resto e' (i + 1)) as (G & HG & HTG & HMG & HAG).
    + rewrite Heq. reflexivity.
    + rewrite Heq. cbn [M]. now rewrite cargar_ids.
    + cbn [length] in Hlen. lia.
    + intros k Hk. rewrite Heq. cbn [M]. rewrite cargar_ids. apply Hj. now right.
    + exists G. split; [|split; [exact HTG | split]].
      * apply alcanzable_trans with e'; [|exact HG].
        apply alcanzable_sucesor with e; [constructor | exact Hsuc].
      * rewrite HMG, Heq. reflexivity.
      * rewrite HAG, Heq. cbn [Asignaciones historia_de_reparto].
        rewrite <- app_assoc. reflexivity.
Qed.

Lemma reparto_alcanzable (N : nat) (tiempos reparto : list Z) :
  length reparto = length tiempos ->
  (forall j, In j reparto -> 1 <= j <= Z.of_nat N) ->
  exists G,
    alcanzable (estado_de_main N tiempos) G
    /\ T G = []
    /\ M G = map (fun i => {| Maquina_id := Z.of_nat i;
                              tiempo_ocupado :=
                                carga_de_reparto tiempos reparto (Z.of_nat i) |})
                 (seq 1 N)
    /\ Asignaciones G = historia_de_reparto 0 reparto.
Proof.
  intros Hlen Hj.
  destruct (reparto_alcanzable_desde tiempos reparto (estado_de_main N tiempos) 0)
    as (G & HG & HTG & HMG & HAG).
  - reflexivity.
  - apply maquinas_iniciales_ids_unicos.
  - exact Hlen.
  - intros j Hin. cbn [M estado_de_main]. unfold maquinas_iniciales. rewrite map_map.
    cbn [Maquina_id]. apply in_map_iff. exists (Z.to_nat j).
    specialize (Hj j Hin). split; [lia | apply in_seq; lia].
  - exists G. repeat split; auto.
    rewrite HMG, cargas_de_reparto. cbn [M estado_de_main]. unfold maquinas_iniciales.
    rewrite map_map. apply map_ext. intros i. cbn [Maquina_id tiempo_ocupado].
    reflexivity.
Qed.

Lemma coste_de_reparto (N : nat) (tiempos reparto : list Z) (G : Estado) :
  M G = map (fun i => {| Maquina_id := Z.of_nat i;
                         tiempo_ocupado := carga_de_reparto tiempos reparto (Z.of_nat i) |})
            (seq 1 N) ->
  calcularCoste G = makespan_de_reparto N tiempos reparto.
Proof.
  intros HM. unfold calcularCoste, makespan_de_reparto. rewrite HM, !map_map.
  generalize (seq 1 N) as l. intros l.
  assert (Hgen : forall x, 0 <= x ->
             fold_left mayor
               (map (fun i => {| Maquina_id := Z.of_nat i;
                                 tiempo_ocupado :=
                                   carga_de_reparto tiempos reparto (Z.of_nat i) |}) l) x
             = Z.max x (fold_right Z.max 0
                          (map (fun i => carga_de_reparto tiempos reparto (Z.of_nat i)) l))).
  { induction l as [|i l IH]; intros x Hx; cbn [map fold_left fold_right].
    - lia.
    - rewrite IH by (unfold mayor; lia). unfold mayor. cbn [tiempo_ocupado]. lia. }
  rewrite Hgen by lia.
  assert (H0 : forall v : list Z, 0 <= fold_right Z.max 0 v).
  { induction v; cbn [fold_right]; lia. }
  specialize (H0 (map (fun i => carga_de_reparto tiempos reparto (Z.of_nat i)) l)). lia.
Qed.

Section Optimalidad.
Context `{Plataforma} {Q : ColaPrioridad} {QL : ColaLegal Q}.

(** The schedule returned costs no more than any completed schedule that
    successor generations reach. *)
Lemma A_estrella_minimo (N : nat) (tiempos : list Z) (combustible : nat) :
  N <> O ->
  Z.of_nat N < 2 ^ 22 ->
  (forall x, In x tiempos -> 0 <= x) ->
  fold_right Z.add 0 tiempos <= Double.INT_MAX ->
  (peso N (length tiempos) < combustible)%nat ->
  exists r, A_estrella combustible (estado_de_main N tiempos) = Some r
            /\ T r = []
            /\ forall G, alcanzable (estado_de_main N tiempos) G -> T G = [] ->
                         calcularCoste r <= calcularCoste G.
Proof.
  intros HN HN22 Hpos Hsum Hc.
  set (inicial := estado_de_main N tiempos).
  assert (Hlen : length (T inicial) = length tiempos).
  { simpl. rewrite <- (length_map tiempo), tiempos_de_tareas_desde. reflexivity. }
  assert (HlenM : length (M inicial) = N).
  { simpl. unfold maquinas_iniciales. now rewrite length_map, length_seq. }
  assert (HM : M inicial <> []).
  { intros HM0. rewrite HM0 in HlenM. simpl in HlenM. congruence. }
  destruct (A_estrella_termina combustible inicial) as [r Hr].
  { now rewrite Hlen, HlenM. }
  destruct (A_estrella_con_maquinas combustible inicial r HM Hr) as [Halc HT].
  exists r. split; [exact Hr | split; [exact HT |]].
  intros G HG HTG.
  assert (Hadm : forall e G', alcanzable inicial e -> alcanzable e G' -> T G' = [] ->
                   0 <= calcularHeuristica2 e
                   /\ calcularCoste e + calcularHeuristica2 e <= calcularCoste G').
  { intros e G' He HG' HTG'.
    destruct (en_rango_desde_main N tiempos e Hpos Hsum He) as (Hl & Hd & HR & _).
    destruct (en_rango_desde_main N tiempos G' Hpos Hsum) as (_ & _ & _ & Hg).
    { now apply alcanzable_trans with e. }
    pose proof (maquinas_de_main N tiempos e He) as HNe.
    apply heuristica_admisible; auto.
    - intros HMe. rewrite HMe in HNe. simpl in HNe. congruence.
    - now rewrite HNe. }
  destruct (A_estrella_meta inicial (prometedor (calcularCoste G)) (calcularCoste G))
    with (combustible := combustible) (r := r) as (_ & _ & Hf).
  - apply (prometedor_hacia_atras _ inicial G HG). now apply prometedor_meta_propia.
  - intros a b Ha Hb Hclave.
    apply (prometedor_clave inicial); auto.
    + apply tareas_desde_ids_unicos.
    + apply (coh_pendientes _ _ (coherente_desde_main N tiempos a Ha)).
    + apply (coh_pendientes _ _ (coherente_desde_main N tiempos b Hb)).
  - intros e He Hp. unfold prometedor in Hp.
    destruct (alcanza_meta_meta _ _ e Hp) as (G' & HG' & HTG' & Hc').
    destruct (Hadm e G' He HG' HTG') as [_ Hle]. unfold nodo_de. cbn [f_cost]. lia.
  - intros e _. apply prometedor_sucesor.
  - exact Hr.
  - destruct (Hadm r r Halc (alcanzable_inicial r) HT) as [Hh _].
    unfold nodo_de in Hf. cbn [f_cost] in Hf. lia.
Qed.

(** X19.  The search is optimal on the instances of [main].  With [N]
    machines, [1 <= N < 2^22], and durations that are not negative and
    add up to an [int], [A_estrella] returns a completed schedule whose
    makespan is at most that of every completed schedule that successor
    generations reach from the initial state, and at most the makespan of
    every assignment of the tasks [1..n] to machines among [1..N].  This
    holds for every lawful priority queue, whichever node it puts on top
    among those of least [f_cost], and although the closed list never
    reopens a state. *)
Theorem A_estrella_optima (N : nat) (tiempos : list Z) (combustible : nat) :
  N <> O ->
  Z.of_nat N < 2 ^ 22 ->
  (forall x, In x tiempos -> 0 <= x) ->
  fold_right Z.add 0 tiempos <= Double.INT_MAX ->
  (peso N (length tiempos) < combustible)%nat ->
  exists r, A_estrella combustible (estado_de_main N tiempos) = Some r
            /\ T r = []
            /\ (forall G, alcanzable (estado_de_main N tiempos) G -> T G = [] ->
                          calcularCoste r <= calcularCoste G)
            /\ (forall reparto,
                  length reparto = length tiempos ->
                  (forall j, In j reparto -> 1 <= j <= Z.of_nat N) ->
                  calcularCoste r <= makespan_de_reparto N tiempos reparto).
Proof.
  intros HN HN22 Hpos Hsum Hc.
  destruct (A_estrella_minimo N tiempos combustible HN HN22 Hpos Hsum Hc)
    as (r & Hr & HT & Hmin).
  exists r. split; [exact Hr | split; [exact HT | split; [exact Hmin |]]].
  intros reparto Hlen Hj.
  destruct (reparto_alcanzable N tiempos reparto Hlen Hj) as (G & HG & HTG & HMG & _).
  rewrite <- (coste_de_reparto N tiempos reparto G HMG). now apply Hmin.
Qed.

End Optimalidad.

Lemma A_estrella_optima_testigo :
  2%nat <> O
  /\ Z.of_nat 2 < 2 ^ 22
  /\ (forall x, In x [5; 5; 3] -> 0 <= x)
  /\ fold_right Z.add 0 [5; 5; 3] <= Double.INT_MAX
  /\ lt (peso 2 (length [5; 5; 3])) 80
  /\ exists r, @A_estrella plataforma_int_min ColaLista.cola 80 (estado_de_main 2 [5; 5; 3])
               = Some r
               /\ T r = []
               /\ (forall G, alcanzable (estado_de_main 2 [5; 5; 3]) G -> T G = [] ->
                             calcularCoste r <= calcularCoste G)
               /\ (forall reparto,
                     length reparto = length [5; 5; 3] ->
                     (forall j, In j reparto -> 1 <= j <= Z.of_nat 2) ->
                     calcularCoste r <= makespan_de_reparto 2 [5; 5; 3] reparto).
Proof.
  assert (H1 : 2%nat <> O) by discriminate.
  assert (H2 : Z.of_nat 2 < 2 ^ 22) by reflexivity.
  assert (H3 : forall x, In x [5; 5; 3] -> 0 <= x).
  { intros x [<- | [<- | [<- | []]]]; discriminate. }
  assert (H4 : fold_right Z.add 0 [5; 5; 3] <= Double.INT_MAX) by discriminate.
  assert (H5 : lt (peso 2 (length [5; 5; 3])) 80) by (vm_compute; repeat constructor).
  split; [exact H1 | split; [exact H2 | split; [exact H3 | split; [exact H4 | split; [exact H5 |]]]]].
  exact (@A_estrella_optima plataforma_int_min ColaLista.cola ColaListaLegal.legal
           2%nat [5; 5; 3] 80%nat H1 H2 H3 H4 H5).
Defined.

(** X20.  Every schedule is a state of the search space.  With durations
    whose absolute values add up to an [int], for each assignment of the
    tasks [1..n] to machines among [1..N], given as the list of the
    machine ids in the order of the tasks, successor generations from the
    initial state of [main] reach a state without pending tasks whose
    machines are [1..N] with the loads of that assignment, all of them
    [int]s, whose history lists its choices in order, and whose cost is
    its makespan. *)
Theorem todo_reparto_alcanzable (N : nat) (tiempos reparto : list Z) :
  suma_absoluta tiempos <= Double.INT_MAX ->
  length reparto = length tiempos ->
  (forall j, In j reparto -> 1 <= j <= Z.of_nat N) ->
  exists G,
    alcanzable (estado_de_main N tiempos) G
    /\ T G = []
    /\ M G = map (fun i => {| Maquina_id := Z.of_nat i;
                              tiempo_ocupado :=
                                carga_de_reparto tiempos reparto (Z.of_nat i) |})
                 (seq 1 N)
    /\ (forall m, In m (M G) -> es_int (tiempo_ocupado m))
    /\ Asignaciones G = historia_de_reparto 0 reparto
    /\ calcularCoste G = makespan_de_reparto N tiempos reparto.
Proof.
  intros Hsum Hlen Hj.
  destruct (reparto_alcanzable N tiempos reparto Hlen Hj) as (G & HG & HTG & HMG & HAG).
  exists G. split; [exact HG | split; [exact HTG | split; [exact HMG | split; [| split]]]].
  - intros m Hm. now apply (cargas_en_rango N tiempos G).
  - exact HAG.
  - now apply coste_de_reparto.
Qed.

Lemma todo_reparto_alcanzable_testigo :
  suma_absoluta [5; 5; 3] <= Double.INT_MAX
  /\ length [1; 2; 1] = length [5; 5; 3]
  /\ (forall j, In j [1; 2; 1] -> 1 <= j <= Z.of_nat 2)
  /\ exists G,
      alcanzable (estado_de_main 2 [5; 5; 3]) G
      /\ T G = []
      /\ M G = map (fun i => {| Maquina_id := Z.of_nat i;
                                tiempo_ocupado :=
                                  carga_de_reparto [5; 5; 3] [1; 2; 1] (Z.of_nat i) |})
                   (seq 1 2)
      /\ (forall m, In m (M G) -> es_int (tiempo_ocupado m))
      /\ Asignaciones G = historia_de_reparto 0 [1; 2; 1]
      /\ calcularCoste G = makespan_de_reparto 2 [5; 5; 3] [1; 2; 1].
Proof.
  assert (H0 : suma_absoluta [5; 5; 3] <= Double.INT_MAX).
  { vm_compute. discriminate. }
  assert (H1 : length [1; 2; 1] = length [5; 5; 3]) by reflexivity.
  assert (H2 : forall j, In j [1; 2; 1] -> 1 <= j <= Z.of_nat 2).
  { intros j [<- | [<- | [<- | []]]]; split; discriminate. }
  split; [exact H0 | split; [exact H1 | split; [exact H2 |]]].
  exact (todo_reparto_alcanzable 2 [5; 5; 3] [1; 2; 1] H0 H1 H2).
Defined.

(** The schedule 1, 2, 1 of scenario A has makespan 8, and so has the best
    one. *)
Example makespan_de_reparto_ejemplo :
  makespan_de_reparto 2 [5; 5; 3] [1; 2; 1] = 8
  /\ makespan_de_reparto 2 [5; 5; 3] [1; 1; 1] = 13.
Proof. split; reflexivity. Qed.
